(** * AirFryHub: the forum client's validation, toggles, feed query and
      post page, embedded from the TypeScript sources.

    Strings are JavaScript strings: sequences of UTF-16 code units, whose
    [length] is what [String.prototype.length] and zod's [min]/[max] see.
    Message texts and object keys are ordinary Rocq strings. *)

From stdpp Require Import base list strings gmap sorting pretty.

(** ** JavaScript values used by the client *)
Module Js.

Definition jsstring := list N.

(** A string literal of the sources, as code units. *)
Definition lit (s : string) : jsstring :=
  (λ a, Ascii.N_of_ascii a) <$> String.list_ascii_of_string s.

(** WhiteSpace and LineTerminator code units of ECMAScript, the characters
    [String.prototype.trim] strips. *)
Definition whitespace : list N :=
  [9; 10; 11; 12; 13; 32; 160; 5760;
   8192; 8193; 8194; 8195; 8196; 8197; 8198; 8199; 8200; 8201; 8202;
   8232; 8233; 8239; 8287; 12288; 65279]%N.

Definition is_ws (c : N) : bool := bool_decide (c ∈ whitespace).

Fixpoint trimStart (s : jsstring) : jsstring :=
  match s with
  | c :: s' => if is_ws c then trimStart s' else s
  | [] => []
  end.

Definition trimEnd (s : jsstring) : jsstring := reverse (trimStart (reverse s)).

Definition trim (s : jsstring) : jsstring := trimEnd (trimStart s).

(** Truthiness of a string: [""] is falsy, everything else truthy. *)
Definition truthy (s : jsstring) : bool :=
  match s with [] => false | _ => true end.

(** Truthiness of a [string | null] / [string | undefined] value. *)
Definition truthy_opt (o : option jsstring) : bool :=
  match o with Some s => truthy s | None => false end.

(** [s || undefined]. *)
Definition or_undefined (s : jsstring) : option jsstring :=
  if truthy s then Some s else None.

(** The values handed to the schema: [undefined], [null], a string, or an
    array of strings. *)
Inductive JsVal :=
| JUndefined
| JNull
| JStr (s : jsstring)
| JArr (l : list jsstring).

Global Instance JsVal_eq_dec : EqDecision JsVal.
Proof. solve_decision. Defined.

(** [x || null] for [x : string | undefined]. *)
Definition or_null (o : option jsstring) : JsVal :=
  match o with
  | Some s => if truthy s then JStr s else JNull
  | None => JNull
  end.

(** [x || []] for [x : string[] | undefined]; an array is always truthy. *)
Definition or_empty_array (o : option (list jsstring)) : JsVal :=
  match o with Some l => JArr l | None => JArr [] end.

End Js.

(** ** The part of the zod library the schemas are built from *)
Module Zod.
Import Js.

(** Outcome of parsing one value: valid, dirty (right type, a check
    failed) or invalid (wrong type); the last two carry issue messages. *)
Inductive Parsed :=
| Valid (v : JsVal)
| Dirty (issues : list string)
| Invalid (issues : list string).

Definition Schema := JsVal → Parsed.

Definition is_valid (p : Parsed) : bool :=
  match p with Valid _ => true | _ => false end.

Definition issues_of (p : Parsed) : list string :=
  match p with Valid _ => [] | Dirty l | Invalid l => l end.

(** String checks; [Url] is parameterised by the URL parser of the
    runtime, which the schema module receives. *)
Inductive Check :=
| Min (n : nat) (msg : string)
| Max (n : nat) (msg : string)
| Url (msg : string).

Section Checks.
Context (isUrl : jsstring → bool).

Definition failed (c : Check) (s : jsstring) : option string :=
  match c with
  | Min n msg => if decide (length s < n) then Some msg else None
  | Max n msg => if decide (n < length s) then Some msg else None
  | Url msg => if isUrl s then None else Some msg
  end.

(** [z.string()] followed by its checks: every check runs and every
    failure is reported. *)
Definition z_string (checks : list Check) : Schema := λ v,
  match v with
  | JStr s =>
      match omap (λ c, failed c s) checks with
      | [] => Valid v
      | msgs => Dirty msgs
      end
  | JUndefined => Invalid ["Required"]
  | JNull => Invalid ["Expected string, received null"]
  | JArr _ => Invalid ["Expected string, received array"]
  end.
End Checks.

(** [.optional()] *)
Definition optional (sch : Schema) : Schema := λ v,
  match v with
  | JUndefined => Valid JUndefined
  | _ => sch v
  end.

(** [z.literal(s)] *)
Definition z_literal (s : jsstring) : Schema := λ v,
  match v with
  | JStr s' => if decide (s' = s) then Valid v else Invalid ["Invalid literal value"]
  | _ => Invalid ["Invalid literal value"]
  end.

(** [a.or(b)]: the first valid option wins; otherwise the first dirty
    option's issues are reported; otherwise one invalid_union issue. *)
Definition or_ (a b : Schema) : Schema := λ v,
  match a v, b v with
  | Valid r, _ => Valid r
  | _, Valid r => Valid r
  | Dirty l, _ => Dirty l
  | _, Dirty l => Dirty l
  | Invalid _, Invalid _ => Invalid ["Invalid input"]
  end.

(** [z.array(z.string())]: the elements are strings by typing. *)
Definition z_array_string : Schema := λ v,
  match v with
  | JArr l => Valid (JArr l)
  | JUndefined => Invalid ["Required"]
  | JNull => Invalid ["Expected array, received null"]
  | JStr _ => Invalid ["Expected array, received string"]
  end.

(** [.default(d)] *)
Definition default_ (d : JsVal) (sch : Schema) : Schema := λ v,
  match v with
  | JUndefined => sch d
  | _ => sch v
  end.

(** An issue of an object schema: the key it sits under and its message. *)
Definition Issue : Type := string * string.

Definition at_key (k : string) (p : Parsed) : list Issue :=
  (λ m, (k, m)) <$> issues_of p.

End Zod.

(** ** lib/validations *)
Module Validations.
Import Js Zod.

Record PostFields := {
  f_title : JsVal;
  f_content : JsVal;
  f_image_url : JsVal;
  f_link_url : JsVal;
  f_flags : JsVal
}.

Global Instance PostFields_eq_dec : EqDecision PostFields.
Proof. solve_decision. Defined.

Inductive SafeParse :=
| Success (data : PostFields)
| Failure (issues : list Issue).

Section Schemas.
Context (isUrl : jsstring → bool).

Definition title_schema : Schema :=
  z_string isUrl
    [Min 1 "Title is required";
     Min 3 "Title must be at least 3 characters";
     Max 200 "Title must be less than 200 characters"].

Definition content_schema : Schema :=
  optional (z_string isUrl [Max 2000 "Content must be less than 2000 characters"]).

Definition image_url_schema : Schema :=
  or_ (optional (z_string isUrl [Url "Please enter a valid URL"])) (z_literal []).

Definition link_url_schema : Schema :=
  or_ (optional (z_string isUrl [Url "Please enter a valid URL"])) (z_literal []).

Definition flags_schema : Schema :=
  default_ (JArr []) (optional z_array_string).

Definition value_of (p : Parsed) : JsVal :=
  match p with Valid v => v | _ => JUndefined end.

(** The issues of all fields, in the order of the shape. *)
Definition createPost_issues (o : PostFields) : list Issue :=
  at_key "title" (title_schema (f_title o))
  ++ at_key "content" (content_schema (f_content o))
  ++ at_key "image_url" (image_url_schema (f_image_url o))
  ++ at_key "link_url" (link_url_schema (f_link_url o))
  ++ at_key "flags" (flags_schema (f_flags o)).

(** [createPostSchema.safeParse(o)] *)
Definition createPostSchema (o : PostFields) : SafeParse :=
  match createPost_issues o with
  | [] => Success {| f_title := value_of (title_schema (f_title o));
                     f_content := value_of (content_schema (f_content o));
                     f_image_url := value_of (image_url_schema (f_image_url o));
                     f_link_url := value_of (link_url_schema (f_link_url o));
                     f_flags := value_of (flags_schema (f_flags o)) |}
  | issues => Failure issues
  end.

Definition comment_content_schema : Schema :=
  z_string isUrl
    [Min 1 "Comment cannot be empty";
     Min 3 "Comment must be at least 3 characters";
     Max 500 "Comment must be less than 500 characters"].

(** [commentSchema], an object with the single key [content]. *)
Definition commentSchema (content : JsVal) : list Issue :=
  at_key "content" (comment_content_schema content).
End Schemas.

(** Whether a parse reports an issue under key [k]. *)
Definition reports (k : string) (r : SafeParse) : bool :=
  match r with
  | Success _ => false
  | Failure issues => bool_decide (k ∈ issues.*1)
  end.

(** The [errorMap] both forms build from the issues: a later issue under
    the same key overwrites an earlier one; an empty key is skipped. *)
Definition errorMap (issues : list Issue) : gmap string string :=
  foldl (λ m i, if decide (i.1 = "") then m else <[i.1 := i.2]> m) ∅ issues.

End Validations.

(** ** The hosted backend, as far as the client calls it *)
Module Supabase.
Import Js Validations.

(** [interface Post] *)
Record Post := {
  id : jsstring;
  title : jsstring;
  content : jsstring;
  image_url : option jsstring;
  link_url : option jsstring;
  flags : option (list jsstring);
  user_id : jsstring;
  created_at : jsstring;
  upvotes : Z
}.

(** [interface Comment] *)
Record Comment := {
  c_id : jsstring;
  c_content : jsstring;
  c_user_id : jsstring;
  c_post_id : jsstring;
  c_created_at : jsstring
}.

(** A call that reaches the platform. *)
Inductive Request :=
| InsertPost (data : PostFields) (user : option jsstring)
| UpdatePost (post_id : jsstring) (data : PostFields)
| DeletePost (post_id : jsstring)
| SelectPost (post_id : jsstring)
| SelectComments (post_id : jsstring)
| InsertComment (text : jsstring) (user : jsstring) (post_id : jsstring)
| RpcIncrementUpvotes (post_id : jsstring)
| GetSession
| SignInAnonymously.

Global Instance Request_eq_dec : EqDecision Request.
Proof. solve_decision. Defined.

Global Instance Post_eq_dec : EqDecision Post.
Proof. solve_decision. Defined.

(** The remote side: the posts table and the calls received so far. *)
Record Remote := {
  posts : list Post;
  calls : list Request
}.

(** What a mutation function can throw. The validation error is carried
    as the error map it serialises. *)
Inductive Thrown :=
| ValidationError (errors : gmap string string)
| JsError (message : string)
| PlatformError (message : string).

Inductive Outcome (A : Type) :=
| Returned (a : A)
| Threw (e : Thrown).
Arguments Returned {A} a.
Arguments Threw {A} e.

(** Computations that talk to the remote side and may throw. *)
Definition M (A : Type) : Type := Remote → Outcome A * Remote.

Global Instance M_ret : MRet M := λ A a r, (Returned a, r).
Global Instance M_bind : MBind M := λ A B k m r,
  match m r with
  | (Returned a, r') => k a r'
  | (Threw e, r') => (Threw e, r')
  end.

Definition throw {A} (e : Thrown) : M A := λ r, (Threw e, r).

(** The platform decides what a write does to the table: row-level
    security, defaults and generated columns are its own. *)
Record Platform := {
  on_insert : list Post → PostFields → option jsstring → string + (Post * list Post);
  on_update : list Post → jsstring → PostFields → string + list Post
}.

Section Calls.
Context (platform : Platform).

Definition received (q : Request) (r : Remote) : Remote :=
  {| posts := posts r; calls := calls r ++ [q] |}.

(** [supabase.from("posts").insert([data]).select().single()] with the
    [if (error) throw error] that follows it. *)
Definition insert_post (data : PostFields) (user : option jsstring) : M Post := λ r,
  let r' := received (InsertPost data user) r in
  match on_insert platform (posts r) data user with
  | inl e => (Threw (PlatformError e), r')
  | inr (row, table) => (Returned row, {| posts := table; calls := calls r' |})
  end.

(** [supabase.from("posts").update(data).eq("id", id)] with the
    [if (error) throw error] that follows it. *)
Definition update_post (post_id : jsstring) (data : PostFields) : M unit := λ r,
  let r' := received (UpdatePost post_id data) r in
  match on_update platform (posts r) post_id data with
  | inl e => (Threw (PlatformError e), r')
  | inr table => (Returned (), {| posts := table; calls := calls r' |})
  end.
End Calls.

End Supabase.

(** ** Requests on their way *)
Module Wire.
Import Js Supabase.

(** A request that has been sent and not yet answered, with what waits
    for the answer. The fetch of a query is live until the library cancels
    it, after which its answer is dropped. A mutation is observed by the
    hook that started it until the same hook starts another one; its
    callbacks run either way. The three last are the calls of [useOwner]:
    the session check and the anonymous sign-in of [checkAuth], and the
    session check of [retry], on which only a [finally] waits. *)
Inductive Flight :=
| Fetching (q : Request) (live : bool)
| Mutating (q : Request) (observed : bool)
| CheckingSession
| SigningIn
| RetryingSession.

Global Instance Flight_eq_dec : EqDecision Flight.
Proof. solve_decision. Defined.

(** The answer to [f] arrives: the first such flight ends. Nothing when
    there is none. *)
Fixpoint answered (f : Flight) (l : list Flight) : option (list Flight) :=
  match l with
  | [] => None
  | x :: l' => if decide (x = f) then Some l' else (x ::.) <$> answered f l'
  end.

(** The library cancels the running fetch of [q]. The request itself is
    not aborted, no query function of the client reads the abort signal. *)
Definition cancelled (q : Request) (l : list Flight) : list Flight :=
  (λ f, if decide (f = Fetching q true) then Fetching q false else f) <$> l.

(** A hook starts a mutation: it stops observing the ones it started
    before. [kind] tells the requests of that hook's mutation function. *)
Definition detached (kind : Request → bool) (l : list Flight) : list Flight :=
  (λ f, match f with
        | Mutating q true => if kind q then Mutating q false else f
        | _ => f
        end) <$> l.

(** The mutations in flight whose request is of one kind. *)
Definition mutating (kind : Request → bool) (f : Flight) : bool :=
  match f with Mutating q _ => kind q | _ => false end.

(** Those that their hook no longer observes. *)
Definition unobserved (kind : Request → bool) (f : Flight) : bool :=
  match f with Mutating q false => kind q | _ => false end.

Definition count (p : Flight → bool) (l : list Flight) : nat :=
  length (filter (λ f, p f = true) l).

(** The calls of [checkAuth] and of [retry]. *)
Definition checking (f : Flight) : bool :=
  match f with CheckingSession | SigningIn => true | _ => false end.

Definition retrying (f : Flight) : bool :=
  match f with RetryingSession => true | _ => false end.

(** How a mutation function leaves its synchronous part: it returned, it
    threw, or it is waiting for the platform. *)
Inductive Started :=
| Resolved
| Rejected (message : string)
| Awaiting (q : Request).

Inductive Reply := Done | Failed (message : string).

(** [e?.message || fallback] *)
Definition message_or (message fallback : string) : string :=
  if decide (message = "") then fallback else message.

End Wire.

(** ** The fetch/cache library, as far as fetches and retries go *)
Module ReactQuery.

(** The client is created by [new QueryClient()] without default options.
    The library then retries a failed query three times; a mutation, which
    the sources never give a retry option, runs its function once. *)
Definition defaultQueryRetry : nat := 3.

(** The retryer's decision after a failure, from the configured number of
    retries and the failures before this one. *)
Definition shouldRetry (retry : nat) (failureCount : nat) : bool :=
  bool_decide (failureCount < retry).

(** What an observer sees of a query. *)
Record QueryState (A : Type) := {
  data : option A;
  isError : bool;
  failureCount : nat
}.
Arguments data {A} _.
Arguments isError {A} _.
Arguments failureCount {A} _.

Definition idle {A} : QueryState A :=
  {| data := None; isError := false; failureCount := 0 |}.

Definition succeeded {A} (a : A) : QueryState A :=
  {| data := Some a; isError := false; failureCount := 0 |}.

Definition failed_again {A} (q : QueryState A) (terminal : bool) : QueryState A :=
  {| data := data q; isError := terminal || isError q;
     failureCount := S (failureCount q) |}.

(** A new fetch starts: the failures are counted from zero, and a query
    without data goes back to its loading state. *)
Definition restarted {A} (q : QueryState A) : QueryState A :=
  {| data := data q; isError := bool_decide (is_Some (data q)) && isError q;
     failureCount := 0 |}.

(** [isLoading]: a first fetch is running. *)
Definition isLoading {A} (q : QueryState A) (fetching : bool) : bool :=
  negb (bool_decide (is_Some (data q))) && negb (isError q) && fetching.

End ReactQuery.

(** ** hooks/useOwner *)
Module UseOwner.
Import Js Supabase Wire.

Record Owner := {
  userId : option jsstring;
  isLoading : bool;
  error : option string
}.

Global Instance Owner_eq_dec : EqDecision Owner.
Proof. solve_decision. Defined.

(** Truthiness of [error : string | null]: set and not the empty string. *)
Definition has_error (o : Owner) : bool :=
  match error o with
  | Some m => negb (bool_decide (m = ""))
  | None => false
  end.

(** [retry]: clears the error, shows the loading state and asks for the
    session once. *)
Definition retry (o : Owner) : Owner * list Request :=
  ({| userId := userId o; isLoading := true; error := None |}, [GetSession]).

(** The [finally] of that request. *)
Definition retry_settled (o : Owner) : Owner :=
  {| userId := userId o; isLoading := false; error := error o |}.

(** The state variables as [useState] creates them. *)
Definition initial : Owner :=
  {| userId := None; isLoading := true; error := None |}.

(** The calls [checkAuth] makes to the auth service. *)
Inductive AuthCall := CallGetSession | CallSignInAnonymously.

(** What [getSession] does: it throws, or returns the id of the session's
    user when there is one. Its [error] is only logged. *)
Inductive SessionReply :=
| SessionThrew (message : option string)
| SessionReturned (user : option jsstring).

(** What [signInAnonymously] does. *)
Inductive SignInReply :=
| SignInThrew (message : option string)
| SignInReturned (user : option jsstring) (signInError : option string).

(** [e?.message ?? "Authentication failed"] *)
Definition thrown_message (message : option string) : string :=
  default "Authentication failed" message.

(** [checkAuth], run to its end. [mounted] is the flag as the last reply
    finds it; the sign-in reply is looked at only when the call is made. *)
Definition checkAuth (mounted : bool) (session : SessionReply)
    (signIn : SignInReply) (o : Owner) : Owner * list AuthCall :=
  let started := {| userId := userId o; isLoading := true; error := None |} in
  let settled (user : option jsstring) (err : option string) : Owner :=
    if mounted
    then {| userId := user; isLoading := false; error := err |}
    else started in
  match session with
  | SessionThrew m =>
      (settled (userId o) (Some (thrown_message m)), [CallGetSession])
  | SessionReturned (Some u) =>
      (settled (Some u) None, [CallGetSession])
  | SessionReturned None =>
      (match signIn with
       | SignInThrew m => settled (userId o) (Some (thrown_message m))
       | SignInReturned _ (Some m) => settled (userId o) (Some m)
       | SignInReturned (Some u) None => settled (Some u) None
       | SignInReturned None None => settled (userId o) None
       end, [CallGetSession; CallSignInAnonymously])
  end.

(** [checkAuth] in the steps the replies drive, for a mounted hook. Up to
    the first [await]: *)
Definition checkAuth_started (o : Owner) : Owner :=
  {| userId := userId o; isLoading := true; error := None |}.

(** From the session's answer to the next [await] or the end; the flag
    tells whether [signInAnonymously] is called. *)
Definition checkAuth_session (r : SessionReply) (o : Owner) : Owner * bool :=
  match r with
  | SessionThrew m =>
      ({| userId := userId o; isLoading := false;
          error := Some (thrown_message m) |}, false)
  | SessionReturned (Some u) =>
      ({| userId := Some u; isLoading := false; error := error o |}, false)
  | SessionReturned None => (o, true)
  end.

(** From the answer of [signInAnonymously] to the end. *)
Definition checkAuth_signIn (r : SignInReply) (o : Owner) : Owner :=
  match r with
  | SignInThrew m =>
      {| userId := userId o; isLoading := false; error := Some (thrown_message m) |}
  | SignInReturned _ (Some m) =>
      {| userId := userId o; isLoading := false; error := Some m |}
  | SignInReturned (Some u) None =>
      {| userId := Some u; isLoading := false; error := error o |}
  | SignInReturned None None =>
      {| userId := userId o; isLoading := false; error := error o |}
  end.

(** The listener given to [onAuthStateChange]. *)
Definition authStateChanged (u : option jsstring) (o : Owner) : Owner :=
  {| userId := u; isLoading := isLoading o; error := error o |}.

(** What reaches a mounted hook from outside. *)
Inductive AuthEvent :=
| SessionReplied (r : SessionReply)
| SignInReplied (r : SignInReply)
| AuthStateChanged (u : option jsstring)
| RetrySettled.

(** Answers that report a failure. *)
Definition auth_failure (e : AuthEvent) : bool :=
  match e with
  | SessionReplied (SessionThrew _) => true
  | SignInReplied (SignInThrew _) | SignInReplied (SignInReturned _ (Some _)) => true
  | _ => false
  end.

(** The hook's state, the requests in flight and the requests sent. *)
Definition auth (e : AuthEvent) (o : Owner) (l : list Flight)
    : option (Owner * list Flight * list Request) :=
  match e with
  | SessionReplied r =>
      l' ← answered CheckingSession l;
      let '(o', signIn) := checkAuth_session r o in
      Some (if signIn
            then (o', l' ++ [SigningIn], [SignInAnonymously])
            else (o', l', []))
  | SignInReplied r =>
      l' ← answered SigningIn l; Some (checkAuth_signIn r o, l', [])
  | AuthStateChanged u => Some (authStateChanged u o, l, [])
  | RetrySettled =>
      l' ← answered RetryingSession l; Some (retry_settled o, l', [])
  end.

(** The retry button of the pages that show one. *)
Definition retry_clicked (o : Owner) (l : list Flight)
    : Owner * list Flight * list Request :=
  ((retry o).1, l ++ [RetryingSession], (retry o).2).

(** The hook as the first render leaves it: the effect has started
    [checkAuth]. *)
Definition mounted_owner : Owner := checkAuth_started initial.

(** [checkAuth] has one call in flight until it ends, and while it has,
    there is no error and no retry; a retry is in flight once at most,
    and not while an error is shown. *)
Definition auth_in_order (o : Owner) (l : list Flight) : Prop :=
  count checking l ≤ 1 ∧ count retrying l ≤ 1
  ∧ (0 < count checking l → error o = None ∧ count retrying l = 0)
  ∧ (has_error o = true → count retrying l = 0).

End UseOwner.

(** ** The create and edit forms *)
Module Forms.
Import Js Zod Validations Supabase.

(** The argument of both mutation functions. *)
Record PostData := {
  pd_title : jsstring;
  pd_content : jsstring;
  pd_image_url : option jsstring;
  pd_link_url : option jsstring;
  pd_flags : option (list jsstring)
}.

(** The state variables of a form that take part in a submission. *)
Record Form := {
  title : jsstring;
  content : jsstring;
  imageUrl : jsstring;
  linkUrl : jsstring;
  selectedFlags : list jsstring
}.

Global Instance Form_eq_dec : EqDecision Form.
Proof. solve_decision. Defined.

(** The [postData] both [handleSubmit]s build. *)
Definition postData (f : Form) : PostData :=
  {| pd_title := trim (title f);
     pd_content := trim (content f);
     pd_image_url := or_undefined (trim (imageUrl f));
     pd_link_url := or_undefined (trim (linkUrl f));
     pd_flags := Some (selectedFlags f) |}.

(** The object both mutation functions hand to [safeParse]. *)
Definition parsed_object (d : PostData) : PostFields :=
  {| f_title := JStr (pd_title d);
     f_content := JStr (pd_content d);
     f_image_url := or_null (pd_image_url d);
     f_link_url := or_null (pd_link_url d);
     f_flags := or_empty_array (pd_flags d) |}.

End Forms.

Module CreatePost.
Import Js Zod Validations Supabase Wire UseOwner Forms.

Section WithRuntime.
Context (isUrl : jsstring → bool) (platform : Platform).

(** [createPostMutation.mutationFn] *)
Definition mutationFn (userId : option jsstring) (d : PostData) : M Post :=
  match createPostSchema isUrl (parsed_object d) with
  | Failure issues => throw (ValidationError (errorMap issues))
  | Success data =>
      insert_post platform data (if truthy_opt userId then userId else None)
  end.

(** [handleSubmit]: the data handed to [mutate], or nothing when the
    handler returns early. *)
Definition handleSubmit (o : Owner) (f : Form) : option PostData :=
  if isLoading o then None
  else if has_error o then None
  else Some (postData f).

(** A whole submission: the handler, then the mutation it starts. *)
Definition submit (o : Owner) (f : Form) : M (option Post) :=
  match handleSubmit o f with
  | None => mret None
  | Some d => p ← mutationFn (userId o) d; mret (Some p)
  end.
End WithRuntime.

(** *** The page as a machine: the form, the [useOwner] hook and the
        create mutation, driven by handler calls and replies. The error
        texts the page shows are left out; they send nothing. *)
Record State := {
  form : Form;
  isSubmitting : bool;
  successMessage : bool;
  owner : Owner;
  inflight : list Flight
}.

Definition set_form v (s : State) : State :=
  {| form := v; isSubmitting := isSubmitting s; successMessage := successMessage s;
     owner := owner s; inflight := inflight s |}.
Definition set_isSubmitting v (s : State) : State :=
  {| form := form s; isSubmitting := v; successMessage := successMessage s;
     owner := owner s; inflight := inflight s |}.
Definition set_successMessage v (s : State) : State :=
  {| form := form s; isSubmitting := isSubmitting s; successMessage := v;
     owner := owner s; inflight := inflight s |}.
Definition set_owner v (s : State) : State :=
  {| form := form s; isSubmitting := isSubmitting s; successMessage := successMessage s;
     owner := v; inflight := inflight s |}.
Definition set_inflight v (s : State) : State :=
  {| form := form s; isSubmitting := isSubmitting s; successMessage := successMessage s;
     owner := owner s; inflight := v |}.

Definition Effect : Type := State * list Request.

Definition quiet (s : State) : Effect := (s, []).

Definition send (f : Flight) (q : Request) (s : State) : Effect :=
  (set_inflight (inflight s ++ [f]) s, [q]).

Definition is_insert (q : Request) : bool :=
  match q with InsertPost _ _ => true | _ => false end.

Inductive Event :=
| SetForm (f : Form)
| HandleSubmit
| Retry
| Auth (a : AuthEvent)
| InsertReplied (q : Request) (observed : bool) (r : string + Post).

Definition user_action (e : Event) : bool :=
  match e with SetForm _ | HandleSubmit | Retry => true | _ => false end.

Definition failure_reply (e : Event) : bool :=
  match e with
  | InsertReplied _ _ (inl _) => true
  | Auth a => auth_failure a
  | _ => false
  end.

(** [onError], as far as the form goes. *)
Definition onError (s : State) : State := set_isSubmitting false s.

(** [onSuccess]: neither of the queries it invalidates is mounted on this
    page; the feed is opened a moment later. *)
Definition onSuccess (s : State) : State := set_successMessage true s.

(** The submit button's [disabled], and whether the retry button is
    rendered. *)
Definition submit_disabled (s : State) : bool := isSubmitting s.

Definition retry_shown (s : State) : bool := has_error (owner s).

Section Page.
Context (isUrl : jsstring → bool).

(** [mutationFn] up to its [await]: the request it makes, unless the
    validation throws. *)
Definition started (userId : option jsstring) (d : PostData) : option Request :=
  match createPostSchema isUrl (parsed_object d) with
  | Failure _ => None
  | Success data => Some (InsertPost data (if truthy_opt userId then userId else None))
  end.

(** [handleSubmit] and the mutation it starts. *)
Definition submitted (s : State) : Effect :=
  match handleSubmit (owner s) (form s) with
  | None => quiet s
  | Some d =>
      let s := set_isSubmitting true s in
      let s := set_inflight (detached is_insert (inflight s)) s in
      match started (userId (owner s)) d with
      | None => quiet (onError s)
      | Some q => send (Mutating q true) q s
      end
  end.

Definition step (s : State) (e : Event) : option Effect :=
  match e with
  | SetForm f => Some (quiet (set_form f s))
  | HandleSubmit => Some (submitted s)
  | Retry =>
      let '(o, l, out) := retry_clicked (owner s) (inflight s) in
      Some (set_inflight l (set_owner o s), out)
  | Auth a =>
      '(o, l, out) ← auth a (owner s) (inflight s);
      Some (set_inflight l (set_owner o s), out)
  | InsertReplied q observed r =>
      if is_insert q
      then l ← answered (Mutating q observed) (inflight s);
           Some (quiet (match r with
                        | inr _ => onSuccess (set_inflight l s)
                        | inl _ => onError (set_inflight l s)
                        end))
      else None
  end.

Fixpoint run (s : State) (events : list Event) : option Effect :=
  match events with
  | [] => Some (quiet s)
  | e :: rest =>
      '(s1, out1) ← step s e;
      '(s2, out2) ← run s1 rest;
      Some (s2, out1 ++ out2)
  end.

(** The handlers are called by their buttons only: a submission finds the
    submit button enabled, a retry finds the retry button rendered. *)
Fixpoint by_button (s : State) (events : list Event) : bool :=
  match events with
  | [] => true
  | e :: rest =>
      match e with
      | HandleSubmit => negb (submit_disabled s)
      | Retry => retry_shown s
      | _ => true
      end
      && match step s e with
         | Some (s', _) => by_button s' rest
         | None => true
         end
  end.
End Page.

(** The page after its first render: [checkAuth] has asked for the
    session. *)
Definition mount : State :=
  {| form := {| title := []; content := []; imageUrl := []; linkUrl := [];
                selectedFlags := [] |};
     isSubmitting := false; successMessage := false;
     owner := mounted_owner; inflight := [CheckingSession] |}.

Definition outstanding (p : Flight → bool) (s : State) : nat :=
  count p (inflight s).

(** While the form is not submitting no insert is in flight, and there is
    never more than one. *)
Definition submit_in_order (s : State) : Prop :=
  (isSubmitting s = false → outstanding (mutating is_insert) s = 0)
  ∧ outstanding (mutating is_insert) s ≤ 1.

End CreatePost.

Module EditPost.
Import Js Zod Validations Supabase Wire ReactQuery UseOwner Forms.

Section WithRuntime.
Context (isUrl : jsstring → bool) (platform : Platform).

(** [updatePostMutation.mutationFn], for the post [id] of the route. *)
Definition mutationFn (id : jsstring) (d : PostData) : M unit :=
  match createPostSchema isUrl (parsed_object d) with
  | Failure issues => throw (ValidationError (errorMap issues))
  | Success data => update_post platform id data
  end.

(** [handleSubmit] has no guard: it always starts the mutation. *)
Definition handleSubmit (f : Form) : PostData := postData f.

Definition submit (id : jsstring) (f : Form) : M unit :=
  mutationFn id (handleSubmit f).
End WithRuntime.

(** The effect that fills the form once the post is loaded. *)
Definition prefill (post : Post) : Form :=
  {| title := Supabase.title post;
     content := Supabase.content post;
     imageUrl := default [] (image_url post);
     linkUrl := default [] (link_url post);
     selectedFlags := default [] (flags post) |}.

(** *** The page as a machine: the [useOwner] hook, the post query, the
        form, the update and delete mutations, driven by handler calls,
        renders and replies, until the page is left. The error texts the
        page shows are left out; they send nothing. *)

(** What a render reads from the fetch/cache library and gives to it:
    [post], [isLoading] and [error] of the query, its [enabled] option and
    the pending flag of the delete mutation. *)
Record View := {
  post : option Post;
  isLoading : bool;
  error : bool;
  enabled : bool;
  deletePostMutation_isPending : bool
}.

Record State := {
  id : jsstring;
  owner : Owner;
  form : Form;
  isSubmitting : bool;
  successMessage : bool;
  postQ : QueryState Post;
  deletePending : bool;
  view : View;
  inflight : list Flight;
  navigated : bool
}.

Definition set_owner v (s : State) : State :=
  {| id := id s; owner := v; form := form s; isSubmitting := isSubmitting s;
     successMessage := successMessage s; postQ := postQ s;
     deletePending := deletePending s; view := view s; inflight := inflight s;
     navigated := navigated s |}.
Definition set_form v (s : State) : State :=
  {| id := id s; owner := owner s; form := v; isSubmitting := isSubmitting s;
     successMessage := successMessage s; postQ := postQ s;
     deletePending := deletePending s; view := view s; inflight := inflight s;
     navigated := navigated s |}.
Definition set_isSubmitting v (s : State) : State :=
  {| id := id s; owner := owner s; form := form s; isSubmitting := v;
     successMessage := successMessage s; postQ := postQ s;
     deletePending := deletePending s; view := view s; inflight := inflight s;
     navigated := navigated s |}.
Definition set_successMessage v (s : State) : State :=
  {| id := id s; owner := owner s; form := form s; isSubmitting := isSubmitting s;
     successMessage := v; postQ := postQ s;
     deletePending := deletePending s; view := view s; inflight := inflight s;
     navigated := navigated s |}.
Definition set_postQ v (s : State) : State :=
  {| id := id s; owner := owner s; form := form s; isSubmitting := isSubmitting s;
     successMessage := successMessage s; postQ := v;
     deletePending := deletePending s; view := view s; inflight := inflight s;
     navigated := navigated s |}.
Definition set_deletePending v (s : State) : State :=
  {| id := id s; owner := owner s; form := form s; isSubmitting := isSubmitting s;
     successMessage := successMessage s; postQ := postQ s;
     deletePending := v; view := view s; inflight := inflight s;
     navigated := navigated s |}.
Definition set_view v (s : State) : State :=
  {| id := id s; owner := owner s; form := form s; isSubmitting := isSubmitting s;
     successMessage := successMessage s; postQ := postQ s;
     deletePending := deletePending s; view := v; inflight := inflight s;
     navigated := navigated s |}.
Definition set_inflight v (s : State) : State :=
  {| id := id s; owner := owner s; form := form s; isSubmitting := isSubmitting s;
     successMessage := successMessage s; postQ := postQ s;
     deletePending := deletePending s; view := view s; inflight := v;
     navigated := navigated s |}.
Definition set_navigated v (s : State) : State :=
  {| id := id s; owner := owner s; form := form s; isSubmitting := isSubmitting s;
     successMessage := successMessage s; postQ := postQ s;
     deletePending := deletePending s; view := view s; inflight := inflight s;
     navigated := v |}.

Definition Effect : Type := State * list Request.

Definition quiet (s : State) : Effect := (s, []).

Definition send (f : Flight) (q : Request) (s : State) : Effect :=
  (set_inflight (inflight s ++ [f]) s, [q]).

Definition is_update (q : Request) : bool :=
  match q with UpdatePost _ _ => true | _ => false end.

Definition is_delete (q : Request) : bool :=
  match q with DeletePost _ => true | _ => false end.

(** The post query has no [retry] option. *)
Definition post_retry : nat := defaultQueryRetry.

(** *** Rendering *)

Definition fetching (s : State) : bool :=
  bool_decide (Fetching (SelectPost (id s)) true ∈ inflight s).

(** [enabled: !!id && !!userId] *)
Definition enabled_now (s : State) : bool :=
  truthy (id s) && truthy_opt (userId (owner s)).

Definition render (s : State) : View :=
  {| post := data (postQ s);
     isLoading := ReactQuery.isLoading (postQ s) (fetching s);
     error := isError (postQ s);
     enabled := enabled_now s;
     deletePostMutation_isPending := deletePending s |}.

(** A render and its effects: a query that this render enables is
    fetched, unless a fetch of it is running, and the effect that depends
    on [post] fills the form when the post is another one than at the
    render before. *)
Definition rendered (s : State) : Effect :=
  let q := SelectPost (id s) in
  let '(s1, out) :=
    if enabled_now s && negb (enabled (view s)) && negb (fetching s)
    then send (Fetching q true) q (set_postQ (restarted (postQ s)) s)
    else quiet s in
  let s2 := set_view (render s1) s1 in
  (match data (postQ s) with
   | Some p => if decide (post (view s) = Some p) then s2 else set_form (prefill p) s2
   | None => s2
   end, out).

(** The component's own state. *)
Definition local (s : State) : Owner * Form * bool * bool :=
  (owner s, form s, isSubmitting s, successMessage s).

(** After an event: the component renders again when its own state has
    changed. *)
Definition flush (before : State) (after : Effect) : Effect :=
  if decide (local after.1 = local before) then after
  else ((rendered after.1).1, after.2 ++ (rendered after.1).2).

(** [invalidateQueries] on the post query, which is refetched when the
    last render left it enabled. *)
Definition invalidate_post (s : State) : Effect :=
  let q := SelectPost (id s) in
  if enabled (view s)
  then if fetching s && negb (bool_decide (is_Some (data (postQ s))))
       then quiet s
       else send (Fetching q true) q
              (set_postQ (restarted (postQ s))
                 (set_inflight (cancelled q (inflight s)) s))
  else quiet s.

Definition post_replied (r : string + Post) (s : State) : Effect :=
  match r with
  | inr p => quiet (set_postQ (succeeded p) s)
  | inl _ =>
      if shouldRetry post_retry (failureCount (postQ s))
      then send (Fetching (SelectPost (id s)) true) (SelectPost (id s))
             (set_postQ (failed_again (postQ s) false) s)
      else quiet (set_postQ (failed_again (postQ s) true) s)
  end.

(** *** Update *)

(** [onSuccess]: the post query is invalidated, with the feed's queries,
    none of which is mounted here; the post page is opened a moment
    later. *)
Definition update_onSuccess (s : State) : Effect :=
  invalidate_post (set_successMessage true s).

Definition update_onError (s : State) : State := set_isSubmitting false s.

(** *** Delete *)

(** [onSuccess] invalidates the feed's queries and opens the feed. *)
Definition delete_onSuccess (s : State) : Effect := quiet (set_navigated true s).

(** [confirmed] is the answer to [window.confirm]. *)
Definition handleDelete (confirmed : bool) (s : State) : Effect :=
  if confirmed
  then
    let q := DeletePost (id s) in
    send (Mutating q true) q
      (set_deletePending true (set_inflight (detached is_delete (inflight s)) s))
  else quiet s.

Definition delete_settled (observed : bool) (s : State) : State :=
  if observed then set_deletePending false s else s.

(** *** What the page shows *)

(** The form is shown when the post is loaded and is the user's own. *)
Definition shows_form (s : State) : bool :=
  negb (isLoading (view s)) && negb (error (view s))
  && match post (view s) with
     | Some p => bool_decide (Some (user_id p) = userId (owner s))
     | None => false
     end.

(** The buttons: not rendered, or rendered with their [disabled]. *)
Definition submit_button (s : State) : option bool :=
  if shows_form s then Some (isSubmitting s) else None.

Definition delete_button (s : State) : option bool :=
  if shows_form s then Some (deletePostMutation_isPending (view s)) else None.

Inductive Event :=
| Render
| SetForm (f : Form)
| HandleSubmit
| HandleDelete (confirmed : bool)
| Auth (a : AuthEvent)
| PostReplied (live : bool) (r : string + Post)
| UpdateReplied (q : Request) (observed : bool) (r : Reply)
| DeleteReplied (observed : bool) (r : Reply).

Definition user_action (e : Event) : bool :=
  match e with SetForm _ | HandleSubmit | HandleDelete _ => true | _ => false end.

Definition failure_reply (e : Event) : bool :=
  match e with
  | PostReplied _ (inl _) => true
  | UpdateReplied _ _ (Failed _) | DeleteReplied _ (Failed _) => true
  | Auth a => auth_failure a
  | _ => false
  end.

Definition receive (f : Flight) (s : State) : option State :=
  l ← answered f (inflight s); Some (set_inflight l s).

Section Page.
Context (isUrl : jsstring → bool).

(** [mutationFn] up to its [await]: the request it makes, unless the
    validation throws. *)
Definition started (id : jsstring) (d : PostData) : option Request :=
  match createPostSchema isUrl (parsed_object d) with
  | Failure _ => None
  | Success data => Some (UpdatePost id data)
  end.

(** [handleSubmit] and the mutation it starts. *)
Definition submitted (s : State) : Effect :=
  let d := handleSubmit (form s) in
  let s := set_isSubmitting true s in
  let s := set_inflight (detached is_update (inflight s)) s in
  match started (id s) d with
  | None => quiet (update_onError s)
  | Some q => send (Mutating q true) q s
  end.

(** What one event does, before the render it may cause. *)
Definition event (s : State) (e : Event) : option Effect :=
  match e with
  | Render => Some (rendered s)
  | SetForm f => Some (quiet (set_form f s))
  | HandleSubmit => Some (submitted s)
  | HandleDelete confirmed => Some (handleDelete confirmed s)
  | Auth a =>
      '(o, l, out) ← auth a (owner s) (inflight s);
      Some (set_inflight l (set_owner o s), out)
  | PostReplied live r =>
      s' ← receive (Fetching (SelectPost (id s)) live) s;
      Some (if live then post_replied r s' else quiet s')
  | UpdateReplied q observed r =>
      if is_update q
      then s' ← receive (Mutating q observed) s;
           Some (match r with
                 | Done => update_onSuccess s'
                 | Failed _ => quiet (update_onError s')
                 end)
      else None
  | DeleteReplied observed r =>
      s' ← receive (Mutating (DeletePost (id s)) observed) s;
      Some (match r with
            | Done => delete_onSuccess (delete_settled observed s')
            | Failed _ => quiet (delete_settled observed s')
            end)
  end.

Definition step (s : State) (e : Event) : option Effect :=
  if navigated s then None
  else eff ← event s e; Some (flush s eff).

Fixpoint run (s : State) (events : list Event) : option Effect :=
  match events with
  | [] => Some (quiet s)
  | e :: rest =>
      '(s1, out1) ← step s e;
      '(s2, out2) ← run s1 rest;
      Some (s2, out1 ++ out2)
  end.

(** The handlers are called by their buttons only: each call finds its
    button rendered and enabled. *)
Fixpoint by_button (s : State) (events : list Event) : bool :=
  match events with
  | [] => true
  | e :: rest =>
      match e with
      | HandleSubmit => bool_decide (submit_button s = Some false)
      | HandleDelete _ => bool_decide (delete_button s = Some false)
      | _ => true
      end
      && match step s e with
         | Some (s', _) => by_button s' rest
         | None => true
         end
  end.
End Page.

Definition calls_delete (e : Event) : bool :=
  match e with HandleDelete _ => true | _ => false end.

(** Whether the delete handler has been called since the last render,
    after one more event. *)
Definition since_render (since : bool) (e : Event) : bool :=
  match e with
  | Render => false
  | _ => calls_delete e || since
  end.

(** No two calls of the delete handler without a render between them. *)
Fixpoint apart (since : bool) (events : list Event) : bool :=
  match events with
  | [] => true
  | e :: rest => negb (calls_delete e && since) && apart (since_render since e) rest
  end.

(** The page after its first render: [checkAuth] has asked for the
    session; the query is disabled, there is no user id yet. *)
Definition mount (id : jsstring) : State :=
  {| id := id; owner := mounted_owner;
     form := {| title := []; content := []; imageUrl := []; linkUrl := [];
                selectedFlags := [] |};
     isSubmitting := false; successMessage := false; postQ := idle;
     deletePending := false;
     view := {| post := None; isLoading := false; error := false; enabled := false;
                deletePostMutation_isPending := false |};
     inflight := [CheckingSession]; navigated := false |}.

Definition outstanding (kind : Request → bool) (s : State) : nat :=
  count (mutating kind) (inflight s).

(** The last render gave the query the [enabled] the state asks for. *)
Definition enabled_in_order (s : State) : Prop :=
  enabled (view s) = enabled_now s.

(** While the form is not submitting no update is in flight, and there is
    never more than one. *)
Definition submit_in_order (s : State) : Prop :=
  (isSubmitting s = false → outstanding is_update s = 0)
  ∧ outstanding is_update s ≤ 1.

(** The pending flag of the delete mutation stands for exactly one delete
    in flight, which the hook observes, and a render that no call of the
    handler has followed shows the flag when it is set. *)
Definition delete_in_order (since : bool) (s : State) : Prop :=
  outstanding is_delete s = (if deletePending s then 1 else 0)
  ∧ count (unobserved is_delete) (inflight s) = 0
  ∧ (since = false → deletePending s = true
     → deletePostMutation_isPending (view s) = true).

End EditPost.

(** ** Tag selection *)
Module FlagSelector.
Import Js.

(** [toggleFlag]: the argument passed to [onFlagsChange], or nothing
    when the selector is disabled and the callback is not called. *)
Definition toggleFlag (disabled : bool) (selectedFlags : list jsstring)
    (flagValue : jsstring) : option (list jsstring) :=
  if disabled then None
  else if bool_decide (flagValue ∈ selectedFlags)
  then Some (filter (λ flag, flag ≠ flagValue) selectedFlags)
  else Some (selectedFlags ++ [flagValue]).

(** The parent passes its state setter as [onFlagsChange]: the selection
    after one click. *)
Definition clicked (disabled : bool) (selectedFlags : list jsstring)
    (flagValue : jsstring) : list jsstring :=
  match toggleFlag disabled selectedFlags flagValue with
  | Some l => l
  | None => selectedFlags
  end.

(** An entry of [AVAILABLE_FLAGS]. *)
Record Flag := {
  value : jsstring;
  label : string;
  color : string
}.

Definition AVAILABLE_FLAGS : list Flag :=
  [ {| value := lit "recipe"; label := "🍽️ Recipe";
       color := "bg-green-100 text-green-800 dark:bg-green-900 dark:text-green-200" |};
    {| value := lit "tip"; label := "💡 Tip";
       color := "bg-blue-100 text-blue-800 dark:bg-blue-900 dark:text-blue-200" |};
    {| value := lit "question"; label := "❓ Question";
       color := "bg-yellow-100 text-yellow-800 dark:bg-yellow-900 dark:text-yellow-200" |};
    {| value := lit "review"; label := "⭐ Review";
       color := "bg-purple-100 text-purple-800 dark:bg-purple-900 dark:text-purple-200" |};
    {| value := lit "beginner"; label := "🌱 Beginner";
       color := "bg-pink-100 text-pink-800 dark:bg-pink-900 dark:text-pink-200" |} ].

(** The selector renders one button per entry, and a button toggles the
    value of its entry. A click is that value together with the
    [disabled] prop at the time; [clicks] is the selection after a series
    of them. *)
Definition clicks (cs : list (bool * jsstring)) (selectedFlags : list jsstring)
    : list jsstring :=
  foldl (λ sel c, clicked c.1 sel c.2) selectedFlags cs.

End FlagSelector.

Module FilterChips.
Import Js.

(** [toggleFilter]: the argument passed to [onFiltersChange]. *)
Definition toggleFilter (selectedFilters : list jsstring) (flagValue : jsstring)
    : list jsstring :=
  if bool_decide (flagValue ∈ selectedFilters)
  then filter (λ f, f ≠ flagValue) selectedFilters
  else selectedFilters ++ [flagValue].

(** [clearAllFilters]: the argument passed to [onFiltersChange]. *)
Definition clearAllFilters : list jsstring := [].

End FilterChips.

(** ** components/FlagDisplay *)
Module FlagDisplay.
Import Js FlagSelector.

Inductive Size := sm | md.

(** A rendered [span]. *)
Record Chip := {
  key : jsstring;
  className : string;
  text : string
}.

Definition sizeClasses (size : Size) : string :=
  match size with
  | sm => "px-2 py-1 text-xs"
  | md => "px-3 py-1 text-sm"
  end.

(** [AVAILABLE_FLAGS.find((f) => f.value === flagValue)] *)
Definition find_flag (flagValue : jsstring) : option Flag :=
  List.find (λ f, bool_decide (value f = flagValue)) AVAILABLE_FLAGS.

(** The callback of [flags.map]: the [span] of a flag, or [null] when the
    flag is not in the table. *)
Definition child (size : Size) (flagValue : jsstring) : option Chip :=
  match find_flag flagValue with
  | None => None
  | Some flag =>
      Some {| key := flagValue;
              className := color flag +:+ " " +:+ sizeClasses size
                           +:+ " rounded-full font-medium";
              text := label flag |}
  end.

(** The component: [null] without flags, otherwise one child per flag. *)
Definition FlagDisplay (flags : option (list jsstring)) (size : Size)
    : option (list (option Chip)) :=
  match flags with
  | None | Some [] => None
  | Some l => Some (child size <$> l)
  end.

End FlagDisplay.

(** ** The feed *)
Module Feed.
Import Js Supabase Wire ReactQuery.

Inductive SortBy := newest | oldest | most_upvoted.

Inductive Column := col_created_at | col_upvotes.

(** The filters the query builder can carry. *)
Inductive Filter :=
| OrIlikeTitleContent (term : jsstring)
| ContainsFlags (tags : list jsstring).

(** A select on the posts table as the builder accumulates it. *)
Record Query := {
  filters : list Filter;
  ordering : option (Column * bool)
}.

Definition select_all : Query := {| filters := []; ordering := None |}.

Definition with_filter (f : Filter) (q : Query) : Query :=
  {| filters := filters q ++ [f]; ordering := ordering q |}.

Definition order (c : Column) (ascending : bool) (q : Query) : Query :=
  {| filters := filters q; ordering := Some (c, ascending) |}.

(** The query [queryFn] builds from the state of the feed. *)
Definition queryFn (searchTerm : jsstring) (sortBy : SortBy)
    (selectedFilters : list jsstring) : Query :=
  let query := select_all in
  let query :=
    if truthy searchTerm then with_filter (OrIlikeTitleContent searchTerm) query
    else query in
  let query :=
    if bool_decide (0 < length selectedFilters)
    then with_filter (ContainsFlags selectedFilters) query
    else query in
  match sortBy with
  | newest => order col_created_at false query
  | oldest => order col_created_at true query
  | most_upvoted => order col_upvotes false query
  end.

(** [toggleFilter]: the updater handed to [setSelectedFilters]. *)
Definition toggleFilter (filterValue : jsstring) (prev : list jsstring)
    : list jsstring :=
  if bool_decide (filterValue ∈ prev)
  then filter (λ f, f ≠ filterValue) prev
  else prev ++ [filterValue].

(** The [Clear filters] button: the new search term and filter list. *)
Definition clearFilters : jsstring * list jsstring := ([], []).

(** How the platform answers a select. Pattern matching of [ilike] and
    the order of timestamps are the database's. *)
Section Platform.
Context (ilike : jsstring → jsstring → bool).
Context (timestamp_le : jsstring → jsstring → bool).

(** The pattern [%term%] against one column. *)
Definition matches (term : jsstring) (column : jsstring) : bool :=
  ilike (lit "%" ++ term ++ lit "%") column.

Definition satisfies (p : Post) (f : Filter) : bool :=
  match f with
  | OrIlikeTitleContent term => matches term (title p) || matches term (content p)
  | ContainsFlags tags =>
      bool_decide (Forall (λ t, t ∈ default [] (flags p)) tags)
  end.

Definition row_le (c : Column) (ascending : bool) (a b : Post) : Prop :=
  match c, ascending with
  | col_created_at, true => timestamp_le (created_at a) (created_at b) = true
  | col_created_at, false => timestamp_le (created_at b) (created_at a) = true
  | col_upvotes, true => (upvotes a ≤ upvotes b)%Z
  | col_upvotes, false => (upvotes b ≤ upvotes a)%Z
  end.

Global Instance row_le_dec c asc a b : Decision (row_le c asc a b).
Proof. destruct c, asc; simpl; apply _. Defined.

(** The rows a query returns from a table. *)
Definition answer (q : Query) (table : list Post) : list Post :=
  let rows := filter (λ p, forallb (satisfies p) (filters q) = true) table in
  match ordering q with
  | Some (c, asc) => merge_sort (row_le c asc) rows
  | None => rows
  end.
End Platform.

(** *** The page as a machine: the inputs, the [useOwner] hook and the
        posts query, whose key is made of the three inputs, driven by
        input changes and replies. *)

Global Instance SortBy_eq_dec : EqDecision SortBy.
Proof. solve_decision. Defined.

(** [queryKey] without its constant head: the search term, the sort order
    and the selected filters. *)
Definition Key : Type := jsstring * SortBy * list jsstring.

(** The select [queryFn] makes for a key. *)
Definition query_of (k : Key) : Query := queryFn k.1.1 k.1.2 k.2.

(** What the page sends: a select on the posts table or a call of the
    hook. *)
Inductive Sent :=
| SelectPosts (q : Query)
| OwnerCall (q : Request).

(** [cache] holds the query of every key; [fetching] lists the keys whose
    fetch is running. *)
Record State := {
  searchTerm : jsstring;
  sortBy : SortBy;
  selectedFilters : list jsstring;
  owner : UseOwner.Owner;
  cache : Key → QueryState (list Post);
  fetching : list Key;
  inflight : list Flight
}.

Definition key (s : State) : Key := (searchTerm s, sortBy s, selectedFilters s).

Definition set_key (k : Key) (s : State) : State :=
  {| searchTerm := k.1.1; sortBy := k.1.2; selectedFilters := k.2;
     owner := owner s; cache := cache s; fetching := fetching s;
     inflight := inflight s |}.
Definition set_owner v (s : State) : State :=
  {| searchTerm := searchTerm s; sortBy := sortBy s;
     selectedFilters := selectedFilters s;
     owner := v; cache := cache s; fetching := fetching s;
     inflight := inflight s |}.
Definition set_cache v (s : State) : State :=
  {| searchTerm := searchTerm s; sortBy := sortBy s;
     selectedFilters := selectedFilters s;
     owner := owner s; cache := v; fetching := fetching s;
     inflight := inflight s |}.
Definition set_fetching v (s : State) : State :=
  {| searchTerm := searchTerm s; sortBy := sortBy s;
     selectedFilters := selectedFilters s;
     owner := owner s; cache := cache s; fetching := v;
     inflight := inflight s |}.
Definition set_inflight v (s : State) : State :=
  {| searchTerm := searchTerm s; sortBy := sortBy s;
     selectedFilters := selectedFilters s;
     owner := owner s; cache := cache s; fetching := fetching s;
     inflight := v |}.

(** The cache with the query of one key replaced. *)
Definition stored (k : Key) (q : QueryState (list Post))
    (c : Key → QueryState (list Post)) : Key → QueryState (list Post) :=
  λ k', if decide (k' = k) then q else c k'.

Definition Effect : Type := State * list Sent.

Definition quiet (s : State) : Effect := (s, []).

(** A fetch of the query of [k] starts, with the state [q] of the query. *)
Definition fetch (k : Key) (q : QueryState (list Post)) (s : State) : Effect :=
  (set_fetching (fetching s ++ [k]) (set_cache (stored k q (cache s)) s),
   [SelectPosts (query_of k)]).

(** The query has no [retry] option. *)
Definition posts_retry : nat := defaultQueryRetry.

(** The inputs have changed to [k]: the page observes the query of [k].
    The query is always enabled and never fresh, so it is fetched, unless
    a fetch of it is running. A fetch for the key before goes on. *)
Definition observe (k : Key) (s : State) : Effect :=
  if decide (k = key s) then quiet s
  else
    let s := set_key k s in
    if bool_decide (k ∈ fetching s) then quiet s
    else fetch k (restarted (cache s k)) s.

(** The key of the first fetch in [l] that is answered. *)
Fixpoint finished (k : Key) (l : list Key) : option (list Key) :=
  match l with
  | [] => None
  | x :: l' => if decide (x = k) then Some l' else (x ::.) <$> finished k l'
  end.

(** The answer to the fetch of [k]. A failure is retried while the page
    observes the query of [k]; the library does not retry a query that
    nothing observes. *)
Definition posts_replied (k : Key) (r : string + list Post) (s : State) : Effect :=
  match r with
  | inr rows => quiet (set_cache (stored k (succeeded rows) (cache s)) s)
  | inl _ =>
      if bool_decide (k = key s) && shouldRetry posts_retry (failureCount (cache s k))
      then fetch k (failed_again (cache s k) false) s
      else quiet (set_cache (stored k (failed_again (cache s k) true) (cache s)) s)
  end.

Inductive Event :=
| SetSearchTerm (text : jsstring)
| SetSortBy (v : SortBy)
| ToggleFilter (filterValue : jsstring)
| ClearFilters
| Retry
| Auth (a : UseOwner.AuthEvent)
| PostsReplied (k : Key) (r : string + list Post).

Definition user_action (e : Event) : bool :=
  match e with
  | SetSearchTerm _ | SetSortBy _ | ToggleFilter _ | ClearFilters | Retry => true
  | _ => false
  end.

Definition failure_reply (e : Event) : bool :=
  match e with
  | PostsReplied _ (inl _) => true
  | Auth a => UseOwner.auth_failure a
  | _ => false
  end.

(** Whether the retry button is rendered. *)
Definition retry_shown (s : State) : bool := UseOwner.has_error (owner s).

Definition owner_calls (l : list Request) : list Sent := OwnerCall <$> l.

Definition step (s : State) (e : Event) : option Effect :=
  match e with
  | SetSearchTerm text => Some (observe (text, sortBy s, selectedFilters s) s)
  | SetSortBy v => Some (observe (searchTerm s, v, selectedFilters s) s)
  | ToggleFilter v =>
      Some (observe (searchTerm s, sortBy s, toggleFilter v (selectedFilters s)) s)
  | ClearFilters => Some (observe (clearFilters.1, sortBy s, clearFilters.2) s)
  | Retry =>
      let '(o, l, out) := UseOwner.retry_clicked (owner s) (inflight s) in
      Some (set_inflight l (set_owner o s), owner_calls out)
  | Auth a =>
      '(o, l, out) ← UseOwner.auth a (owner s) (inflight s);
      Some (set_inflight l (set_owner o s), owner_calls out)
  | PostsReplied k r =>
      l ← finished k (fetching s);
      Some (posts_replied k r (set_fetching l s))
  end.

Fixpoint run (s : State) (events : list Event) : option Effect :=
  match events with
  | [] => Some (quiet s)
  | e :: rest =>
      '(s1, out1) ← step s e;
      '(s2, out2) ← run s1 rest;
      Some (s2, out1 ++ out2)
  end.

(** The retry handler is called by its button only. *)
Fixpoint by_button (s : State) (events : list Event) : bool :=
  match events with
  | [] => true
  | e :: rest =>
      match e with Retry => retry_shown s | _ => true end
      && match step s e with
         | Some (s', _) => by_button s' rest
         | None => true
         end
  end.

(** The page after its first render: [checkAuth] has asked for the
    session and the query of the first key is being fetched. *)
Definition mount : State :=
  {| searchTerm := []; sortBy := newest; selectedFilters := [];
     owner := UseOwner.mounted_owner; cache := λ _, idle;
     fetching := [([], newest, [])]; inflight := [CheckingSession] |}.

End Feed.

(** ** The post page: the [useOwner] hook, the post and comments queries,
       the upvote, comment and delete mutations, as a machine driven by
       handler calls, renders and replies. It describes the page from its
       first render until it is left. *)
Module PostPage.
Import Js Supabase Wire ReactQuery.

(** What a render reads from the fetch/cache library. The handlers and the
    mutation functions are closures of the last render: they see these
    values, not the library's current ones. *)
Record View := {
  post : option Post;
  postLoading : bool;
  postError : bool;
  upvoteMutation_isPending : bool;
  deletePostMutation_isPending : bool
}.

(** The component's own state ([owner] to [upvoteError]), the library's
    ([postQ] to [deletePending]), the last render, the requests in flight
    and whether the page has been left. A change of the component's own
    state is rendered before the next event; a change inside the library
    reaches the component when the library's notification re-renders it. *)
Record State := {
  id : jsstring;
  owner : UseOwner.Owner;
  newComment : jsstring;
  isSubmittingComment : bool;
  commentError : option string;
  upvoteError : option string;
  postQ : QueryState Post;
  commentsQ : QueryState (list Comment);
  upvotePending : bool;
  deletePending : bool;
  view : View;
  inflight : list Flight;
  navigated : bool
}.

Definition userId (s : State) : option jsstring := UseOwner.userId (owner s).

Definition set_owner v (s : State) : State :=
  {| id := id s; owner := v; newComment := newComment s;
     isSubmittingComment := isSubmittingComment s; commentError := commentError s;
     upvoteError := upvoteError s; postQ := postQ s; commentsQ := commentsQ s;
     upvotePending := upvotePending s; deletePending := deletePending s;
     view := view s; inflight := inflight s; navigated := navigated s |}.
Definition set_newComment v (s : State) : State :=
  {| id := id s; owner := owner s; newComment := v;
     isSubmittingComment := isSubmittingComment s; commentError := commentError s;
     upvoteError := upvoteError s; postQ := postQ s; commentsQ := commentsQ s;
     upvotePending := upvotePending s; deletePending := deletePending s;
     view := view s; inflight := inflight s; navigated := navigated s |}.
Definition set_isSubmittingComment v (s : State) : State :=
  {| id := id s; owner := owner s; newComment := newComment s;
     isSubmittingComment := v; commentError := commentError s;
     upvoteError := upvoteError s; postQ := postQ s; commentsQ := commentsQ s;
     upvotePending := upvotePending s; deletePending := deletePending s;
     view := view s; inflight := inflight s; navigated := navigated s |}.
Definition set_commentError v (s : State) : State :=
  {| id := id s; owner := owner s; newComment := newComment s;
     isSubmittingComment := isSubmittingComment s; commentError := v;
     upvoteError := upvoteError s; postQ := postQ s; commentsQ := commentsQ s;
     upvotePending := upvotePending s; deletePending := deletePending s;
     view := view s; inflight := inflight s; navigated := navigated s |}.
Definition set_upvoteError v (s : State) : State :=
  {| id := id s; owner := owner s; newComment := newComment s;
     isSubmittingComment := isSubmittingComment s; commentError := commentError s;
     upvoteError := v; postQ := postQ s; commentsQ := commentsQ s;
     upvotePending := upvotePending s; deletePending := deletePending s;
     view := view s; inflight := inflight s; navigated := navigated s |}.
Definition set_postQ v (s : State) : State :=
  {| id := id s; owner := owner s; newComment := newComment s;
     isSubmittingComment := isSubmittingComment s; commentError := commentError s;
     upvoteError := upvoteError s; postQ := v; commentsQ := commentsQ s;
     upvotePending := upvotePending s; deletePending := deletePending s;
     view := view s; inflight := inflight s; navigated := navigated s |}.
Definition set_commentsQ v (s : State) : State :=
  {| id := id s; owner := owner s; newComment := newComment s;
     isSubmittingComment := isSubmittingComment s; commentError := commentError s;
     upvoteError := upvoteError s; postQ := postQ s; commentsQ := v;
     upvotePending := upvotePending s; deletePending := deletePending s;
     view := view s; inflight := inflight s; navigated := navigated s |}.
Definition set_upvotePending v (s : State) : State :=
  {| id := id s; owner := owner s; newComment := newComment s;
     isSubmittingComment := isSubmittingComment s; commentError := commentError s;
     upvoteError := upvoteError s; postQ := postQ s; commentsQ := commentsQ s;
     upvotePending := v; deletePending := deletePending s;
     view := view s; inflight := inflight s; navigated := navigated s |}.
Definition set_deletePending v (s : State) : State :=
  {| id := id s; owner := owner s; newComment := newComment s;
     isSubmittingComment := isSubmittingComment s; commentError := commentError s;
     upvoteError := upvoteError s; postQ := postQ s; commentsQ := commentsQ s;
     upvotePending := upvotePending s; deletePending := v;
     view := view s; inflight := inflight s; navigated := navigated s |}.
Definition set_view v (s : State) : State :=
  {| id := id s; owner := owner s; newComment := newComment s;
     isSubmittingComment := isSubmittingComment s; commentError := commentError s;
     upvoteError := upvoteError s; postQ := postQ s; commentsQ := commentsQ s;
     upvotePending := upvotePending s; deletePending := deletePending s;
     view := v; inflight := inflight s; navigated := navigated s |}.
Definition set_inflight v (s : State) : State :=
  {| id := id s; owner := owner s; newComment := newComment s;
     isSubmittingComment := isSubmittingComment s; commentError := commentError s;
     upvoteError := upvoteError s; postQ := postQ s; commentsQ := commentsQ s;
     upvotePending := upvotePending s; deletePending := deletePending s;
     view := view s; inflight := v; navigated := navigated s |}.
Definition set_navigated v (s : State) : State :=
  {| id := id s; owner := owner s; newComment := newComment s;
     isSubmittingComment := isSubmittingComment s; commentError := commentError s;
     upvoteError := upvoteError s; postQ := postQ s; commentsQ := commentsQ s;
     upvotePending := upvotePending s; deletePending := deletePending s;
     view := view s; inflight := inflight s; navigated := v |}.

(** [setUserId] *)
Definition set_userId (u : option jsstring) (s : State) : State :=
  set_owner (UseOwner.authStateChanged u (owner s)) s.

(** *** Rendering *)

(** The values a render made now would read. *)
Definition render (s : State) : View :=
  {| post := data (postQ s);
     postLoading :=
       isLoading (postQ s) (bool_decide (Fetching (SelectPost (id s)) true ∈ inflight s));
     postError := isError (postQ s);
     upvoteMutation_isPending := upvotePending s;
     deletePostMutation_isPending := deletePending s |}.

Definition rendered (s : State) : State := set_view (render s) s.

(** The component's own state. *)
Definition local (s : State)
    : UseOwner.Owner * jsstring * bool * option string * option string :=
  (owner s, newComment s, isSubmittingComment s, commentError s, upvoteError s).

(** After an event: the component renders again when its own state has
    changed. *)
Definition flush (before after : State) : State :=
  if decide (local after = local before) then after else rendered after.

(** A handler's effect: the next state and the requests it sent. *)
Definition Effect : Type := State * list Request.

Definition quiet (s : State) : Effect := (s, []).

Definition send (f : Flight) (q : Request) (s : State) : Effect :=
  (set_inflight (inflight s ++ [f]) s, [q]).

(** *** Queries *)

(** The [retry] option of each query: [retry: 1] on the post query, none
    on the comments query. *)
Definition post_retry : nat := 1.
Definition comments_retry : nat := defaultQueryRetry.

(** [invalidateQueries] on the post query, which is enabled when the route
    has an id. A fetch is started; a fetch that is already running is
    cancelled first when the query has data, and is kept as it is, with no
    new one, when the query has none. *)
Definition invalidate_post (s : State) : Effect :=
  let q := SelectPost (id s) in
  if truthy (id s)
  then if bool_decide (Fetching q true ∈ inflight s)
          && negb (bool_decide (is_Some (data (postQ s))))
       then quiet s
       else send (Fetching q true) q
              (set_postQ (restarted (postQ s))
                 (set_inflight (cancelled q (inflight s)) s))
  else quiet s.

Definition invalidate_comments (s : State) : Effect :=
  let q := SelectComments (id s) in
  if truthy (id s)
  then if bool_decide (Fetching q true ∈ inflight s)
          && negb (bool_decide (is_Some (data (commentsQ s))))
       then quiet s
       else send (Fetching q true) q
              (set_commentsQ (restarted (commentsQ s))
                 (set_inflight (cancelled q (inflight s)) s))
  else quiet s.

(** The answer to the running fetch of the post query. *)
Definition post_replied (r : string + Post) (s : State) : Effect :=
  match r with
  | inr p => quiet (set_postQ (succeeded p) s)
  | inl _ =>
      if shouldRetry post_retry (failureCount (postQ s))
      then send (Fetching (SelectPost (id s)) true) (SelectPost (id s))
             (set_postQ (failed_again (postQ s) false) s)
      else quiet (set_postQ (failed_again (postQ s) true) s)
  end.

Definition comments_replied (r : string + list Comment) (s : State) : Effect :=
  match r with
  | inr l => quiet (set_commentsQ (succeeded l) s)
  | inl _ =>
      if shouldRetry comments_retry (failureCount (commentsQ s))
      then send (Fetching (SelectComments (id s)) true) (SelectComments (id s))
             (set_commentsQ (failed_again (commentsQ s) false) s)
      else quiet (set_commentsQ (failed_again (commentsQ s) true) s)
  end.

Definition is_comment_insert (q : Request) : bool :=
  match q with InsertComment _ _ _ => true | _ => false end.

Definition is_upvote (q : Request) : bool :=
  match q with RpcIncrementUpvotes _ => true | _ => false end.

Definition is_delete (q : Request) : bool :=
  match q with DeletePost _ => true | _ => false end.

(** *** Upvote *)
Definition upvote_mutationFn (s : State) : Started :=
  match post (view s) with
  | None => Resolved
  | Some p =>
      if truthy_opt (userId s)
      then Awaiting (RpcIncrementUpvotes (Supabase.id p))
      else Rejected "Not authenticated yet"
  end.

(** [onSuccess] invalidates the post query, which this page has mounted,
    and the feed's [posts] queries, none of which is mounted here. *)
Definition upvote_onSuccess (s : State) : Effect :=
  invalidate_post (set_upvoteError None s).

Definition upvote_onError (message : string) (s : State) : Effect :=
  quiet (set_upvoteError (Some (message_or message "Failed to upvote")) s).

Definition handleUpvote (s : State) : Effect :=
  if upvoteMutation_isPending (view s) || negb (bool_decide (is_Some (post (view s))))
  then quiet s
  else
    let s := set_inflight (detached is_upvote (inflight s)) s in
    match upvote_mutationFn s with
    | Resolved => upvote_onSuccess (set_upvotePending false s)
    | Rejected m => upvote_onError m (set_upvotePending false s)
    | Awaiting q => send (Mutating q true) q (set_upvotePending true s)
    end.

(** *** Comment *)
Definition comment_mutationFn (s : State) (content : jsstring) : Started :=
  match userId s with
  | Some u =>
      if truthy u
      then Awaiting (InsertComment (trim content) u (id s))
      else Rejected "Not authenticated yet"
  | None => Rejected "Not authenticated yet"
  end.

Definition comment_onSuccess (s : State) : Effect :=
  invalidate_comments
    (set_commentError None
       (set_isSubmittingComment false (set_newComment [] s))).

Definition comment_onError (message : string) (s : State) : Effect :=
  quiet (set_commentError (Some (message_or message "Failed to post comment"))
           (set_isSubmittingComment false s)).

Definition handleCommentSubmit (s : State) : Effect :=
  if negb (truthy (trim (newComment s))) || isSubmittingComment s
  then quiet s
  else
    let s := set_isSubmittingComment true s in
    let s := set_inflight (detached is_comment_insert (inflight s)) s in
    match comment_mutationFn s (newComment s) with
    | Resolved => comment_onSuccess s
    | Rejected m => comment_onError m s
    | Awaiting q => send (Mutating q true) q s
    end.

(** *** Delete *)
(** [onSuccess] invalidates the feed's queries and loads the feed. *)
Definition delete_onSuccess (s : State) : Effect := quiet (set_navigated true s).

(** [confirmed] is the answer to [window.confirm]. *)
Definition handleDelete (confirmed : bool) (s : State) : Effect :=
  if confirmed
  then
    let q := DeletePost (id s) in
    send (Mutating q true) q
      (set_deletePending true (set_inflight (detached is_delete (inflight s)) s))
  else quiet s.

(** *** What the page shows *)

(** Neither the loading page, nor the error page, nor "Post not found". *)
Definition shows_post (v : View) : bool :=
  negb (postLoading v) && negb (postError v) && bool_decide (is_Some (post v)).


(** The buttons: not rendered, or rendered with their [disabled]. *)
Definition upvote_button (s : State) : option bool :=
  if shows_post (view s)
  then Some (upvoteMutation_isPending (view s) || negb (truthy_opt (userId s)))
  else None.

Definition comment_button (s : State) : option bool :=
  if shows_post (view s)
  then Some (negb (truthy (trim (newComment s))) || isSubmittingComment s
             || negb (truthy_opt (userId s)))
  else None.

Definition delete_button (s : State) : option bool :=
  match post (view s) with
  | Some p =>
      if shows_post (view s) && bool_decide (Some (user_id p) = userId s)
      then Some (deletePostMutation_isPending (view s))
      else None
  | None => None
  end.

(** *** The machine *)
Inductive Event :=
| Render
| HandleUpvote
| HandleCommentSubmit
| HandleDelete (confirmed : bool)
| SetNewComment (text : jsstring)
| Auth (a : UseOwner.AuthEvent)
| PostReplied (live : bool) (r : string + Post)
| CommentsReplied (live : bool) (r : string + list Comment)
| UpvoteReplied (post_id : jsstring) (observed : bool) (r : Reply)
| CommentReplied (q : Request) (observed : bool) (r : Reply)
| DeleteReplied (observed : bool) (r : Reply).

(** Calls of a handler, which only the user makes. *)
Definition user_action (e : Event) : bool :=
  match e with
  | HandleUpvote | HandleCommentSubmit | HandleDelete _ | SetNewComment _ => true
  | _ => false
  end.

(** Replies that report a failed request. *)
Definition failure_reply (e : Event) : bool :=
  match e with
  | PostReplied _ (inl _) | CommentsReplied _ (inl _) => true
  | UpvoteReplied _ _ (Failed _) | CommentReplied _ _ (Failed _)
  | DeleteReplied _ (Failed _) => true
  | Auth a => UseOwner.auth_failure a
  | _ => false
  end.

Definition receive (f : Flight) (s : State) : option State :=
  l ← answered f (inflight s); Some (set_inflight l s).

(** The mutation of an observed request has settled. *)
Definition upvote_settled (observed : bool) (s : State) : State :=
  if observed then set_upvotePending false s else s.

Definition delete_settled (observed : bool) (s : State) : State :=
  if observed then set_deletePending false s else s.

(** What one event does, before the render it may cause; nothing when the
    event is a reply to a request that is not in flight. *)
Definition event (s : State) (e : Event) : option Effect :=
  match e with
  | Render => Some (quiet (rendered s))
  | HandleUpvote => Some (handleUpvote s)
  | HandleCommentSubmit => Some (handleCommentSubmit s)
  | HandleDelete confirmed => Some (handleDelete confirmed s)
  | SetNewComment text => Some (quiet (set_newComment text s))
  | Auth a =>
      '(o, l, out) ← UseOwner.auth a (owner s) (inflight s);
      Some (set_inflight l (set_owner o s), out)
  | PostReplied live r =>
      s' ← receive (Fetching (SelectPost (id s)) live) s;
      Some (if live then post_replied r s' else quiet s')
  | CommentsReplied live r =>
      s' ← receive (Fetching (SelectComments (id s)) live) s;
      Some (if live then comments_replied r s' else quiet s')
  | UpvoteReplied post_id observed r =>
      s' ← receive (Mutating (RpcIncrementUpvotes post_id) observed) s;
      Some (match r with
            | Done => upvote_onSuccess (upvote_settled observed s')
            | Failed m => upvote_onError m (upvote_settled observed s')
            end)
  | CommentReplied q observed r =>
      if is_comment_insert q
      then s' ← receive (Mutating q observed) s;
           Some (match r with
                 | Done => comment_onSuccess s'
                 | Failed m => comment_onError m s'
                 end)
      else None
  | DeleteReplied observed r =>
      s' ← receive (Mutating (DeletePost (id s)) observed) s;
      Some (match r with
            | Done => delete_onSuccess (delete_settled observed s')
            | Failed _ => quiet (delete_settled observed s')
            end)
  end.

(** One event and the render that follows a change of the component's
    state; nothing once the page has been left. *)
Definition step (s : State) (e : Event) : option Effect :=
  if navigated s then None
  else '(s', out) ← event s e; Some (flush s s', out).

Fixpoint run (s : State) (events : list Event) : option Effect :=
  match events with
  | [] => Some (quiet s)
  | e :: rest =>
      '(s1, out1) ← step s e;
      '(s2, out2) ← run s1 rest;
      Some (s2, out1 ++ out2)
  end.

(** The requests of the first render: [checkAuth] asks for the session,
    and both queries start when the route has an id. *)
Definition mount_requests (id : jsstring) : list Request :=
  GetSession :: (if truthy id then [SelectPost id; SelectComments id] else []).

(** The page after its first render and the effects of it. *)
Definition mount (id : jsstring) : State :=
  rendered
    {| id := id; owner := UseOwner.mounted_owner; newComment := [];
       isSubmittingComment := false; commentError := None; upvoteError := None;
       postQ := idle; commentsQ := idle; upvotePending := false;
       deletePending := false;
       view := {| post := None; postLoading := false; postError := false;
                  upvoteMutation_isPending := false;
                  deletePostMutation_isPending := false |};
       inflight :=
         CheckingSession
         :: (if truthy id
             then [Fetching (SelectPost id) true; Fetching (SelectComments id) true]
             else []);
       navigated := false |}.

(** *** Runs *)

(** How many mutation requests of one kind are in flight. *)
Definition outstanding (kind : Request → bool) (s : State) : nat :=
  count (mutating kind) (inflight s).

(** [isSubmittingComment] stands for exactly one comment insert in
    flight. *)
Definition single_flight (s : State) : Prop :=
  outstanding is_comment_insert s = (if isSubmittingComment s then 1 else 0).

(** Whether a handler, the one that [called] tells, has been called since
    the last render, after one more event. *)
Definition since_render (called : Event → bool) (since : bool) (e : Event) : bool :=
  match e with
  | Render => false
  | _ => called e || since
  end.

(** No two calls of the handler without a render between them. *)
Fixpoint apart (called : Event → bool) (since : bool) (events : list Event) : bool :=
  match events with
  | [] => true
  | e :: rest =>
      negb (called e && since) && apart called (since_render called since e) rest
  end.

Definition calls_upvote (e : Event) : bool :=
  match e with HandleUpvote => true | _ => false end.

Definition calls_delete (e : Event) : bool :=
  match e with HandleDelete _ => true | _ => false end.

(** The delete handler is called by its button only: each of its calls
    finds the button rendered and enabled. *)
Fixpoint by_button (s : State) (events : list Event) : bool :=
  match events with
  | [] => true
  | e :: rest =>
      (if calls_delete e then bool_decide (delete_button s = Some false) else true)
      && match step s e with
         | Some (s', _) => by_button s' rest
         | None => true
         end
  end.

(** The pending flag of a mutation stands for exactly one request of it
    in flight, which the hook observes, and a render that no call of the
    handler has followed shows the flag when it is set. *)
Definition upvote_in_order (since : bool) (s : State) : Prop :=
  outstanding is_upvote s = (if upvotePending s then 1 else 0)
  ∧ count (unobserved is_upvote) (inflight s) = 0
  ∧ (since = false → upvotePending s = true
     → upvoteMutation_isPending (view s) = true).

Definition delete_in_order (since : bool) (s : State) : Prop :=
  outstanding is_delete s = (if deletePending s then 1 else 0)
  ∧ count (unobserved is_delete) (inflight s) = 0
  ∧ (since = false → deletePending s = true
     → deletePostMutation_isPending (view s) = true).

(** The post record of the last answer the post query took, among the
    events so far, starting from [acc]: the successful answer to a fetch
    the library has cancelled is dropped. *)
Definition fetched (acc : option Post) (e : Event) : option Post :=
  match e with PostReplied true (inr p) => Some p | _ => acc end.


End PostPage.

(** ** formatTimeAgo, the same function in the feed and on the post page *)
Module TimeAgo.

(** The four shapes of the result. *)
Inductive Label :=
| JustNow
| HoursAgo (h : Z)
| DaysAgo (d : Z)
| LocaleDate.

(** The branch taken, from the time values of [now] and of the parsed
    date in milliseconds; an unparsable date has no time value and fails
    every comparison. *)
Definition timeAgo (now : Z) (date : option Z) : Label :=
  match date with
  | None => LocaleDate
  | Some t =>
      let diffInHours := ((now - t) `div` (1000 * 60 * 60))%Z in
      if decide (diffInHours < 1)%Z then JustNow
      else if decide (diffInHours < 24)%Z then HoursAgo diffInHours
      else if decide (diffInHours < 168)%Z then DaysAgo (diffInHours `div` 24)%Z
      else LocaleDate
  end.

(** The string returned; [locale] is what [toLocaleDateString] gives. *)
Definition formatTimeAgo (locale : string) (now : Z) (date : option Z) : string :=
  match timeAgo now date with
  | JustNow => "Just now"
  | HoursAgo h => pretty h +:+ "h ago"
  | DaysAgo d => pretty d +:+ "d ago"
  | LocaleDate => locale
  end.

End TimeAgo.

(** ** hooks/useTheme *)
Module UseTheme.

(** The theme state, the stored item [airfryhub-theme] and whether the
    document element carries the class [dark]. *)
Record State := {
  theme : string;
  stored : option string;
  dark : bool
}.

(** The state before the effect has run. *)
Definition initial (stored : option string) (dark : bool) : State :=
  {| theme := "light"; stored := stored; dark := dark |}.

(** The effect run on mount. *)
Definition mounted (prefersDark : bool) (s : State) : State :=
  let fromSystem :=
    let defaultTheme := if prefersDark then "dark" else "light" in
    {| theme := defaultTheme; stored := stored s;
       dark := bool_decide (defaultTheme = "dark") |} in
  match stored s with
  | Some savedTheme =>
      if decide (savedTheme = "") then fromSystem
      else {| theme := savedTheme; stored := stored s;
              dark := bool_decide (savedTheme = "dark") |}
  | None => fromSystem
  end.

Definition toggleTheme (s : State) : State :=
  let newTheme := if decide (theme s = "light") then "dark" else "light" in
  {| theme := newTheme; stored := Some newTheme;
     dark := bool_decide (newTheme = "dark") |}.

(** A page load: the storage and the system preference are what the
    browser kept, the class list is fresh. *)
Definition load (prefersDark : bool) (stored : option string) : State :=
  mounted prefersDark (initial stored false).

End UseTheme.

(** ** components/ImageUpload *)
Module ImageUpload.
Import Js.

Record File := {
  name : jsstring;
  type : jsstring;
  size : Z
}.

Record State := {
  isUploading : bool;
  uploadProgress : Z;
  dragActive : bool
}.

(** [s.split(".")]: the pieces between the dots, at least one. *)
Fixpoint split_dot (s : jsstring) : list jsstring :=
  match s with
  | [] => [[]]
  | c :: s' =>
      if decide (c = 46%N) then [] :: split_dot s'
      else match split_dot s' with
           | piece :: pieces => (c :: piece) :: pieces
           | [] => [[c]]
           end
  end.

(** [file.name.split(".").pop()] *)
Definition fileExt (name : jsstring) : jsstring :=
  default [] (last (split_dot name)).

(** The path in the bucket, from the renderings of [Date.now()] and of the
    random suffix. *)
Definition filePath (stamp random : jsstring) (file : File) : jsstring :=
  lit "images/" ++ stamp ++ lit "-" ++ random ++ lit "." ++ fileExt (name file).

(** How [handleFileUpload] starts: it reports an error through [onError]
    or begins the upload to the path. *)
Inductive Start :=
| Refused (message : string)
| Upload (path : jsstring).

Definition handleFileUpload (stamp random : jsstring) (file : File) : Start :=
  if negb (bool_decide (lit "image/" `prefix_of` type file))
  then Refused "Please select an image file"
  else if decide (5 * 1024 * 1024 < size file)%Z
  then Refused "Image size must be less than 5MB"
  else Upload (filePath stamp random file).

(** The state once the upload has begun. *)
Definition uploading (s : State) : State :=
  {| isUploading := true; uploadProgress := 0; dragActive := dragActive s |}.

(** One tick of the simulated progress. *)
Definition tick (prev : Z) : Z :=
  if decide (90 ≤ prev)%Z then 90%Z else (prev + 10)%Z.

Definition ticked (s : State) : State :=
  {| isUploading := isUploading s; uploadProgress := tick (uploadProgress s);
     dragActive := dragActive s |}.

(** The storage has answered: what the parent is told and the state left,
    before the delayed reset of the bar. *)
Inductive Told :=
| ImageUploaded (publicUrl : jsstring)
| UploadError (message : string).

Definition uploaded (reply : string + jsstring) (s : State) : Told * State :=
  match reply with
  | inr publicUrl =>
      (ImageUploaded publicUrl,
       {| isUploading := false; uploadProgress := 100; dragActive := dragActive s |})
  | inl message =>
      (UploadError (if decide (message = "") then "Failed to upload image" else message),
       {| isUploading := false; uploadProgress := 0; dragActive := dragActive s |})
  end.

(** [handleDrop]: the file handed to [handleFileUpload], if any, and the
    state with the drag highlight removed. *)
Definition handleDrop (disabled : bool) (files : list File) (s : State)
    : option File * State :=
  let s' := {| isUploading := isUploading s; uploadProgress := uploadProgress s;
               dragActive := false |} in
  if disabled || isUploading s then (None, s')
  else (head files, s').

(** [handleDragOver] *)
Definition handleDragOver (disabled : bool) (s : State) : State :=
  if negb disabled && negb (isUploading s)
  then {| isUploading := isUploading s; uploadProgress := uploadProgress s;
          dragActive := true |}
  else s.

(** [handleFileSelect]: the file handed to [handleFileUpload], if any. *)
Definition handleFileSelect (files : option (list File)) : option File :=
  match files with
  | Some l => head l
  | None => None
  end.

End ImageUpload.

(** ** Sample data for the examples *)
Module Samples.
Import Js Supabase.

(** A post as the platform returns it. *)
Definition sample_post : Post :=
  {| id := lit "p1"; title := lit "Crispy fries"; content := [];
     image_url := None; link_url := None; flags := None;
     user_id := lit "u1"; created_at := lit "2025-01-01"; upvotes := 7 |}.


(** A comment of 10000 characters. *)
Definition long_comment : jsstring := replicate (100 * 100) 97%N.

End Samples.

(** * Properties *)

Import Js Zod Validations Supabase Samples.

(** ** Schema lemmas *)

Lemma at_key_keys k p x : x ∈ (at_key k p).*1 → x = k.
Proof.
  unfold at_key. rewrite <- list_fmap_compose.
  intros (m & -> & _)%list_elem_of_fmap. reflexivity.
Qed.

Lemma title_schema_cases isUrl s :
  title_schema isUrl (JStr s) =
    if decide (length s < 1)
    then Dirty ["Title is required"; "Title must be at least 3 characters"]
    else if decide (length s < 3) then Dirty ["Title must be at least 3 characters"]
    else if decide (200 < length s) then Dirty ["Title must be less than 200 characters"]
    else Valid (JStr s).
Proof.
  unfold title_schema, z_string. simpl.
  repeat case_decide; simpl; try reflexivity; lia.
Qed.

Lemma content_schema_cases isUrl s :
  content_schema isUrl (JStr s) =
    if decide (2000 < length s)
    then Dirty ["Content must be less than 2000 characters"]
    else Valid (JStr s).
Proof.
  unfold content_schema, optional, z_string. simpl.
  case_decide; reflexivity.
Qed.

Lemma at_key_mem k p : k ∈ (at_key k p).*1 ↔ is_valid p = false ∧ issues_of p ≠ [].
Proof.
  unfold at_key. rewrite <- list_fmap_compose. split.
  - intros (m & _ & Hm)%list_elem_of_fmap.
    destruct p; simpl in *; [by apply elem_of_nil in Hm | |];
      (split; [reflexivity | intros ->; by apply elem_of_nil in Hm]).
  - intros [_ Hne]. destruct (issues_of p) as [|m l]; [done |].
    simpl. apply list_elem_of_here.
Qed.

Lemma reports_createPostSchema isUrl k o :
  reports k (createPostSchema isUrl o)
  = bool_decide (k ∈ (createPost_issues isUrl o).*1).
Proof.
  unfold createPostSchema.
  destruct (createPost_issues isUrl o) as [|i l]; [| reflexivity].
  symmetry. apply bool_decide_eq_false_2, not_elem_of_nil.
Qed.

Lemma reports_title isUrl o :
  reports "title" (createPostSchema isUrl o) = false
  ↔ issues_of (title_schema isUrl (f_title o)) = [].
Proof.
  rewrite reports_createPostSchema, bool_decide_eq_false.
  unfold createPost_issues. rewrite !fmap_app, !elem_of_app. split.
  - intros H. destruct (issues_of (title_schema isUrl (f_title o))) eqn:E; [done |].
    exfalso. apply H. left. apply at_key_mem. rewrite E.
    split; [| done]. destruct (title_schema isUrl (f_title o)); done.
  - intros E [H | [H | [H | [H | H]]]].
    + apply at_key_mem in H as [_ H]. done.
    + by apply at_key_keys in H.
    + by apply at_key_keys in H.
    + by apply at_key_keys in H.
    + by apply at_key_keys in H.
Qed.

Lemma reports_content isUrl o :
  reports "content" (createPostSchema isUrl o) = false
  ↔ issues_of (content_schema isUrl (f_content o)) = [].
Proof.
  rewrite reports_createPostSchema, bool_decide_eq_false.
  unfold createPost_issues. rewrite !fmap_app, !elem_of_app. split.
  - intros H. destruct (issues_of (content_schema isUrl (f_content o))) eqn:E; [done |].
    exfalso. apply H. right. left. apply at_key_mem. rewrite E.
    split; [| done]. destruct (content_schema isUrl (f_content o)); done.
  - intros E [H | [H | [H | [H | H]]]].
    + by apply at_key_keys in H.
    + apply at_key_mem in H as [_ H]. done.
    + by apply at_key_keys in H.
    + by apply at_key_keys in H.
    + by apply at_key_keys in H.
Qed.

(** ** C2 *)

(** C2. A title string passes the create/edit post schema exactly when
    its length is between 3 and 200: the title field schema is valid on
    it, and the object schema reports no issue under [title], whatever
    the other fields are. *)
Theorem C2_title_accepted_iff_3_to_200 :
  ∀ (isUrl : jsstring → bool) (s : jsstring) (c i l f : JsVal),
    (is_valid (title_schema isUrl (JStr s)) = true ↔ 3 ≤ length s ≤ 200)
    ∧ (reports "title"
         (createPostSchema isUrl
            {| f_title := JStr s; f_content := c; f_image_url := i;
               f_link_url := l; f_flags := f |}) = false
       ↔ 3 ≤ length s ≤ 200).
Proof.
  intros isUrl s c i l f. split.
  - rewrite title_schema_cases.
    repeat case_decide; simpl; split; intros; try done; lia.
  - rewrite reports_title. cbn [f_title]. rewrite title_schema_cases.
    repeat case_decide; simpl; split; intros; try done; lia.
Qed.

(** ** C3 *)

(** C3. A content string passes the create/edit post schema exactly when
    its length is at most 2000; the empty string and an absent content
    pass. Stated for the content field schema and for the issues the
    object schema reports under [content]. *)
Theorem C3_content_accepted_iff_at_most_2000 :
  ∀ (isUrl : jsstring → bool) (s : jsstring) (t i l f : JsVal),
    (is_valid (content_schema isUrl (JStr s)) = true ↔ length s ≤ 2000)
    ∧ (reports "content"
         (createPostSchema isUrl
            {| f_title := t; f_content := JStr s; f_image_url := i;
               f_link_url := l; f_flags := f |}) = false
       ↔ length s ≤ 2000)
    ∧ is_valid (content_schema isUrl (JStr [])) = true
    ∧ is_valid (content_schema isUrl JUndefined) = true
    ∧ reports "content"
        (createPostSchema isUrl
           {| f_title := t; f_content := JUndefined; f_image_url := i;
              f_link_url := l; f_flags := f |}) = false.
Proof.
  intros isUrl s t i l f. repeat split.
  - rewrite content_schema_cases. case_decide; simpl; [done | lia].
  - rewrite content_schema_cases. case_decide; simpl; [lia | done].
  - rewrite reports_content. cbn [f_content]. rewrite content_schema_cases.
    case_decide; simpl; [done | lia].
  - rewrite reports_content. cbn [f_content]. rewrite content_schema_cases.
    case_decide; simpl; [lia | done].
  - apply reports_content. reflexivity.
Qed.

(** ** C1 *)

(** What the schema of the two URL fields accepts: an absent value, the
    empty string, or a string the URL parser accepts; [null] is not among
    them. *)
Lemma url_field_schema_valid isUrl v :
  is_valid (image_url_schema isUrl v) = true
  ↔ v = JUndefined ∨ v = JStr [] ∨ ∃ s, v = JStr s ∧ isUrl s = true.
Proof.
  unfold image_url_schema, or_, optional, z_string, z_literal.
  destruct v as [| | s | l]; simpl.
  - split; [by left | done].
  - split; [done |]. by intros [? | [? | (s' & ? & ?)]].
  - destruct (isUrl s) eqn:E; simpl.
    + split; [| done]. intros _. right. right. by exists s.
    + case_decide as Hs; simpl.
      * subst s. split; [| done]. intros _. right. by left.
      * split; [done |].
        intros [? | [? | (s' & ? & ?)]]; simplify_eq; congruence.
  - split; [done |]. by intros [? | [? | (s' & ? & ?)]].
Qed.

(** C1. Evaluation at the failing input: a create or edit submission
    whose image URL and link URL inputs are left empty. The handler turns
    each empty input into [undefined], the mutation function turns that
    into [null], and the schema, which accepts [undefined] and the empty
    string, reports "Invalid input" under both keys: the submission
    throws the validation error and reaches no platform call. *)
Theorem C1_empty_url_inputs_fail_validation :
  ∀ (isUrl : jsstring → bool) (platform : Platform) (r : Remote),
    let o := {| UseOwner.userId := Some (lit "u1");
                UseOwner.isLoading := false; UseOwner.error := None |} in
    let f := {| Forms.title := lit "Crispy fries"; Forms.content := [];
                Forms.imageUrl := []; Forms.linkUrl := [];
                Forms.selectedFlags := [] |} in
    let errors : gmap string string :=
      {[ "image_url" := "Invalid input"; "link_url" := "Invalid input" ]} in
    CreatePost.submit isUrl platform o f r = (Threw (ValidationError errors), r)
    ∧ EditPost.submit isUrl platform (lit "p1") f r
      = (Threw (ValidationError errors), r)
    ∧ is_valid (image_url_schema isUrl JUndefined) = true
    ∧ is_valid (image_url_schema isUrl (JStr [])) = true
    ∧ is_valid (link_url_schema isUrl JUndefined) = true
    ∧ is_valid (link_url_schema isUrl (JStr [])) = true.
Proof.
  intros isUrl platform r o f errors.
  split; [vm_compute; reflexivity |].
  split; [vm_compute; reflexivity |].
  repeat split; apply url_field_schema_valid; auto.
Qed.

(** ** C5 *)

Import UseOwner Forms.

(** C5. When the object built from a submission fails the schema, the
    create and the edit mutation functions throw the validation error
    with the remote side exactly as it was: the posts table is unchanged
    and no call was received. The same holds for whole submissions, from
    the submit handler on. *)
Theorem C5_failed_validation_makes_no_call :
  ∀ (isUrl : jsstring → bool) (platform : Platform) (o : Owner)
    (post_id : jsstring) (f : Form) (issues : list Issue) (r : Remote),
    createPostSchema isUrl (parsed_object (postData f)) = Failure issues →
    CreatePost.mutationFn isUrl platform (userId o) (postData f) r
      = (Threw (ValidationError (errorMap issues)), r)
    ∧ EditPost.mutationFn isUrl platform post_id (postData f) r
      = (Threw (ValidationError (errorMap issues)), r)
    ∧ (CreatePost.submit isUrl platform o f r).2 = r
    ∧ (EditPost.submit isUrl platform post_id f r).2 = r.
Proof.
  intros isUrl platform o post_id f issues r Hfail.
  assert (Hc : CreatePost.mutationFn isUrl platform (userId o) (postData f) r
               = (Threw (ValidationError (errorMap issues)), r)).
  { unfold CreatePost.mutationFn. rewrite Hfail. reflexivity. }
  assert (He : EditPost.mutationFn isUrl platform post_id (postData f) r
               = (Threw (ValidationError (errorMap issues)), r)).
  { unfold EditPost.mutationFn. rewrite Hfail. reflexivity. }
  split; [exact Hc |]. split; [exact He |]. split.
  - unfold CreatePost.submit, CreatePost.handleSubmit.
    destruct (isLoading o); [reflexivity |].
    destruct (has_error o); [reflexivity |].
    unfold mbind, M_bind. rewrite Hc. reflexivity.
  - unfold EditPost.submit, EditPost.handleSubmit. rewrite He. reflexivity.
Qed.

Lemma C5_failed_validation_makes_no_call_witness :
  let isUrl : jsstring → bool := λ _, true in
  let platform := {| on_insert := λ _ _ _, inl "denied";
                     on_update := λ _ _ _, inl "denied" |} in
  let o := {| userId := None; isLoading := false; error := None |} in
  let f := {| title := lit "ab"; content := []; imageUrl := lit "https://a.b/c.png";
              linkUrl := lit "https://a.b"; selectedFlags := [] |} in
  let r := {| posts := []; calls := [] |} in
  createPostSchema isUrl (parsed_object (postData f))
    = Failure [("title", "Title must be at least 3 characters")]
  ∧ (CreatePost.submit isUrl platform o f r).2 = r
  ∧ (EditPost.submit isUrl platform (lit "p1") f r).2 = r.
Proof.
  intros isUrl platform o f r.
  assert (H : createPostSchema isUrl (parsed_object (postData f))
              = Failure [("title", "Title must be at least 3 characters")])
    by (vm_compute; reflexivity).
  split; [exact H |].
  pose proof (C5_failed_validation_makes_no_call isUrl platform o (lit "p1") f _ r H)
    as (_ & _ & Hc & He).
  split; [exact Hc | exact He].
Defined.

(** ** C6 *)

Section Toggle.
Implicit Types (sel : list jsstring) (v : jsstring).

Lemma filter_out_absent sel v : v ∉ sel → filter (λ f, f ≠ v) sel = sel.
Proof.
  induction sel as [|x sel IH]; intros Hv; [reflexivity |].
  apply not_elem_of_cons in Hv as [Hne Hv].
  rewrite filter_cons_True by congruence. by rewrite IH.
Qed.

Lemma filter_out_appended sel v :
  v ∉ sel → filter (λ f, f ≠ v) (sel ++ [v]) = sel.
Proof.
  intros Hv. rewrite filter_app, filter_out_absent by done.
  rewrite filter_cons_False by (intros H; by apply H).
  apply app_nil_r.
Qed.

Lemma filtered_out sel v : v ∉ filter (λ f, f ≠ v) sel.
Proof. intros [H _]%list_elem_of_filter. by apply H. Qed.

Lemma toggleFilter_absent sel v :
  v ∉ sel → FilterChips.toggleFilter sel v = sel ++ [v].
Proof.
  intros Hv. unfold FilterChips.toggleFilter.
  by rewrite bool_decide_eq_false_2.
Qed.

Lemma toggleFilter_present sel v :
  v ∈ sel → FilterChips.toggleFilter sel v = filter (λ f, f ≠ v) sel.
Proof.
  intros Hv. unfold FilterChips.toggleFilter.
  by rewrite bool_decide_eq_true_2.
Qed.

Lemma toggleFilter_twice sel v :
  FilterChips.toggleFilter (FilterChips.toggleFilter sel v) v
  = if bool_decide (v ∈ sel) then filter (λ f, f ≠ v) sel ++ [v] else sel.
Proof.
  case_bool_decide as Hv.
  - rewrite (toggleFilter_present sel v Hv).
    apply toggleFilter_absent, filtered_out.
  - rewrite (toggleFilter_absent sel v Hv).
    rewrite toggleFilter_present by (apply elem_of_app; right; apply list_elem_of_here).
    by apply filter_out_appended.
Qed.

Lemma toggleFilter_twice_same_set sel v :
  list_to_set (FilterChips.toggleFilter (FilterChips.toggleFilter sel v) v)
  =@{gset jsstring} list_to_set sel.
Proof.
  rewrite toggleFilter_twice. case_bool_decide as Hv; [| reflexivity].
  apply set_eq. intros x.
  rewrite !elem_of_list_to_set, elem_of_app, list_elem_of_filter, list_elem_of_singleton.
  split.
  - intros [[_ H] | ->]; assumption.
  - intros Hx. destruct (decide (x = v)) as [-> | Hne]; [by right | by left].
Qed.

Lemma feed_toggleFilter_eq sel v :
  Feed.toggleFilter v sel = FilterChips.toggleFilter sel v.
Proof. reflexivity. Qed.

Lemma clicked_enabled sel v :
  FlagSelector.clicked false sel v = FilterChips.toggleFilter sel v.
Proof.
  unfold FlagSelector.clicked, FlagSelector.toggleFlag, FilterChips.toggleFilter.
  by case_bool_decide.
Qed.

Lemma clicked_disabled sel v : FlagSelector.clicked true sel v = sel.
Proof. reflexivity. Qed.
End Toggle.

(** C6. Toggling the same tag twice gives back the original selection as
    a set, and the very same list when the tag was not selected at first.
    This holds for the filter chips, for the feed's own toggle, and for
    the flag selector whether it is disabled or not. *)
Theorem C6_toggle_twice_restores_selection :
  ∀ (sel : list jsstring) (v : jsstring) (disabled : bool),
    let chips := FilterChips.toggleFilter (FilterChips.toggleFilter sel v) v in
    let feed := Feed.toggleFilter v (Feed.toggleFilter v sel) in
    let flags :=
      FlagSelector.clicked disabled (FlagSelector.clicked disabled sel v) v in
    (list_to_set chips =@{gset jsstring} list_to_set sel)
    ∧ (list_to_set feed =@{gset jsstring} list_to_set sel)
    ∧ (list_to_set flags =@{gset jsstring} list_to_set sel)
    ∧ (v ∉ sel → chips = sel ∧ feed = sel ∧ flags = sel).
Proof.
  intros sel v disabled chips feed flags.
  assert (Hfeed : feed = chips).
  { unfold feed. by rewrite !feed_toggleFilter_eq. }
  assert (Hflags : flags = if disabled then sel else chips).
  { unfold flags. destruct disabled.
    - by rewrite !clicked_disabled.
    - by rewrite !clicked_enabled. }
  assert (Hset : list_to_set chips =@{gset jsstring} list_to_set sel)
    by apply toggleFilter_twice_same_set.
  split; [exact Hset |]. split; [by rewrite Hfeed |].
  split; [rewrite Hflags; by destruct disabled |].
  intros Hv.
  assert (Hchips : chips = sel).
  { unfold chips. rewrite toggleFilter_twice. by rewrite bool_decide_eq_false_2. }
  rewrite Hflags, Hfeed. by destruct disabled.
Qed.

Lemma C6_toggle_twice_restores_selection_witness :
  let sel := [lit "recipe"; lit "tip"] in
  (lit "review" ∉ sel)
  ∧ FilterChips.toggleFilter (FilterChips.toggleFilter sel (lit "review")) (lit "review") = sel
  ∧ Feed.toggleFilter (lit "review") (Feed.toggleFilter (lit "review") sel) = sel
  ∧ FlagSelector.clicked false (FlagSelector.clicked false sel (lit "review")) (lit "review")
    = sel.
Proof.
  intros sel.
  assert (H : lit "review" ∉ sel) by (apply (bool_decide_unpack _); vm_compute; exact I).
  split; [exact H |].
  exact (proj2 (proj2 (proj2
    (C6_toggle_twice_restores_selection sel (lit "review") false))) H).
Defined.

(** ** C7 *)

Section FeedQuery.
Context (ilike : jsstring → jsstring → bool).
Context (timestamp_le : jsstring → jsstring → bool).

Lemma queryFn_unfiltered sortBy : Feed.filters (Feed.queryFn [] sortBy []) = [].
Proof. by destruct sortBy. Qed.

Lemma answer_without_filters q (table : list Post) :
  Feed.filters q = [] → Feed.answer ilike timestamp_le q table ≡ₚ table.
Proof.
  intros Hq. unfold Feed.answer. rewrite Hq.
  assert (Hall : filter (λ p : Post, forallb (Feed.satisfies ilike p) [] = true) table
                 = table).
  { induction table as [|p table IH]; [reflexivity |].
    rewrite filter_cons_True by reflexivity. by rewrite IH. }
  rewrite Hall.
  destruct (Feed.ordering q) as [[c asc]|]; [| reflexivity].
  apply merge_sort_Permutation.
Qed.
End FeedQuery.

(** C7. With an empty search term and no selected tag the feed query
    carries no filter at all, neither the search predicate nor the flag
    containment, so the platform returns every row of the posts table,
    in the chosen order. Both ways of clearing reset the filter list to
    empty, and the feed's button also empties the search term. *)
Theorem C7_no_filters_returns_every_post :
  ∀ (ilike timestamp_le : jsstring → jsstring → bool) (sortBy : Feed.SortBy)
    (table : list Post),
    Feed.filters (Feed.queryFn [] sortBy []) = []
    ∧ Feed.answer ilike timestamp_le (Feed.queryFn [] sortBy []) table ≡ₚ table
    ∧ FilterChips.clearAllFilters = []
    ∧ Feed.clearFilters = ([], []).
Proof.
  intros ilike timestamp_le sortBy table.
  split; [apply queryFn_unfiltered |].
  split; [apply answer_without_filters, queryFn_unfiltered |].
  split; reflexivity.
Qed.
(** ** Requests on their way *)

Section WireFacts.
Import Wire.
Implicit Types (l : list Flight) (f : Flight) (p : Flight → bool).

Lemma count_nil p : count p [] = 0.
Proof. reflexivity. Qed.

Lemma count_cons p f l :
  count p (f :: l) = (if p f then 1 else 0) + count p l.
Proof.
  unfold count. destruct (p f) eqn:E.
  - rewrite filter_cons_True by done. reflexivity.
  - rewrite filter_cons_False by congruence. reflexivity.
Qed.

Lemma count_app p l l' : count p (l ++ l') = count p l + count p l'.
Proof. unfold count. by rewrite filter_app, length_app. Qed.

Lemma count_snoc p l f : count p (l ++ [f]) = count p l + (if p f then 1 else 0).
Proof. rewrite count_app, count_cons, count_nil. lia. Qed.

Lemma count_answered p f l l' :
  answered f l = Some l' → count p l = count p l' + (if p f then 1 else 0).
Proof.
  revert l'. induction l as [|x l IH]; intros l' H; simpl in H; [discriminate |].
  case_decide as Hx.
  - simplify_eq. rewrite count_cons. lia.
  - destruct (answered f l) as [l0|] eqn:E; simpl in H; [| discriminate].
    simplify_eq. rewrite !count_cons, (IH _ eq_refl). lia.
Qed.


Lemma answered_sub f l l' g : answered f l = Some l' → g ∈ l' → g ∈ l.
Proof.
  revert l'. induction l as [|x l IH]; intros l' H Hg; simpl in H; [discriminate |].
  case_decide as Hx.
  - simplify_eq. by apply list_elem_of_further.
  - destruct (answered f l) as [l0|] eqn:E; simpl in H; [| discriminate].
    simplify_eq. apply elem_of_cons in Hg as [-> | Hg].
    + apply list_elem_of_here.
    + apply list_elem_of_further. by eapply IH.
Qed.

Lemma answered_other f l l' g : answered f l = Some l' → g ≠ f → g ∈ l → g ∈ l'.
Proof.
  revert l'. induction l as [|x l IH]; intros l' H Hne Hg; simpl in H; [discriminate |].
  case_decide as Hx.
  - simplify_eq. apply elem_of_cons in Hg as [-> | Hg]; done.
  - destruct (answered f l) as [l0|] eqn:E; simpl in H; [| discriminate].
    simplify_eq. apply elem_of_cons in Hg as [-> | Hg].
    + apply list_elem_of_here.
    + apply list_elem_of_further. by eapply IH.
Qed.



(** Cancelling a fetch and detaching a mutation leave every mutation in
    flight. *)
Lemma count_mutating_cancelled kind q l :
  count (mutating kind) (cancelled q l) = count (mutating kind) l.
Proof.
  unfold cancelled. induction l as [|x l IH]; [reflexivity |].
  rewrite fmap_cons, !count_cons, IH. case_decide; subst; reflexivity.
Qed.

Lemma count_mutating_detached kind kind' l :
  count (mutating kind) (detached kind' l) = count (mutating kind) l.
Proof.
  unfold detached. induction l as [|x l IH]; [reflexivity |].
  rewrite fmap_cons, !count_cons, IH.
  destruct x as [q b | q [|] | | |]; try reflexivity.
  by destruct (kind' q).
Qed.

Lemma count_unobserved_cancelled kind q l :
  count (unobserved kind) (cancelled q l) = count (unobserved kind) l.
Proof.
  unfold cancelled. induction l as [|x l IH]; [reflexivity |].
  rewrite fmap_cons, !count_cons, IH. case_decide; subst; reflexivity.
Qed.

Lemma detached_none kind l :
  count (mutating kind) l = 0 → detached kind l = l.
Proof.
  unfold detached. induction l as [|x l IH]; [reflexivity |].
  rewrite count_cons. intros H. rewrite fmap_cons, IH by lia.
  destruct x as [q b | q [|] | | |]; try reflexivity.
  simpl in H. destruct (kind q); [lia | reflexivity].
Qed.

Lemma count_unobserved_detached_other kind kind' l :
  (∀ q, kind q = true → kind' q = false) →
  count (unobserved kind) (detached kind' l) = count (unobserved kind) l.
Proof.
  intros Hk. unfold detached. induction l as [|x l IH]; [reflexivity |].
  rewrite fmap_cons, !count_cons, IH.
  destruct x as [q b | q [|] | | |]; try reflexivity.
  destruct (kind' q) eqn:E; [| reflexivity]. simpl.
  destruct (kind q) eqn:E'; [| reflexivity]. rewrite (Hk q E') in E. discriminate.
Qed.


End WireFacts.
(** ** The hook [useOwner] *)

Section AuthFacts.
Import Wire.

(** A flight of the hook. *)
Lemma auth_flights a o l o' l' out p :
  auth a o l = Some (o', l', out) →
  p CheckingSession = false → p SigningIn = false → p RetryingSession = false →
  count p l' = count p l.
Proof.
  intros H H1 H2 H3. destruct a as [r | r | u |]; simpl in H.
  - destruct (answered _ l) as [l0|] eqn:E; [| done]. simpl in H.
    apply (count_answered p) in E. rewrite H1 in E.
    destruct (checkAuth_session r o) as [o1 [|]]; simplify_eq.
    + rewrite count_snoc, H2. lia.
    + lia.
  - destruct (answered _ l) as [l0|] eqn:E; [| done]. simpl in H.
    apply (count_answered p) in E. rewrite H2 in E. simplify_eq. lia.
  - by simplify_eq.
  - destruct (answered _ l) as [l0|] eqn:E; [| done]. simpl in H.
    apply (count_answered p) in E. rewrite H3 in E. simplify_eq. lia.
Qed.

Lemma auth_keeps a o l o' l' out f :
  auth a o l = Some (o', l', out) →
  f ≠ CheckingSession → f ≠ SigningIn → f ≠ RetryingSession →
  f ∈ l' ↔ f ∈ l.
Proof.
  intros H H1 H2 H3. destruct a as [r | r | u |]; simpl in H.
  - destruct (answered _ l) as [l0|] eqn:E; [| done]. simpl in H.
    assert (f ∈ l0 ↔ f ∈ l) as Hl.
    { split; [by eapply answered_sub | by eapply answered_other]. }
    destruct (checkAuth_session r o) as [o1 [|]]; simplify_eq; [| done].
    rewrite elem_of_app, list_elem_of_singleton. tauto.
  - destruct (answered _ l) as [l0|] eqn:E; [| done]. simpl in H. simplify_eq.
    split; [by eapply answered_sub | by eapply answered_other].
  - by simplify_eq.
  - destruct (answered _ l) as [l0|] eqn:E; [| done]. simpl in H. simplify_eq.
    split; [by eapply answered_sub | by eapply answered_other].
Qed.

(** The only request the hook makes on its own is the anonymous sign-in
    that follows a session without a user; after a failure it makes
    none. *)
Lemma auth_out a o l o' l' out :
  auth a o l = Some (o', l', out) →
  (out = [] ∨ out = [SignInAnonymously] ∧ a = SessionReplied (SessionReturned None))
  ∧ (auth_failure a = true → out = []).
Proof.
  intros H. destruct a as [r | r | u |]; simpl in H.
  - destruct (answered _ l) as [l0|] eqn:E; [| done]. simpl in H.
    destruct r as [m | [u|]]; simpl in H; simplify_eq; auto.
    split; [by right | done].
  - destruct (answered _ l) as [l0|] eqn:E; [| done]. simpl in H. simplify_eq. auto.
  - simplify_eq. auto.
  - destruct (answered _ l) as [l0|] eqn:E; [| done]. simpl in H. simplify_eq. auto.
Qed.

(** [checkAuth], run to its end in a mounted hook, is its three steps. *)
Lemma checkAuth_steps session signIn o :
  (checkAuth true session signIn o).1
  = let '(o1, signs) := checkAuth_session session (checkAuth_started o) in
    if signs then checkAuth_signIn signIn o1 else o1.
Proof.
  destruct session as [m | [u|]]; [reflexivity | reflexivity |].
  by destruct signIn as [m | [u|] [m|]].
Qed.


End AuthFacts.

Section AuthOrder.
Import Wire.

Lemma has_error_None o : error o = None → has_error o = false.
Proof. unfold has_error. by intros ->. Qed.

Lemma auth_in_order_step a o l o' l' out :
  auth_in_order o l → auth a o l = Some (o', l', out) → auth_in_order o' l'.
Proof.
  unfold auth_in_order. intros (H1 & H2 & H3 & H4) H.
  destruct a as [r | r | u |]; simpl in H.
  - destruct (answered _ l) as [l0|] eqn:E; [| done]. simpl in H.
    pose proof (count_answered checking _ _ _ E) as E1.
    pose proof (count_answered retrying _ _ _ E) as E2. simpl in E1, E2.
    destruct H3 as [H3 H5]; [lia |].
    destruct r as [m | [u|]]; simpl in H; simplify_eq; simpl;
      rewrite ?count_snoc; simpl; repeat split; intros; try lia; try done.
  - destruct (answered _ l) as [l0|] eqn:E; [| done]. simpl in H.
    pose proof (count_answered checking _ _ _ E) as E1.
    pose proof (count_answered retrying _ _ _ E) as E2. simpl in E1, E2.
    destruct H3 as [H3 H5]; [lia |]. simplify_eq.
    repeat split; intros; lia.
  - simplify_eq. unfold has_error in *. simpl. done.
  - destruct (answered _ l) as [l0|] eqn:E; [| done]. simpl in H.
    pose proof (count_answered checking _ _ _ E) as E1.
    pose proof (count_answered retrying _ _ _ E) as E2. simpl in E1, E2.
    simplify_eq. unfold has_error in *. simpl.
    repeat split; intros; lia.
Qed.

(** The retry button is there when an error is shown: its click finds no
    call of the hook in flight. *)
Lemma auth_in_order_retry o l :
  auth_in_order o l → has_error o = true →
  auth_in_order (retry_clicked o l).1.1 (retry_clicked o l).1.2.
Proof.
  unfold auth_in_order, retry_clicked. intros (H1 & H2 & H3 & H4) He. simpl.
  specialize (H4 He). rewrite !count_snoc. simpl.
  assert (count checking l = 0).
  { destruct (count checking l) eqn:E; [done |].
    destruct H3 as [H3 _]; [lia |]. apply has_error_None in H3. congruence. }
  unfold has_error. simpl. repeat split; intros; try lia; done.
Qed.

Lemma auth_in_order_flights o l l' :
  count checking l' = count checking l → count retrying l' = count retrying l →
  auth_in_order o l → auth_in_order o l'.
Proof. unfold auth_in_order. by intros -> ->. Qed.

Lemma auth_in_order_mounted : auth_in_order mounted_owner [CheckingSession].
Proof. unfold auth_in_order. vm_compute. repeat split; intros; (lia || done). Qed.

End AuthOrder.
(** ** The post page machine *)

Section PostPageFacts.
Import Wire ReactQuery PostPage.

Ltac effects :=
  unfold handleUpvote, handleCommentSubmit, handleDelete, upvote_mutationFn,
    comment_mutationFn, upvote_onSuccess, upvote_onError, comment_onSuccess,
    comment_onError, delete_onSuccess, upvote_settled, delete_settled,
    post_replied, comments_replied, invalidate_post, invalidate_comments,
    rendered, send, quiet.

Ltac state_of H :=
  apply (f_equal (fmap (M:=option) fst)) in H; simpl in H; injection H as H; subst.

Ltac out_of H :=
  apply (f_equal (fmap (M:=option) snd)) in H; simpl in H; injection H as H; subst.

Lemma step_event s e s' out :
  step s e = Some (s', out) →
  navigated s = false ∧ ∃ s1, event s e = Some (s1, out) ∧ s' = flush s s1.
Proof.
  unfold step. destruct (navigated s); [done |].
  destruct (event s e) as [[s1 out1]|]; [| done].
  simpl. intros [= <- <-]. eauto.
Qed.

Lemma flush_keeps s s1 :
  id (flush s s1) = id s1 ∧ owner (flush s s1) = owner s1
  ∧ newComment (flush s s1) = newComment s1
  ∧ isSubmittingComment (flush s s1) = isSubmittingComment s1
  ∧ postQ (flush s s1) = postQ s1 ∧ commentsQ (flush s s1) = commentsQ s1
  ∧ upvotePending (flush s s1) = upvotePending s1
  ∧ deletePending (flush s s1) = deletePending s1
  ∧ inflight (flush s s1) = inflight s1
  ∧ navigated (flush s s1) = navigated s1.
Proof. unfold flush. case_decide; done. Qed.

Lemma flush_view s s1 :
  view (flush s s1) = view s1 ∨ view (flush s s1) = render s1.
Proof. unfold flush. case_decide; [by left | by right]. Qed.

Lemma outstanding_flush kind s s1 :
  outstanding kind (flush s s1) = outstanding kind s1.
Proof. unfold outstanding. by destruct (flush_keeps s s1) as (_&_&_&_&_&_&_&_&->&_). Qed.

Lemma receive_spec f s s' :
  receive f s = Some s' →
  ∃ l, answered f (inflight s) = Some l ∧ s' = set_inflight l s.
Proof.
  unfold receive. destruct (answered f (inflight s)) as [l|]; [| done].
  simpl. intros [= <-]. eauto.
Qed.

Ltac counts :=
  simpl;
  rewrite ?count_snoc, ?count_mutating_cancelled, ?count_mutating_detached;
  simpl.

Ltac finish :=
  repeat case_match; simplify_eq/=; counts; try congruence; try lia.

(** *** The comment flag *)

Lemma event_single_flight s e s1 out :
  single_flight s → event s e = Some (s1, out) → single_flight s1.
Proof.
  unfold single_flight, outstanding. intros HI H.
  destruct e as [| | | c | text | a | live r | live r | pid o r | q o r | o r];
    simpl in H.
  - by simplify_eq.
  - state_of H. effects.
    finish.
  - state_of H. effects. finish.
  - state_of H. effects.
    finish.
  - by simplify_eq.
  - destruct (UseOwner.auth a (owner s) (inflight s)) as [[[o' l'] out']|] eqn:E;
      [| done]. simpl in H. simplify_eq. simpl.
    by rewrite (auth_flights _ _ _ _ _ _ (mutating is_comment_insert) E).
  - destruct (receive _ s) as [s'|] eqn:E; [| done]. simpl in H.
    apply receive_spec in E as (l & E & ->).
    apply (count_answered (mutating is_comment_insert)) in E. simpl in E.
    state_of H. effects.
    finish.
  - destruct (receive _ s) as [s'|] eqn:E; [| done]. simpl in H.
    apply receive_spec in E as (l & E & ->).
    apply (count_answered (mutating is_comment_insert)) in E. simpl in E.
    state_of H. effects.
    finish.
  - destruct (receive _ s) as [s'|] eqn:E; [| done]. simpl in H.
    apply receive_spec in E as (l & E & ->).
    apply (count_answered (mutating is_comment_insert)) in E. simpl in E.
    state_of H. effects.
    finish.
  - destruct (is_comment_insert q) eqn:Hq; [| done].
    destruct (receive _ s) as [s'|] eqn:E; [| done]. simpl in H.
    apply receive_spec in E as (l & E & ->).
    apply (count_answered (mutating is_comment_insert)) in E. simpl in E.
    rewrite Hq in E.
    state_of H. effects.
    finish.
  - destruct (receive _ s) as [s'|] eqn:E; [| done]. simpl in H.
    apply receive_spec in E as (l & E & ->).
    apply (count_answered (mutating is_comment_insert)) in E. simpl in E.
    state_of H. effects.
    finish.
Qed.

Lemma step_single_flight s e s' out :
  single_flight s → step s e = Some (s', out) → single_flight s'.
Proof.
  intros HI H. apply step_event in H as (_ & s1 & H & ->).
  pose proof (event_single_flight _ _ _ _ HI H) as H1.
  unfold single_flight in *. rewrite outstanding_flush.
  by destruct (flush_keeps s s1) as (_&_&_&->&_).
Qed.

Lemma run_single_flight events : ∀ s s' out,
  single_flight s → run s events = Some (s', out) → single_flight s'.
Proof.
  induction events as [|e rest IH]; intros s s' out HI H; simpl in H.
  - by simplify_eq.
  - destruct (step s e) as [[s1 out1]|] eqn:E1; [| done]. simpl in H.
    destruct (run s1 rest) as [[s2 out2]|] eqn:E2; [| done]. simpl in H.
    simplify_eq. eapply IH; [| exact E2]. by eapply step_single_flight.
Qed.

Lemma mount_single_flight i : single_flight (mount i).
Proof. unfold single_flight, outstanding, mount. simpl. by destruct (truthy i). Qed.

Lemma handleCommentSubmit_submitting s :
  isSubmittingComment s = true → handleCommentSubmit s = (s, []).
Proof.
  intros H. unfold handleCommentSubmit. rewrite H.
  by rewrite orb_true_r.
Qed.

Lemma handleUpvote_pending s :
  upvoteMutation_isPending (view s) = true → handleUpvote s = (s, []).
Proof. intros H. unfold handleUpvote. by rewrite H. Qed.

Lemma user_action_sends_at_most_one s e s' out :
  user_action e = true → step s e = Some (s', out) → length out ≤ 1.
Proof.
  intros He H. apply step_event in H as (_ & s1 & H & _).
  destruct e; try discriminate He; simpl in H;
    out_of H; effects; repeat case_match; simpl; lia.
Qed.

Ltac tally :=
  simpl;
  rewrite ?count_snoc, ?count_mutating_cancelled, ?count_mutating_detached,
    ?count_unobserved_cancelled;
  simpl.

Ltac settle :=
  try congruence;
  repeat split; intros; try congruence; try lia; auto.

Lemma comment_not_upvote q : is_comment_insert q = true → is_upvote q = false.
Proof. by destruct q. Qed.

Lemma comment_not_delete q : is_comment_insert q = true → is_delete q = false.
Proof. by destruct q. Qed.

Lemma upvote_not_comment q : is_upvote q = true → is_comment_insert q = false.
Proof. by destruct q. Qed.

Lemma upvote_not_delete q : is_upvote q = true → is_delete q = false.
Proof. by destruct q. Qed.

Lemma delete_not_upvote q : is_delete q = true → is_upvote q = false.
Proof. by destruct q. Qed.

Lemma delete_not_comment q : is_delete q = true → is_comment_insert q = false.
Proof. by destruct q. Qed.

(** What an event that is no call of the upvote handler and no answer to
    an upvote does to the upvotes in flight: nothing. *)
Lemma event_upvote_in_order s e s1 out since :
  upvote_in_order since s → (calls_upvote e && since = false) →
  event s e = Some (s1, out) →
  outstanding is_upvote s1 = (if upvotePending s1 then 1 else 0)
  ∧ count (unobserved is_upvote) (inflight s1) = 0
  ∧ (since_render calls_upvote since e = false → upvotePending s1 = true
     → upvoteMutation_isPending (view s1) = true).
Proof.
  unfold upvote_in_order, outstanding. intros (HI & HU & HV) Hsince H.
  destruct e as [| | | c | text | a | live r | live r | pid o r | q o r | o r];
    simpl in H, Hsince.
  - state_of H. done.
  - state_of H. simpl. effects.
    destruct (upvoteMutation_isPending (view s)) eqn:Ev; simpl; [done |].
    destruct (bool_decide _); simpl; [| done].
    assert (Hp : upvotePending s = false).
    { destruct (upvotePending s); [| done]. by specialize (HV eq_refl eq_refl). }
    rewrite Hp in HI. rewrite (detached_none _ _ HI).
    repeat case_match; simplify_eq/=; tally; rewrite ?HI, ?HU; settle.
  - state_of H. effects.
    repeat case_match; simplify_eq/=; tally;
      rewrite ?(count_unobserved_detached_other is_upvote is_comment_insert)
        by apply upvote_not_comment; settle.
  - state_of H. effects.
    repeat case_match; simplify_eq/=; tally;
      rewrite ?(count_unobserved_detached_other is_upvote is_delete)
        by apply upvote_not_delete; settle.
  - state_of H. done.
  - destruct (UseOwner.auth a (owner s) (inflight s)) as [[[o' l'] out']|] eqn:E;
      [| done]. simpl in H. simplify_eq. simpl.
    rewrite (auth_flights _ _ _ _ _ _ (mutating is_upvote) E) by done.
    by rewrite (auth_flights _ _ _ _ _ _ (unobserved is_upvote) E).
  - destruct (receive _ s) as [s'|] eqn:E; [| done]. simpl in H.
    apply receive_spec in E as (l & E & ->).
    pose proof (count_answered (mutating is_upvote) _ _ _ E) as E1.
    pose proof (count_answered (unobserved is_upvote) _ _ _ E) as E2.
    simpl in E1, E2. destruct live; simpl in E2; state_of H; effects;
      repeat case_match; simplify_eq/=; tally; settle.
  - destruct (receive _ s) as [s'|] eqn:E; [| done]. simpl in H.
    apply receive_spec in E as (l & E & ->).
    pose proof (count_answered (mutating is_upvote) _ _ _ E) as E1.
    pose proof (count_answered (unobserved is_upvote) _ _ _ E) as E2.
    simpl in E1, E2. destruct live; simpl in E2; state_of H; effects;
      repeat case_match; simplify_eq/=; tally; settle.
  - destruct (receive _ s) as [s'|] eqn:E; [| done]. simpl in H.
    apply receive_spec in E as (l & E & ->).
    pose proof (count_answered (mutating is_upvote) _ _ _ E) as E1.
    pose proof (count_answered (unobserved is_upvote) _ _ _ E) as E2.
    simpl in E1, E2. destruct o; simpl in E2; [| lia].
    state_of H. effects. destruct (upvotePending s); [| lia].
    repeat case_match; simplify_eq/=; tally; settle.
  - destruct (is_comment_insert q) eqn:Hq; [| done].
    destruct (receive _ s) as [s'|] eqn:E; [| done]. simpl in H.
    apply receive_spec in E as (l & E & ->).
    pose proof (count_answered (mutating is_upvote) _ _ _ E) as E1.
    pose proof (count_answered (unobserved is_upvote) _ _ _ E) as E2.
    simpl in E1. rewrite (comment_not_upvote _ Hq) in E1.
    assert (E3 : unobserved is_upvote (Mutating q o) = false).
    { destruct o; [done |]. simpl. by apply comment_not_upvote. }
    rewrite E3 in E2. state_of H. effects.
    repeat case_match; simplify_eq/=; tally; settle.
  - destruct (receive _ s) as [s'|] eqn:E; [| done]. simpl in H.
    apply receive_spec in E as (l & E & ->).
    pose proof (count_answered (mutating is_upvote) _ _ _ E) as E1.
    pose proof (count_answered (unobserved is_upvote) _ _ _ E) as E2.
    simpl in E1.
    assert (E3 : unobserved is_upvote (Mutating (DeletePost (id s)) o) = false)
      by (by destruct o).
    rewrite E3 in E2. state_of H. effects.
    repeat case_match; simplify_eq/=; tally; settle.
Qed.

Lemma step_upvote_in_order s e s' out since :
  upvote_in_order since s → (calls_upvote e && since = false) →
  step s e = Some (s', out) →
  upvote_in_order (since_render calls_upvote since e) s'.
Proof.
  intros HI Hs H. apply step_event in H as (_ & s1 & H & ->).
  destruct (event_upvote_in_order _ _ _ _ _ HI Hs H) as (H1 & H2 & H3).
  unfold upvote_in_order. rewrite outstanding_flush.
  destruct (flush_keeps s s1) as (_&_&_&_&_&_&->&_&->&_).
  split; [done |]. split; [done |].
  destruct (flush_view s s1) as [-> | ->]; [done | by intros _].
Qed.

Lemma run_upvote_in_order events : ∀ s s' out since,
  upvote_in_order since s → apart calls_upvote since events = true →
  run s events = Some (s', out) → ∃ since', upvote_in_order since' s'.
Proof.
  induction events as [|e rest IH]; intros s s' out since HI Ha H; simpl in H.
  - simplify_eq. eauto.
  - destruct (step s e) as [[s1 out1]|] eqn:E1; [| done]. simpl in H.
    destruct (run s1 rest) as [[s2 out2]|] eqn:E2; [| done]. simpl in H.
    simplify_eq. simpl in Ha. apply andb_true_iff in Ha as [Ha1 Ha2].
    apply negb_true_iff in Ha1.
    eapply IH; [| exact Ha2 | exact E2]. by eapply step_upvote_in_order.
Qed.

Lemma mount_upvote_in_order i : upvote_in_order false (mount i).
Proof. unfold upvote_in_order, outstanding, mount. simpl. by destruct (truthy i). Qed.

(** *** Delete *)

Lemma delete_button_enabled s :
  delete_button s = Some false → deletePostMutation_isPending (view s) = false.
Proof.
  unfold delete_button. destruct (post (view s)); [| done].
  destruct (_ && _); [| done]. by intros [= ->].
Qed.

Lemma event_delete_in_order s e s1 out since :
  delete_in_order since s →
  (calls_delete e = true
   → since = false ∧ deletePostMutation_isPending (view s) = false) →
  event s e = Some (s1, out) →
  outstanding is_delete s1 = (if deletePending s1 then 1 else 0)
  ∧ count (unobserved is_delete) (inflight s1) = 0
  ∧ (since_render calls_delete since e = false → deletePending s1 = true
     → deletePostMutation_isPending (view s1) = true).
Proof.
  unfold delete_in_order, outstanding. intros (HI & HU & HV) Hsince H.
  destruct e as [| | | c | text | a | live r | live r | pid o r | q o r | o r];
    simpl in H, Hsince.
  - state_of H. done.
  - state_of H. effects.
    repeat case_match; simplify_eq/=; tally;
      rewrite ?(count_unobserved_detached_other is_delete is_upvote)
        by apply delete_not_upvote; settle.
  - state_of H. effects.
    repeat case_match; simplify_eq/=; tally;
      rewrite ?(count_unobserved_detached_other is_delete is_comment_insert)
        by apply delete_not_comment; settle.
  - state_of H. destruct (Hsince eq_refl) as [-> Ev]. simpl. effects.
    destruct c; simpl; [| done].
    assert (Hp : deletePending s = false).
    { destruct (deletePending s); [| done].
      specialize (HV eq_refl eq_refl). congruence. }
    rewrite Hp in HI. rewrite (detached_none _ _ HI). tally. rewrite HI, HU. done.
  - state_of H. done.
  - destruct (UseOwner.auth a (owner s) (inflight s)) as [[[o' l'] out']|] eqn:E;
      [| done]. simpl in H. simplify_eq. simpl.
    rewrite (auth_flights _ _ _ _ _ _ (mutating is_delete) E) by done.
    by rewrite (auth_flights _ _ _ _ _ _ (unobserved is_delete) E).
  - destruct (receive _ s) as [s'|] eqn:E; [| done]. simpl in H.
    apply receive_spec in E as (l & E & ->).
    pose proof (count_answered (mutating is_delete) _ _ _ E) as E1.
    pose proof (count_answered (unobserved is_delete) _ _ _ E) as E2.
    simpl in E1, E2. destruct live; simpl in E2; state_of H; effects;
      repeat case_match; simplify_eq/=; tally; settle.
  - destruct (receive _ s) as [s'|] eqn:E; [| done]. simpl in H.
    apply receive_spec in E as (l & E & ->).
    pose proof (count_answered (mutating is_delete) _ _ _ E) as E1.
    pose proof (count_answered (unobserved is_delete) _ _ _ E) as E2.
    simpl in E1, E2. destruct live; simpl in E2; state_of H; effects;
      repeat case_match; simplify_eq/=; tally; settle.
  - destruct (receive _ s) as [s'|] eqn:E; [| done]. simpl in H.
    apply receive_spec in E as (l & E & ->).
    pose proof (count_answered (mutating is_delete) _ _ _ E) as E1.
    pose proof (count_answered (unobserved is_delete) _ _ _ E) as E2.
    simpl in E1.
    assert (E3 : unobserved is_delete (Mutating (RpcIncrementUpvotes pid) o) = false)
      by (by destruct o).
    rewrite E3 in E2. state_of H. effects.
    repeat case_match; simplify_eq/=; tally; settle.
  - destruct (is_comment_insert q) eqn:Hq; [| done].
    destruct (receive _ s) as [s'|] eqn:E; [| done]. simpl in H.
    apply receive_spec in E as (l & E & ->).
    pose proof (count_answered (mutating is_delete) _ _ _ E) as E1.
    pose proof (count_answered (unobserved is_delete) _ _ _ E) as E2.
    simpl in E1. rewrite (comment_not_delete _ Hq) in E1.
    assert (E3 : unobserved is_delete (Mutating q o) = false).
    { destruct o; [done |]. simpl. by apply comment_not_delete. }
    rewrite E3 in E2. state_of H. effects.
    repeat case_match; simplify_eq/=; tally; settle.
  - destruct (receive _ s) as [s'|] eqn:E; [| done]. simpl in H.
    apply receive_spec in E as (l & E & ->).
    pose proof (count_answered (mutating is_delete) _ _ _ E) as E1.
    pose proof (count_answered (unobserved is_delete) _ _ _ E) as E2.
    simpl in E1, E2. destruct o; simpl in E2; [| lia].
    state_of H. effects. destruct (deletePending s); [| lia].
    repeat case_match; simplify_eq/=; tally; settle.
Qed.

Lemma step_delete_in_order s e s' out since :
  delete_in_order since s →
  (calls_delete e = true → since = false ∧ delete_button s = Some false) →
  step s e = Some (s', out) →
  delete_in_order (since_render calls_delete since e) s'.
Proof.
  intros HI Hs H. apply step_event in H as (_ & s1 & H & ->).
  assert (Hs' : calls_delete e = true
                → since = false ∧ deletePostMutation_isPending (view s) = false).
  { intros He. destruct (Hs He) as [? Hb]. split; [done |].
    by apply delete_button_enabled. }
  destruct (event_delete_in_order _ _ _ _ _ HI Hs' H) as (H1 & H2 & H3).
  unfold delete_in_order. rewrite outstanding_flush.
  destruct (flush_keeps s s1) as (_&_&_&_&_&_&_&->&->&_).
  split; [done |]. split; [done |].
  destruct (flush_view s s1) as [-> | ->]; [done | by intros _].
Qed.

Lemma run_delete_in_order events : ∀ s s' out since,
  delete_in_order since s → apart calls_delete since events = true →
  by_button s events = true →
  run s events = Some (s', out) → ∃ since', delete_in_order since' s'.
Proof.
  induction events as [|e rest IH]; intros s s' out since HI Ha Hb H; simpl in H.
  - simplify_eq. eauto.
  - destruct (step s e) as [[s1 out1]|] eqn:E1; [| done]. simpl in H.
    destruct (run s1 rest) as [[s2 out2]|] eqn:E2; [| done]. simpl in H.
    simplify_eq. simpl in Ha, Hb. rewrite E1 in Hb.
    apply andb_true_iff in Ha as [Ha1 Ha2]. apply negb_true_iff in Ha1.
    apply andb_true_iff in Hb as [Hb1 Hb2].
    eapply IH; [| exact Ha2 | exact Hb2 | exact E2].
    eapply step_delete_in_order; [exact HI | | exact E1].
    intros He. rewrite He in Ha1, Hb1. simpl in Ha1. split; [done |].
    by apply bool_decide_eq_true in Hb1.
Qed.

Lemma mount_delete_in_order i : delete_in_order false (mount i).
Proof. unfold delete_in_order, outstanding, mount. simpl. by destruct (truthy i). Qed.

(** *** The post record *)

Lemma event_post_data s e s1 out :
  event s e = Some (s1, out) →
  data (postQ s1) = fetched (data (postQ s)) e ∧ id s1 = id s.
Proof.
  intros H.
  destruct e as [| | | c | text | a | live r | live r | pid o r | q o r | o r];
    simpl in H.
  - state_of H. done.
  - state_of H. effects. repeat case_match; simplify_eq/=; done.
  - state_of H. effects. repeat case_match; simplify_eq/=; done.
  - state_of H. effects. repeat case_match; simplify_eq/=; done.
  - state_of H. done.
  - destruct (UseOwner.auth a (owner s) (inflight s)) as [[[o' l'] out']|];
      [| done]. simpl in H. by simplify_eq.
  - destruct (receive _ s) as [s'|] eqn:E; [| done]. simpl in H.
    apply receive_spec in E as (l & E & ->). state_of H. effects.
    repeat case_match; simplify_eq/=; done.
  - destruct (receive _ s) as [s'|] eqn:E; [| done]. simpl in H.
    apply receive_spec in E as (l & E & ->). state_of H. effects.
    repeat case_match; simplify_eq/=; done.
  - destruct (receive _ s) as [s'|] eqn:E; [| done]. simpl in H.
    apply receive_spec in E as (l & E & ->). state_of H. effects.
    repeat case_match; simplify_eq/=; done.
  - destruct (is_comment_insert q); [| done].
    destruct (receive _ s) as [s'|] eqn:E; [| done]. simpl in H.
    apply receive_spec in E as (l & E & ->). state_of H. effects.
    repeat case_match; simplify_eq/=; done.
  - destruct (receive _ s) as [s'|] eqn:E; [| done]. simpl in H.
    apply receive_spec in E as (l & E & ->). state_of H. effects.
    repeat case_match; simplify_eq/=; done.
Qed.

Lemma step_post_data s e s' out :
  step s e = Some (s', out) →
  data (postQ s') = fetched (data (postQ s)) e ∧ id s' = id s.
Proof.
  intros H. apply step_event in H as (_ & s1 & H & ->).
  destruct (flush_keeps s s1) as (->&_&_&_&->&_).
  by eapply event_post_data.
Qed.


(** An event leaves the last render as it was or renders the state it
    leads to. *)
Lemma event_view s e s1 out :
  event s e = Some (s1, out) → view s1 = view s ∨ view s1 = render s1.
Proof.
  intros H.
  destruct e as [| | | c | text | a | live r | live r | pid o r | q o r | o r];
    simpl in H.
  - state_of H. by right.
  - state_of H. left. effects. repeat case_match; simplify_eq/=; done.
  - state_of H. left. effects. repeat case_match; simplify_eq/=; done.
  - state_of H. left. effects. repeat case_match; simplify_eq/=; done.
  - state_of H. by left.
  - destruct (UseOwner.auth a (owner s) (inflight s)) as [[[o' l'] out']|];
      [| done]. simpl in H. simplify_eq. by left.
  - destruct (receive _ s) as [s'|] eqn:E; [| done]. simpl in H.
    apply receive_spec in E as (l & E & ->). state_of H. left. effects.
    repeat case_match; simplify_eq/=; done.
  - destruct (receive _ s) as [s'|] eqn:E; [| done]. simpl in H.
    apply receive_spec in E as (l & E & ->). state_of H. left. effects.
    repeat case_match; simplify_eq/=; done.
  - destruct (receive _ s) as [s'|] eqn:E; [| done]. simpl in H.
    apply receive_spec in E as (l & E & ->). state_of H. left. effects.
    repeat case_match; simplify_eq/=; done.
  - destruct (is_comment_insert q); [| done].
    destruct (receive _ s) as [s'|] eqn:E; [| done]. simpl in H.
    apply receive_spec in E as (l & E & ->). state_of H. left. effects.
    repeat case_match; simplify_eq/=; done.
  - destruct (receive _ s) as [s'|] eqn:E; [| done]. simpl in H.
    apply receive_spec in E as (l & E & ->). state_of H. left. effects.
    repeat case_match; simplify_eq/=; done.
Qed.

Lemma step_view_post s e s' out :
  step s e = Some (s', out) →
  post (view s') = post (view s) ∨ post (view s') = data (postQ s').
Proof.
  intros H. apply step_event in H as (_ & s1 & H & ->).
  destruct (flush_keeps s s1) as (_&_&_&_&->&_).
  destruct (flush_view s s1) as [-> | ->]; [| by right].
  destruct (event_view _ _ _ _ H) as [-> | ->]; [by left | by right].
Qed.






Lemma handleUpvote_sends s :
  (handleUpvote s).2 = []
  ∨ ∃ p, post (view s) = Some p
         ∧ (handleUpvote s).2 = [RpcIncrementUpvotes (Supabase.id p)].
Proof.
  unfold handleUpvote. destruct (upvoteMutation_isPending (view s)); simpl; [by left |].
  unfold upvote_mutationFn. simpl.
  destruct (post (view s)) as [p|] eqn:E; simpl; [| by left].
  destruct (truthy_opt _); simpl; [| by left].
  right. by exists p.
Qed.


(** *** Failures *)


(** What the page sends when no handler is called: selects of its own
    post and comments, and the anonymous sign-in that follows a session
    without a user. *)
Lemma network_event_sends s e s' out q :
  user_action e = false → step s e = Some (s', out) → q ∈ out →
  q = SelectPost (id s) ∨ q = SelectComments (id s)
  ∨ q = SignInAnonymously
    ∧ e = Auth (UseOwner.SessionReplied (UseOwner.SessionReturned None)).
Proof.
  intros He H Hq. apply step_event in H as (_ & s1 & H & _).
  destruct e as [| | | c | text | a | live r | live r | pid o r | q' o r | o r];
    try discriminate He; simpl in H.
  - out_of H. by apply elem_of_nil in Hq.
  - destruct (UseOwner.auth a (owner s) (inflight s)) as [[[o' l'] out']|] eqn:E;
      [| done]. simpl in H. simplify_eq.
    destruct (auth_out _ _ _ _ _ _ E) as [[-> | [-> ->]] _].
    + by apply elem_of_nil in Hq.
    + apply list_elem_of_singleton in Hq as ->. auto.
  - destruct (receive _ s) as [s0|] eqn:E; [| done]. simpl in H.
    apply receive_spec in E as (l & E & ->). out_of H. revert Hq. effects.
    repeat case_match; simpl; rewrite ?list_elem_of_singleton; intros Hq;
      try (by apply elem_of_nil in Hq); auto.
  - destruct (receive _ s) as [s0|] eqn:E; [| done]. simpl in H.
    apply receive_spec in E as (l & E & ->). out_of H. revert Hq. effects.
    repeat case_match; simpl; rewrite ?list_elem_of_singleton; intros Hq;
      try (by apply elem_of_nil in Hq); auto.
  - destruct (receive _ s) as [s0|] eqn:E; [| done]. simpl in H.
    apply receive_spec in E as (l & E & ->). out_of H. revert Hq. effects.
    repeat case_match; simpl; rewrite ?list_elem_of_singleton; intros Hq;
      try (by apply elem_of_nil in Hq); auto.
  - destruct (is_comment_insert q'); [| done].
    destruct (receive _ s) as [s0|] eqn:E; [| done]. simpl in H.
    apply receive_spec in E as (l & E & ->). out_of H. revert Hq. effects.
    repeat case_match; simpl; rewrite ?list_elem_of_singleton; intros Hq;
      try (by apply elem_of_nil in Hq); auto.
  - destruct (receive _ s) as [s0|] eqn:E; [| done]. simpl in H.
    apply receive_spec in E as (l & E & ->). out_of H. revert Hq. effects.
    repeat case_match; simpl; rewrite ?list_elem_of_singleton; intros Hq;
      try (by apply elem_of_nil in Hq); auto.
Qed.

Lemma handleCommentSubmit_out s :
  (handleCommentSubmit s).2 =
    if truthy (trim (newComment s)) && negb (isSubmittingComment s)
    then match userId s with
         | Some u => if truthy u
                     then [InsertComment (trim (newComment s)) u (id s)] else []
         | None => []
         end
    else [].
Proof.
  effects. unfold userId.
  destruct (truthy (trim (newComment s))); simpl; [| done].
  destruct (isSubmittingComment s); simpl; [done |].
  destruct (UseOwner.userId (owner s)) as [u|]; [| done].
  by destruct (truthy u).
Qed.

Lemma handleDelete_out c s :
  (handleDelete c s).2 = if c then [DeletePost (id s)] else [].
Proof. unfold handleDelete. by destruct c. Qed.

End PostPageFacts.

(** ** The create page machine *)

Section CreatePageFacts.
Import Wire CreatePost.
Context (isUrl : jsstring → bool).

Ltac state_of H :=
  apply (f_equal (fmap (M:=option) fst)) in H; simpl in H; injection H as H; subst.

Ltac out_of H :=
  apply (f_equal (fmap (M:=option) snd)) in H; simpl in H; injection H as H; subst.

(** The mutation function of the page and the one run against the remote
    side make the same call. *)
Lemma started_call platform u d r :
  calls (mutationFn isUrl platform u d r).2
  = calls r ++ match started isUrl u d with Some q => [q] | None => [] end.
Proof.
  unfold mutationFn, started. destruct (createPostSchema _ _); simpl.
  - unfold insert_post. by destruct (on_insert _ _ _ _) as [m | [row table]].
  - by rewrite app_nil_r.
Qed.



Lemma create_user_action_sends s e s' out :
  user_action e = true → step isUrl s e = Some (s', out) →
  length out ≤ 1
  ∧ (e = Retry → out = [GetSession])
  ∧ (∀ q, q ∈ out → e = HandleSubmit → is_insert q = true).
Proof.
  intros He H. destruct e as [f | | | a | q' o r]; try discriminate He; simpl in H.
  - out_of H. simpl. split; [lia |]. split; [done |]. by intros q ?%elem_of_nil.
  - out_of H. unfold submitted, started, send, quiet.
    repeat case_match; simplify_eq/=; (split; [lia |]); (split; [done |]);
      intros q Hq; try (by apply elem_of_nil in Hq);
      by apply list_elem_of_singleton in Hq as ->.
  - out_of H. simpl. split; [lia |]. split; [done |]. by intros q ? [=].
Qed.

Lemma create_step_in_order s e s' out :
  submit_in_order s ∧ auth_in_order (owner s) (inflight s) →
  (e = HandleSubmit → submit_disabled s = false) →
  (e = Retry → retry_shown s = true) →
  step isUrl s e = Some (s', out) →
  submit_in_order s' ∧ auth_in_order (owner s') (inflight s').
Proof.
  unfold submit_in_order, outstanding, submit_disabled, retry_shown.
  intros [[HI1 HI2] HA] Hs Hr H.
  destruct e as [f | | | a | q o r]; simpl in H.
  - state_of H. done.
  - state_of H. specialize (Hs eq_refl). pose proof (HI1 Hs) as H0.
    unfold submitted, send, quiet.
    destruct (handleSubmit _ _); [| done].
    simpl. rewrite (detached_none _ _ H0).
    destruct (started _ _ _) as [q|]; simpl; rewrite ?count_snoc; simpl.
    + split; [split; [done | destruct (is_insert q); lia] |].
      eapply auth_in_order_flights; [| | exact HA]; by rewrite count_snoc.
    + split; [split; [done | lia] | done].
  - state_of H. specialize (Hr eq_refl). split.
    + simpl. rewrite !count_snoc. simpl. split; [intros ?| ]; rewrite ?Nat.add_0_r; auto.
    + by apply auth_in_order_retry.
  - destruct (auth a (owner s) (inflight s)) as [[[o' l'] out']|] eqn:E; [| done].
    simpl in H. simplify_eq. simpl.
    rewrite (auth_flights _ _ _ _ _ _ (mutating is_insert) E) by done.
    split; [done |]. by eapply auth_in_order_step.
  - destruct (is_insert q) eqn:Hq; [| done].
    destruct (answered _ _) as [l|] eqn:E; [| done]. simpl in H.
    pose proof (count_answered (mutating is_insert) _ _ _ E) as E1.
    pose proof (count_answered checking _ _ _ E) as E2.
    pose proof (count_answered retrying _ _ _ E) as E3.
    simpl in E1, E2, E3. rewrite Hq in E1.
    state_of H. destruct r as [m | p]; simpl;
      (split; [split; [intros; lia | lia] |]);
      (eapply auth_in_order_flights; [| | exact HA]; lia).
Qed.

Lemma create_run_in_order events : ∀ s s' out,
  submit_in_order s ∧ auth_in_order (owner s) (inflight s) →
  by_button isUrl s events = true →
  run isUrl s events = Some (s', out) →
  submit_in_order s' ∧ auth_in_order (owner s') (inflight s').
Proof.
  induction events as [|e rest IH]; intros s s' out HI Hb H; simpl in H.
  - by simplify_eq.
  - destruct (step isUrl s e) as [[s1 out1]|] eqn:E1; [| done]. simpl in H.
    destruct (run isUrl s1 rest) as [[s2 out2]|] eqn:E2; [| done]. simpl in H.
    simplify_eq. simpl in Hb. rewrite E1 in Hb.
    apply andb_true_iff in Hb as [Hb1 Hb2].
    eapply IH; [| exact Hb2 | exact E2].
    eapply create_step_in_order; [exact HI | | | exact E1].
    + intros ->. by apply negb_true_iff in Hb1.
    + by intros ->.
Qed.

Lemma create_mount_in_order :
  submit_in_order mount ∧ auth_in_order (owner mount) (inflight mount).
Proof.
  split; [| apply auth_in_order_mounted].
  unfold submit_in_order, outstanding. simpl. unfold count. simpl. split; [done | lia].
Qed.

End CreatePageFacts.

(** ** The edit page machine *)

Section EditPageFacts.
Import Wire ReactQuery EditPost.
Context (isUrl : jsstring → bool).

Ltac state_of H :=
  apply (f_equal (fmap (M:=option) fst)) in H; simpl in H; injection H as H; subst.

Ltac out_of H :=
  apply (f_equal (fmap (M:=option) snd)) in H; simpl in H; injection H as H; subst.

Ltac effects :=
  unfold submitted, started, handleDelete, update_onSuccess, update_onError,
    delete_onSuccess, delete_settled, post_replied, invalidate_post, send, quiet.

Ltac tally :=
  simpl;
  rewrite ?count_snoc, ?count_mutating_cancelled, ?count_mutating_detached,
    ?count_unobserved_cancelled;
  simpl.

Ltac settle :=
  try congruence;
  repeat split; intros; rewrite ?Nat.add_0_r; try congruence;
  repeat match goal with
         | Hi : ?P → _, Hp : ?P |- _ => specialize (Hi Hp)
         end;
  try lia; auto.

Lemma edit_started_call platform i d r :
  calls (mutationFn isUrl platform i d r).2
  = calls r ++ match started isUrl i d with Some q => [q] | None => [] end.
Proof.
  unfold mutationFn, started. destruct (createPostSchema _ _); simpl.
  - unfold update_post. by destruct (on_update _ _ _ _) as [m | table].
  - by rewrite app_nil_r.
Qed.

Lemma edit_step_event s e s' out :
  step isUrl s e = Some (s', out) →
  navigated s = false
  ∧ ∃ eff, event isUrl s e = Some eff ∧ (s', out) = flush s eff.
Proof.
  unfold step. destruct (navigated s); [done |].
  destruct (event isUrl s e) as [eff|]; [| done].
  simpl. intros [= H]. eauto.
Qed.

Lemma edit_receive_spec f s s' :
  receive f s = Some s' →
  ∃ l, answered f (inflight s) = Some l ∧ s' = set_inflight l s.
Proof.
  unfold receive. destruct (answered f (inflight s)) as [l|]; [| done].
  simpl. intros [= <-]. eauto.
Qed.

(** A render changes the query, the form and the view, and sends at most
    the select of the query it enables. *)
Lemma edit_rendered_keeps s :
  id (rendered s).1 = id s ∧ owner (rendered s).1 = owner s
  ∧ isSubmitting (rendered s).1 = isSubmitting s
  ∧ deletePending (rendered s).1 = deletePending s
  ∧ navigated (rendered s).1 = navigated s
  ∧ failureCount (postQ (rendered s).1)
    = (if bool_decide ((rendered s).2 = []) then failureCount (postQ s) else 0)
  ∧ (∀ kind, count (mutating kind) (inflight (rendered s).1)
             = count (mutating kind) (inflight s))
  ∧ (∀ kind, count (unobserved kind) (inflight (rendered s).1)
             = count (unobserved kind) (inflight s))
  ∧ enabled (view (rendered s).1) = enabled_now (rendered s).1
  ∧ deletePostMutation_isPending (view (rendered s).1) = deletePending s
  ∧ ((rendered s).2 = []
     ∨ (rendered s).2 = [SelectPost (id s)] ∧ enabled (view s) = false).
Proof.
  unfold rendered, send, quiet.
  destruct (enabled_now s && negb (enabled (view s)) && negb (fetching s)) eqn:E;
    simpl; destruct (data (postQ s)) as [p|]; try case_decide; simpl;
    repeat split; intros; rewrite ?count_snoc; simpl; auto with lia.
  all: right; split; [done |];
    apply andb_true_iff in E as [E _]; apply andb_true_iff in E as [_ E];
    by apply negb_true_iff in E.
Qed.

Lemma edit_rendered_in_order s :
  enabled (view s) = enabled_now s → (rendered s).2 = [].
Proof.
  intros H. unfold rendered. rewrite H.
  destruct (enabled_now s); simpl; by destruct (data (postQ s)); try case_decide.
Qed.

Lemma edit_flush_cases s s1 out1 s' out :
  (s', out) = flush s (s1, out1) →
  s' = s1 ∧ out = out1 ∧ local s1 = local s
  ∨ s' = (rendered s1).1 ∧ out = out1 ++ (rendered s1).2.
Proof.
  unfold flush. simpl. case_decide; intros [= -> ->]; auto.
Qed.

(** What an event leaves as it was. *)
Lemma edit_event_frame s e s1 out1 :
  event isUrl s e = Some (s1, out1) →
  id s1 = id s
  ∧ (e = Render ∨ view s1 = view s)
  ∧ ((∃ a, e = Auth a) ∨ owner s1 = owner s).
Proof.
  intros H.
  destruct e as [| f | | c | a | live r | q o r | o r]; simpl in H.
  - destruct (edit_rendered_keeps s) as (? & ? & _). state_of H. auto.
  - state_of H. auto.
  - state_of H. effects. repeat case_match; simplify_eq/=; auto.
  - state_of H. effects. repeat case_match; simplify_eq/=; auto.
  - destruct (auth a (owner s) (inflight s)) as [[[o' l'] out']|]; [| done].
    simpl in H. simplify_eq. simpl. split; [done |]. split; [by right | eauto].
  - destruct (receive _ s) as [s0|] eqn:E; [| done]. simpl in H.
    apply edit_receive_spec in E as (l & E & ->). state_of H. effects.
    repeat case_match; simplify_eq/=; auto.
  - destruct (is_update q); [| done].
    destruct (receive _ s) as [s0|] eqn:E; [| done]. simpl in H.
    apply edit_receive_spec in E as (l & E & ->). state_of H. effects.
    repeat case_match; simplify_eq/=; auto.
  - destruct (receive _ s) as [s0|] eqn:E; [| done]. simpl in H.
    apply edit_receive_spec in E as (l & E & ->). state_of H. effects.
    repeat case_match; simplify_eq/=; auto.
Qed.

Lemma edit_step_enabled s e s' out :
  enabled_in_order s → step isUrl s e = Some (s', out) → enabled_in_order s'.
Proof.
  unfold enabled_in_order. intros HI H.
  apply edit_step_event in H as (_ & [s1 out1] & H & Hf).
  apply edit_flush_cases in Hf as [(-> & -> & Hl) | (-> & ->)];
    [| by destruct (edit_rendered_keeps s1) as (_&_&_&_&_&_&_&_&?&_)].
  destruct (edit_event_frame _ _ _ _ H) as (Hid & Hv & Ho).
  destruct Hv as [-> | Hv].
  - simpl in H. state_of H.
    by destruct (edit_rendered_keeps s) as (_&_&_&_&_&_&_&_&?&_).
  - rewrite Hv, HI. unfold enabled_now. rewrite Hid.
    assert (owner s1 = owner s) as -> by (unfold local in Hl; congruence). done.
Qed.

(** *** Failures *)



Lemma edit_user_action_sends s e s' out :
  enabled_in_order s →
  user_action e = true → step isUrl s e = Some (s', out) → length out ≤ 1.
Proof.
  unfold enabled_in_order. intros HI He H.
  apply edit_step_event in H as (_ & [s1 out1] & H & Hfl).
  destruct (edit_event_frame _ _ _ _ H) as (Hid & Hv & Ho).
  assert (Hr : (rendered s1).2 = []).
  { apply edit_rendered_in_order.
    destruct Hv as [-> | Hv]; [done |]. destruct Ho as [[a ->] | Ho]; [done |].
    rewrite Hv, HI. unfold enabled_now. by rewrite Hid, Ho. }
  assert (length out1 ≤ 1).
  { destruct e; try discriminate He; simpl in H; out_of H; effects;
      repeat case_match; simpl; lia. }
  apply edit_flush_cases in Hfl as [(_ & -> & _) | (_ & ->)];
    rewrite ?Hr, ?app_nil_r; done.
Qed.

Lemma edit_run_enabled events : ∀ s s' out,
  enabled_in_order s → run isUrl s events = Some (s', out) → enabled_in_order s'.
Proof.
  induction events as [|e rest IH]; intros s s' out HI H; simpl in H.
  - by simplify_eq.
  - destruct (step isUrl s e) as [[s1 out1]|] eqn:E1; [| done]. simpl in H.
    destruct (run isUrl s1 rest) as [[s2 out2]|] eqn:E2; [| done]. simpl in H.
    simplify_eq. eapply IH; [| exact E2]. by eapply edit_step_enabled.
Qed.

Lemma edit_mount_enabled i : enabled_in_order (mount i).
Proof.
  unfold enabled_in_order, enabled_now, mount. simpl. by rewrite andb_false_r.
Qed.

(** *** Submissions *)

Lemma update_not_delete q : is_update q = true → is_delete q = false.
Proof. by destruct q. Qed.

Lemma delete_not_update q : is_delete q = true → is_update q = false.
Proof. by destruct q. Qed.

Lemma edit_event_submit s e s1 out1 :
  submit_in_order s → (e = HandleSubmit → isSubmitting s = false) →
  event isUrl s e = Some (s1, out1) → submit_in_order s1.
Proof.
  unfold submit_in_order, outstanding. intros [HI1 HI2] Hs H.
  destruct e as [| f | | c | a | live r | q o r | o r]; simpl in H.
  - state_of H.
    destruct (edit_rendered_keeps s) as (_&_&->&_&_&_&->&_). done.
  - state_of H. done.
  - state_of H. specialize (Hs eq_refl). pose proof (HI1 Hs) as H0. effects.
    simpl. rewrite (detached_none _ _ H0).
    repeat case_match; simplify_eq/=; tally; settle.
  - state_of H. effects. repeat case_match; simplify_eq/=; tally; settle.
  - destruct (auth a (owner s) (inflight s)) as [[[o' l'] out']|] eqn:E; [| done].
    simpl in H. simplify_eq. simpl.
    by rewrite (auth_flights _ _ _ _ _ _ (mutating is_update) E).
  - destruct (receive _ s) as [s0|] eqn:E; [| done]. simpl in H.
    apply edit_receive_spec in E as (l & E & ->).
    pose proof (count_answered (mutating is_update) _ _ _ E) as E1. simpl in E1.
    state_of H. effects. repeat case_match; simplify_eq/=; tally; settle.
  - destruct (is_update q) eqn:Hq; [| done].
    destruct (receive _ s) as [s0|] eqn:E; [| done]. simpl in H.
    apply edit_receive_spec in E as (l & E & ->).
    pose proof (count_answered (mutating is_update) _ _ _ E) as E1. simpl in E1.
    rewrite Hq in E1.
    state_of H. effects. repeat case_match; simplify_eq/=; tally; settle.
  - destruct (receive _ s) as [s0|] eqn:E; [| done]. simpl in H.
    apply edit_receive_spec in E as (l & E & ->).
    pose proof (count_answered (mutating is_update) _ _ _ E) as E1. simpl in E1.
    state_of H. effects. repeat case_match; simplify_eq/=; tally; settle.
Qed.

Lemma submit_button_enabled s : submit_button s = Some false → isSubmitting s = false.
Proof. unfold submit_button. destruct (shows_form s); [| done]. by intros [= ->]. Qed.

Lemma edit_delete_button_enabled s :
  delete_button s = Some false → deletePostMutation_isPending (view s) = false.
Proof. unfold delete_button. destruct (shows_form s); [| done]. by intros [= ->]. Qed.

Lemma edit_step_submit s e s' out :
  submit_in_order s → (e = HandleSubmit → submit_button s = Some false) →
  step isUrl s e = Some (s', out) → submit_in_order s'.
Proof.
  intros HI Hs H. apply edit_step_event in H as (_ & [s1 out1] & H & Hfl).
  assert (H1 : submit_in_order s1).
  { eapply edit_event_submit; [exact HI | | exact H].
    intros He. by apply submit_button_enabled, Hs. }
  apply edit_flush_cases in Hfl as [(-> & _) | (-> & _)]; [done |].
  unfold submit_in_order, outstanding in *.
  by destruct (edit_rendered_keeps s1) as (_&_&->&_&_&_&->&_).
Qed.

Lemma edit_run_submit events : ∀ s s' out,
  submit_in_order s → by_button isUrl s events = true →
  run isUrl s events = Some (s', out) → submit_in_order s'.
Proof.
  induction events as [|e rest IH]; intros s s' out HI Hb H; simpl in H.
  - by simplify_eq.
  - destruct (step isUrl s e) as [[s1 out1]|] eqn:E1; [| done]. simpl in H.
    destruct (run isUrl s1 rest) as [[s2 out2]|] eqn:E2; [| done]. simpl in H.
    simplify_eq. simpl in Hb. rewrite E1 in Hb.
    apply andb_true_iff in Hb as [Hb1 Hb2].
    eapply IH; [| exact Hb2 | exact E2].
    eapply edit_step_submit; [exact HI | | exact E1].
    intros ->. by apply bool_decide_eq_true in Hb1.
Qed.

Lemma edit_mount_submit i : submit_in_order (mount i).
Proof. unfold submit_in_order, outstanding, mount, count. simpl. split; [done | lia]. Qed.

(** *** Delete *)

Lemma edit_event_delete s e s1 out1 since :
  delete_in_order since s →
  (calls_delete e = true
   → since = false ∧ deletePostMutation_isPending (view s) = false) →
  event isUrl s e = Some (s1, out1) →
  outstanding is_delete s1 = (if deletePending s1 then 1 else 0)
  ∧ count (unobserved is_delete) (inflight s1) = 0
  ∧ (since_render since e = false → deletePending s1 = true
     → deletePostMutation_isPending (view s1) = true).
Proof.
  unfold delete_in_order, outstanding. intros (HI & HU & HV) Hsince H.
  destruct e as [| f | | c | a | live r | q o r | o r]; simpl in H, Hsince.
  - state_of H.
    destruct (edit_rendered_keeps s) as (_&_&_&->&_&_&->&->&_&->&_). done.
  - state_of H. done.
  - state_of H. effects.
    repeat case_match; simplify_eq/=; tally;
      rewrite ?(count_unobserved_detached_other is_delete is_update)
        by apply delete_not_update; settle.
  - state_of H. destruct (Hsince eq_refl) as [-> Ev]. simpl. effects.
    destruct c; simpl; [| done].
    assert (Hp : deletePending s = false).
    { destruct (deletePending s); [| done].
      specialize (HV eq_refl eq_refl). congruence. }
    rewrite Hp in HI. rewrite (detached_none _ _ HI). tally. rewrite HI, HU. done.
  - destruct (auth a (owner s) (inflight s)) as [[[o' l'] out']|] eqn:E; [| done].
    simpl in H. simplify_eq. simpl.
    rewrite (auth_flights _ _ _ _ _ _ (mutating is_delete) E) by done.
    by rewrite (auth_flights _ _ _ _ _ _ (unobserved is_delete) E).
  - destruct (receive _ s) as [s0|] eqn:E; [| done]. simpl in H.
    apply edit_receive_spec in E as (l & E & ->).
    pose proof (count_answered (mutating is_delete) _ _ _ E) as E1.
    pose proof (count_answered (unobserved is_delete) _ _ _ E) as E2.
    simpl in E1, E2. destruct live; simpl in E2; state_of H; effects;
      repeat case_match; simplify_eq/=; tally; settle.
  - destruct (is_update q) eqn:Hq; [| done].
    destruct (receive _ s) as [s0|] eqn:E; [| done]. simpl in H.
    apply edit_receive_spec in E as (l & E & ->).
    pose proof (count_answered (mutating is_delete) _ _ _ E) as E1.
    pose proof (count_answered (unobserved is_delete) _ _ _ E) as E2.
    simpl in E1. rewrite (update_not_delete _ Hq) in E1.
    assert (E3 : unobserved is_delete (Mutating q o) = false).
    { destruct o; [done |]. simpl. by apply update_not_delete. }
    rewrite E3 in E2. state_of H. effects.
    repeat case_match; simplify_eq/=; tally; settle.
  - destruct (receive _ s) as [s0|] eqn:E; [| done]. simpl in H.
    apply edit_receive_spec in E as (l & E & ->).
    pose proof (count_answered (mutating is_delete) _ _ _ E) as E1.
    pose proof (count_answered (unobserved is_delete) _ _ _ E) as E2.
    simpl in E1, E2. destruct o; simpl in E2; [| lia].
    state_of H. effects. destruct (deletePending s); [| lia].
    repeat case_match; simplify_eq/=; tally; settle.
Qed.

Lemma edit_step_delete s e s' out since :
  delete_in_order since s →
  (calls_delete e = true → since = false ∧ delete_button s = Some false) →
  step isUrl s e = Some (s', out) →
  delete_in_order (since_render since e) s'.
Proof.
  intros HI Hs H. apply edit_step_event in H as (_ & [s1 out1] & H & Hfl).
  assert (Hs' : calls_delete e = true
                → since = false ∧ deletePostMutation_isPending (view s) = false).
  { intros He. destruct (Hs He) as [? Hb]. split; [done |].
    by apply edit_delete_button_enabled. }
  destruct (edit_event_delete _ _ _ _ _ HI Hs' H) as (H1 & H2 & H3).
  apply edit_flush_cases in Hfl as [(-> & _) | (-> & _)]; [done |].
  unfold delete_in_order, outstanding in *.
  destruct (edit_rendered_keeps s1) as (_&_&_&->&_&_&->&->&_&->&_). done.
Qed.

Lemma edit_run_delete events : ∀ s s' out since,
  delete_in_order since s → apart since events = true →
  by_button isUrl s events = true →
  run isUrl s events = Some (s', out) → ∃ since', delete_in_order since' s'.
Proof.
  induction events as [|e rest IH]; intros s s' out since HI Ha Hb H; simpl in H.
  - simplify_eq. eauto.
  - destruct (step isUrl s e) as [[s1 out1]|] eqn:E1; [| done]. simpl in H.
    destruct (run isUrl s1 rest) as [[s2 out2]|] eqn:E2; [| done]. simpl in H.
    simplify_eq. simpl in Ha, Hb. rewrite E1 in Hb.
    apply andb_true_iff in Ha as [Ha1 Ha2]. apply negb_true_iff in Ha1.
    apply andb_true_iff in Hb as [Hb1 Hb2].
    eapply IH; [| exact Ha2 | exact Hb2 | exact E2].
    eapply edit_step_delete; [exact HI | | exact E1].
    intros He. rewrite He in Ha1. simpl in Ha1. split; [done |].
    destruct e; try discriminate He. by apply bool_decide_eq_true in Hb1.
Qed.

Lemma edit_mount_delete i : delete_in_order false (mount i).
Proof. unfold delete_in_order, outstanding, mount, count. simpl. done. Qed.

End EditPageFacts.

(** ** The feed machine *)

Section FeedPageFacts.
Import Wire ReactQuery Feed.

Ltac state_of H :=
  apply (f_equal (fmap (M:=option) fst)) in H; simpl in H; injection H as H; subst.

Ltac out_of H :=
  apply (f_equal (fmap (M:=option) snd)) in H; simpl in H; injection H as H; subst.

Lemma finished_spec k l l' :
  finished k l = Some l' →
  k ∈ l ∧ (∀ x, x ∈ l' → x ∈ l) ∧ (NoDup l → NoDup l' ∧ k ∉ l').
Proof.
  revert l'. induction l as [|x l IH]; intros l' H; simpl in H; [discriminate |].
  case_decide as Hx.
  - simplify_eq. split; [apply list_elem_of_here |].
    split; [intros x Hx; by apply list_elem_of_further |].
    intros Hn. apply NoDup_cons in Hn as [? ?]. done.
  - destruct (finished k l) as [l0|] eqn:E; simpl in H; [| discriminate].
    simplify_eq. destruct (IH _ eq_refl) as (H1 & H2 & H3).
    split; [by apply list_elem_of_further |]. split.
    + intros y Hy. apply elem_of_cons in Hy as [-> | Hy];
        [apply list_elem_of_here | by apply list_elem_of_further, H2].
    + intros Hn. apply NoDup_cons in Hn as [Hx' Hn]. destruct (H3 Hn) as [H4 H5].
      split.
      * apply NoDup_cons. split; [| done]. intros Hin. apply Hx'. by apply H2.
      * intros Hin. apply elem_of_cons in Hin as [-> | Hin]; done.
Qed.

Lemma observe_out k s :
  (observe k s).2 = [] ∨ (observe k s).2 = [SelectPosts (query_of k)].
Proof.
  unfold observe, fetch, quiet. case_decide; [by left |].
  simpl. case_bool_decide; [by left | by right].
Qed.

Lemma observe_fetching k s :
  NoDup (fetching s) → NoDup (fetching (observe k s).1)
  ∧ inflight (observe k s).1 = inflight s ∧ owner (observe k s).1 = owner s.
Proof.
  intros Hn. unfold observe, fetch, quiet. case_decide; [done |].
  simpl. case_bool_decide as Hin; simpl; [done |].
  split; [| done]. apply NoDup_app. split; [done |].
  split; [| apply NoDup_singleton].
  intros x Hx ->%list_elem_of_singleton. done.
Qed.



Lemma feed_user_action_sends s e s' out :
  user_action e = true → step s e = Some (s', out) →
  length out ≤ 1
  ∧ (e = Retry → out = [OwnerCall GetSession])
  ∧ (e ≠ Retry → out = [] ∨ out = [SelectPosts (query_of (key s'))]).
Proof.
  intros He H.
  assert (Hk : ∀ k, (observe k s).2 = [] ∨
                    (observe k s).2 = [SelectPosts (query_of (key (observe k s).1))]).
  { intros k. unfold observe, fetch, quiet. case_decide; [by left |].
    simpl. case_bool_decide; [by left | right]. simpl. by destruct k as [[? ?] ?]. }
  destruct e as [t | v | v | | | a | k r]; try discriminate He; simpl in H.
  1-4: injection H as H; pose proof (f_equal fst H) as Hs1;
       pose proof (f_equal snd H) as Ho1; simpl in Hs1, Ho1; subst s' out;
       match goal with |- context [observe ?k _] =>
         destruct (Hk k) as [E | E]; rewrite E; simpl;
         (split; [lia |]); (split; [done |]); auto end.
  simplify_eq. simpl. split; [lia |]. split; [done |]. by intros [].
Qed.

Lemma feed_step_in_order s e s' out :
  NoDup (fetching s) ∧ auth_in_order (owner s) (inflight s) →
  (e = Retry → retry_shown s = true) →
  step s e = Some (s', out) →
  NoDup (fetching s') ∧ auth_in_order (owner s') (inflight s').
Proof.
  unfold retry_shown. intros [Hn HA] Hr H.
  destruct e as [t | v | v | | | a | k r]; simpl in H.
  1-4: state_of H;
       match goal with |- context [observe ?k ?s0] =>
         destruct (observe_fetching k s0 Hn) as (? & -> & ->); done end.
  - state_of H. split; [done |]. by apply auth_in_order_retry, Hr.
  - destruct (UseOwner.auth a (owner s) (inflight s)) as [[[o' l'] out']|] eqn:E;
      [| done]. simpl in H. simplify_eq. simpl. split; [done |].
    by eapply auth_in_order_step.
  - destruct (finished k (fetching s)) as [l|] eqn:E; [| done]. simpl in H.
    destruct (finished_spec _ _ _ E) as (_ & _ & Hl). destruct (Hl Hn) as [Hl1 Hl2].
    state_of H. unfold posts_replied, fetch, quiet.
    destruct r as [m | rows]; simpl; [| done].
    destruct (_ && _); simpl; [| done]. split; [| done].
    apply NoDup_app. split; [done |]. split; [| apply NoDup_singleton].
    intros x Hx ->%list_elem_of_singleton. done.
Qed.

Lemma feed_run_in_order events : ∀ s s' out,
  NoDup (fetching s) ∧ auth_in_order (owner s) (inflight s) →
  by_button s events = true →
  run s events = Some (s', out) →
  NoDup (fetching s') ∧ auth_in_order (owner s') (inflight s').
Proof.
  induction events as [|e rest IH]; intros s s' out HI Hb H; simpl in H.
  - by simplify_eq.
  - destruct (step s e) as [[s1 out1]|] eqn:E1; [| done]. simpl in H.
    destruct (run s1 rest) as [[s2 out2]|] eqn:E2; [| done]. simpl in H.
    simplify_eq. simpl in Hb. rewrite E1 in Hb.
    apply andb_true_iff in Hb as [Hb1 Hb2].
    eapply IH; [| exact Hb2 | exact E2].
    eapply feed_step_in_order; [exact HI | | exact E1]. by intros ->.
Qed.

Lemma feed_mount_in_order :
  NoDup (fetching mount) ∧ auth_in_order (owner mount) (inflight mount).
Proof. split; [apply NoDup_singleton | apply auth_in_order_mounted]. Qed.

End FeedPageFacts.

Section PostPageClaims.
Import Wire ReactQuery PostPage.

(** ** C10 *)

(** C10. Calling the comment submit handler sends a comment insert
    exactly when the trimmed comment is not empty, no submission is in
    flight and the user id is truthy; what it sends is the trimmed text,
    whatever its length. The bounds of [commentSchema] play no part: a
    comment of one character and one of 10000 characters, both of which
    the schema reports, are sent. *)
Theorem C10_comment_insert_iff_guards :
  ∀ (isUrl : jsstring → bool) (s : State),
    ((∃ q, q ∈ (handleCommentSubmit s).2 ∧ is_comment_insert q = true)
     ↔ trim (newComment s) ≠ [] ∧ isSubmittingComment s = false
       ∧ truthy_opt (userId s) = true)
    ∧ (∀ q, q ∈ (handleCommentSubmit s).2 →
         ∃ u, userId s = Some u ∧ q = InsertComment (trim (newComment s)) u (id s))
    ∧ (let s1 := set_newComment (lit " a ")
                   (set_userId (Some (lit "u1")) (mount (lit "p1"))) in
       commentSchema isUrl (JStr (lit "a")) ≠ []
       ∧ (handleCommentSubmit s1).2 = [InsertComment (lit "a") (lit "u1") (lit "p1")])
    ∧ (let s2 := set_newComment long_comment
                   (set_userId (Some (lit "u1")) (mount (lit "p1"))) in
       length long_comment = 100 * 100
       ∧ commentSchema isUrl (JStr long_comment) ≠ []
       ∧ (handleCommentSubmit s2).2
         = [InsertComment long_comment (lit "u1") (lit "p1")]).
Proof.
  intros isUrl s. split; [| split; [| split]].
  - rewrite handleCommentSubmit_out. split.
    + intros (q & Hq & _).
      destruct (truthy (trim (newComment s))) eqn:Et; simpl in Hq;
        [| by apply elem_of_nil in Hq].
      destruct (isSubmittingComment s) eqn:Es; simpl in Hq;
        [by apply elem_of_nil in Hq |].
      destruct (userId s) as [u|]; simpl; [| by apply elem_of_nil in Hq].
      destruct (truthy u) eqn:Eu; [| by apply elem_of_nil in Hq].
      split; [| done]. intros E. by rewrite E in Et.
    + intros (Ht & -> & Hu).
      destruct (trim (newComment s)) as [|c t] eqn:Et; [done |]. simpl.
      destruct (userId s) as [u|]; simpl in Hu; [| done]. rewrite Hu.
      eexists. split; [apply list_elem_of_here | reflexivity].
  - intros q. rewrite handleCommentSubmit_out.
    destruct (_ && _); [| by intros ?%elem_of_nil].
    destruct (userId s) as [u|]; [| by intros ?%elem_of_nil].
    destruct (truthy u); [| by intros ?%elem_of_nil].
    intros ->%list_elem_of_singleton. by exists u.
  - split; [vm_compute; discriminate | vm_compute; reflexivity].
  - split; [vm_compute; reflexivity |].
    split; [vm_compute; discriminate | vm_compute; reflexivity].
Qed.

Lemma C10_comment_insert_iff_guards_witness :
  let s := set_newComment (lit "ok")
             (set_userId (Some (lit "u1")) (mount (lit "p1"))) in
  trim (newComment s) ≠ [] ∧ isSubmittingComment s = false
  ∧ truthy_opt (userId s) = true
  ∧ ∃ q, q ∈ (handleCommentSubmit s).2 ∧ is_comment_insert q = true.
Proof.
  intros s.
  assert (H : trim (newComment s) ≠ [] ∧ isSubmittingComment s = false
              ∧ truthy_opt (userId s) = true)
    by (split; [vm_compute; discriminate | split; reflexivity]).
  destruct H as (H1 & H2 & H3). repeat (split; [assumption |]).
  exact (proj2 (proj1 (C10_comment_insert_iff_guards (λ _, true) s))
           (conj H1 (conj H2 H3))).
Defined.

(** ** C8 *)



End PostPageClaims.

Section MachineClaims.
Import Wire ReactQuery.

(** ** C9 *)

(** C9, as stated, fails. The guard of the upvote handler reads the
    pending flag of the mutation as the last render captured it. On a post
    page that shows a post to a signed-in user, a call of the handler
    sends the increment call; a second call made before the page renders
    again finds the flag still unset and sends the call once more, so two
    upvote requests are in flight while the claim allows one. *)
Lemma C9_second_upvote_call_sends_again :
  let shown :=
    [PostPage.Auth (UseOwner.SessionReplied (UseOwner.SessionReturned (Some (lit "u1"))));
     PostPage.PostReplied true (inr sample_post); PostPage.Render;
     PostPage.HandleUpvote] in
  ∃ s out,
    PostPage.run (PostPage.mount (lit "p1")) shown = Some (s, out)
    ∧ out = [RpcIncrementUpvotes (lit "p1")]
    ∧ PostPage.upvotePending s = true
    ∧ PostPage.outstanding PostPage.is_upvote s = 1
    ∧ (PostPage.handleUpvote s).2 = [RpcIncrementUpvotes (lit "p1")]
    ∧ PostPage.outstanding PostPage.is_upvote (PostPage.handleUpvote s).1 = 2
    ∧ ¬ (∀ i events s out,
           PostPage.run (PostPage.mount i) events = Some (s, out) →
           PostPage.outstanding PostPage.is_upvote s ≤ 1).
Proof.
  intros shown.
  destruct (PostPage.run (PostPage.mount (lit "p1")) shown) as [[s out]|] eqn:E;
    [| vm_compute in E; discriminate E].
  exists s, out. split; [reflexivity |].
  vm_compute in E. injection E as <- <-.
  split; [reflexivity |]. split; [reflexivity |].
  split; [vm_compute; reflexivity |]. split; [vm_compute; reflexivity |].
  split; [vm_compute; reflexivity |].
  intros H.
  destruct (PostPage.run (PostPage.mount (lit "p1")) (shown ++ [PostPage.HandleUpvote]))
    as [[s2 out2]|] eqn:E2; [| vm_compute in E2; discriminate E2].
  pose proof (H _ _ _ _ E2) as Hle.
  vm_compute in E2. injection E2 as <- <-. vm_compute in Hle. lia.
Qed.

(** C9, amended. Every call of a handler sends at most one request.
    Where the busy flag of an action is state of the component, at most
    one request of the action is in flight: the comment submit handler
    does nothing while [isSubmittingComment] is set, and the create and
    the edit form disable their submit button while [isSubmitting] is set.
    Where the action goes by the pending flag of a mutation, which is the
    guard of the upvote handler and the [disabled] of both delete buttons,
    the flag is the one of the last render: a call that finds it set does
    nothing, and on every run in which the page renders between two calls
    at most one request of the action is in flight, after which a render
    blocks the action. The retry button is there only while an error is
    shown, and at most one of its requests is in flight. The feed fetches
    each key at most once at a time. An upload in progress refuses the
    files dropped on it. *)
Theorem C9_one_request_in_flight_per_action :
  (∀ (i : jsstring) (events : list PostPage.Event) (s : PostPage.State)
     (out : list Request),
     PostPage.run (PostPage.mount i) events = Some (s, out) →
     PostPage.outstanding PostPage.is_comment_insert s ≤ 1
     ∧ (PostPage.isSubmittingComment s = true
        → PostPage.handleCommentSubmit s = (s, []))
     ∧ (0 < PostPage.outstanding PostPage.is_comment_insert s
        → PostPage.handleCommentSubmit s = (s, []))
     ∧ (PostPage.upvoteMutation_isPending (PostPage.view s) = true
        → PostPage.handleUpvote s = (s, []))
     ∧ (PostPage.apart PostPage.calls_upvote false events = true
        → PostPage.outstanding PostPage.is_upvote s ≤ 1
          ∧ (0 < PostPage.outstanding PostPage.is_upvote s
             → PostPage.handleUpvote (PostPage.rendered s) = (PostPage.rendered s, [])))
     ∧ (PostPage.apart PostPage.calls_delete false events = true
        → PostPage.by_button (PostPage.mount i) events = true
        → PostPage.outstanding PostPage.is_delete s ≤ 1
          ∧ (0 < PostPage.outstanding PostPage.is_delete s
             → PostPage.delete_button (PostPage.rendered s) ≠ Some false))
     ∧ (∀ e s' out',
          PostPage.user_action e = true → PostPage.step s e = Some (s', out')
          → length out' ≤ 1))
  ∧ (∀ (isUrl : jsstring → bool) (events : list CreatePost.Event)
       (s : CreatePost.State) (out : list Request),
       CreatePost.run isUrl CreatePost.mount events = Some (s, out) →
       CreatePost.by_button isUrl CreatePost.mount events = true →
       CreatePost.outstanding (mutating CreatePost.is_insert) s ≤ 1
       ∧ (0 < CreatePost.outstanding (mutating CreatePost.is_insert) s
          → CreatePost.submit_disabled s = true)
       ∧ CreatePost.outstanding retrying s ≤ 1
       ∧ (0 < CreatePost.outstanding retrying s → CreatePost.retry_shown s = false))
  ∧ (∀ (isUrl : jsstring → bool) (s : CreatePost.State) e s' out',
       CreatePost.user_action e = true → CreatePost.step isUrl s e = Some (s', out')
       → length out' ≤ 1)
  ∧ (∀ (isUrl : jsstring → bool) (i : jsstring) (events : list EditPost.Event)
       (s : EditPost.State) (out : list Request),
       EditPost.run isUrl (EditPost.mount i) events = Some (s, out) →
       (EditPost.by_button isUrl (EditPost.mount i) events = true
        → EditPost.outstanding EditPost.is_update s ≤ 1
          ∧ (0 < EditPost.outstanding EditPost.is_update s
             → EditPost.submit_button s ≠ Some false))
       ∧ (EditPost.by_button isUrl (EditPost.mount i) events = true
          → EditPost.apart false events = true
          → EditPost.outstanding EditPost.is_delete s ≤ 1
            ∧ (0 < EditPost.outstanding EditPost.is_delete s
               → EditPost.delete_button (EditPost.rendered s).1 ≠ Some false))
       ∧ (∀ e s' out',
            EditPost.user_action e = true → EditPost.step isUrl s e = Some (s', out')
            → length out' ≤ 1))
  ∧ (∀ (events : list Feed.Event) (s : Feed.State) (out : list Feed.Sent),
       Feed.run Feed.mount events = Some (s, out) →
       Feed.by_button Feed.mount events = true →
       NoDup (Feed.fetching s)
       ∧ count retrying (Feed.inflight s) ≤ 1
       ∧ (0 < count retrying (Feed.inflight s) → Feed.retry_shown s = false))
  ∧ (∀ (s : Feed.State) e s' out',
       Feed.user_action e = true → Feed.step s e = Some (s', out')
       → length out' ≤ 1)
  ∧ (∀ (disabled : bool) (files : list ImageUpload.File) (s : ImageUpload.State),
       ImageUpload.isUploading s = true
       → (ImageUpload.handleDrop disabled files s).1 = None).
Proof.
  split; [| split; [| split; [| split; [| split; [| split]]]]].
  - intros i events s out Hrun.
    pose proof (run_single_flight events _ _ _ (mount_single_flight i) Hrun) as Hc.
    unfold PostPage.single_flight in Hc.
    split; [rewrite Hc; destruct (PostPage.isSubmittingComment s); lia |].
    split; [apply handleCommentSubmit_submitting |].
    split.
    { intros H. apply handleCommentSubmit_submitting.
      rewrite Hc in H. destruct (PostPage.isSubmittingComment s); [done | lia]. }
    split; [apply handleUpvote_pending |].
    split; [| split].
    + intros Ha.
      destruct (run_upvote_in_order events _ _ _ _ (mount_upvote_in_order i) Ha Hrun)
        as (since & Hu & _).
      split; [rewrite Hu; destruct (PostPage.upvotePending s); lia |].
      intros H. apply handleUpvote_pending. simpl.
      rewrite Hu in H. destruct (PostPage.upvotePending s); [done | lia].
    + intros Ha Hb.
      destruct (run_delete_in_order events _ _ _ _ (mount_delete_in_order i) Ha Hb Hrun)
        as (since & Hd & _).
      split; [rewrite Hd; destruct (PostPage.deletePending s); lia |].
      intros H Hbtn. apply delete_button_enabled in Hbtn. simpl in Hbtn.
      rewrite Hd, Hbtn in H. lia.
    + intros e s' out'. apply user_action_sends_at_most_one.
  - intros isUrl events s out Hrun Hb.
    destruct (create_run_in_order isUrl events _ _ _ create_mount_in_order Hb Hrun)
      as [[H1 H2] (H3 & H4 & H5 & H6)].
    unfold CreatePost.outstanding, CreatePost.submit_disabled, CreatePost.retry_shown
      in *.
    split; [done |]. split.
    { intros H. destruct (CreatePost.isSubmitting s); [done |].
      specialize (H1 eq_refl). lia. }
    split; [done |]. intros H.
    destruct (has_error (CreatePost.owner s)); [| done]. specialize (H6 eq_refl). lia.
  - intros isUrl s e s' out' He H.
    by destruct (create_user_action_sends isUrl _ _ _ _ He H).
  - intros isUrl i events s out Hrun.
    pose proof (edit_run_enabled isUrl events _ _ _ (edit_mount_enabled i) Hrun) as He.
    split; [| split].
    + intros Hb.
      destruct (edit_run_submit isUrl events _ _ _ (edit_mount_submit i) Hb Hrun)
        as [H1 H2].
      split; [done |]. intros H Hbtn. apply submit_button_enabled in Hbtn.
      specialize (H1 Hbtn). lia.
    + intros Hb Ha.
      destruct (edit_run_delete isUrl events _ _ _ _ (edit_mount_delete i) Ha Hb Hrun)
        as (since & Hd & _).
      split; [rewrite Hd; destruct (EditPost.deletePending s); lia |].
      intros H Hbtn. apply edit_delete_button_enabled in Hbtn.
      destruct (edit_rendered_keeps s) as (_&_&_&_&_&_&_&_&_&Hv&_).
      rewrite Hv in Hbtn. rewrite Hd, Hbtn in H. lia.
    + intros e s' out'. by apply edit_user_action_sends.
  - intros events s out Hrun Hb.
    destruct (feed_run_in_order events _ _ _ feed_mount_in_order Hb Hrun)
      as [H1 (H3 & H4 & H5 & H6)].
    unfold Feed.retry_shown. split; [done |]. split; [done |]. intros H.
    destruct (has_error (Feed.owner s)); [| done]. specialize (H6 eq_refl). lia.
  - intros s e s' out' He H. by destruct (feed_user_action_sends _ _ _ _ He H).
  - intros disabled files s H. unfold ImageUpload.handleDrop.
    by rewrite H, orb_true_r.
Qed.

Lemma C9_one_request_in_flight_per_action_witness :
  let events :=
    [PostPage.Auth (UseOwner.SessionReplied (UseOwner.SessionReturned (Some (lit "u1"))));
     PostPage.PostReplied true (inr sample_post); PostPage.Render;
     PostPage.SetNewComment (lit "nice");
     PostPage.HandleUpvote; PostPage.HandleCommentSubmit; PostPage.Render;
     PostPage.HandleUpvote; PostPage.HandleCommentSubmit;
     PostPage.HandleDelete true; PostPage.Render] in
  ∃ s out,
    PostPage.run (PostPage.mount (lit "p1")) events = Some (s, out)
    ∧ PostPage.apart PostPage.calls_upvote false events = true
    ∧ PostPage.apart PostPage.calls_delete false events = true
    ∧ PostPage.by_button (PostPage.mount (lit "p1")) events = true
    ∧ out = [RpcIncrementUpvotes (lit "p1");
             InsertComment (lit "nice") (lit "u1") (lit "p1");
             DeletePost (lit "p1")]
    ∧ PostPage.outstanding PostPage.is_upvote s ≤ 1
    ∧ PostPage.outstanding PostPage.is_delete s ≤ 1
    ∧ PostPage.handleCommentSubmit s = (s, []).
Proof.
  intros events.
  destruct (PostPage.run (PostPage.mount (lit "p1")) events) as [[s out]|] eqn:E;
    [| vm_compute in E; discriminate E].
  exists s, out. split; [reflexivity |].
  assert (Ha : PostPage.apart PostPage.calls_upvote false events = true)
    by (vm_compute; reflexivity).
  assert (Hd : PostPage.apart PostPage.calls_delete false events = true)
    by (vm_compute; reflexivity).
  assert (Hb : PostPage.by_button (PostPage.mount (lit "p1")) events = true)
    by (vm_compute; reflexivity).
  split; [exact Ha |]. split; [exact Hd |]. split; [exact Hb |].
  destruct (proj1 C9_one_request_in_flight_per_action _ _ _ _ E)
    as (_ & _ & Hc & _ & Hu & Hdel & _).
  split; [vm_compute in E; by injection E as _ <- |].
  split; [exact (proj1 (Hu Ha)) |]. split; [exact (proj1 (Hdel Hd Hb)) |].
  apply Hc. vm_compute in E. injection E as <- _. vm_compute. lia.
Defined.

(** ** C4 *)




End MachineClaims.


(** * Further properties *)


(** ** Tag selection, further *)

Section ToggleMore.
Implicit Types (sel : list jsstring) (v w x : jsstring).

Lemma toggleFilter_elem sel v x :
  x ∈ FilterChips.toggleFilter sel v ↔ (x = v ∧ v ∉ sel) ∨ (x ≠ v ∧ x ∈ sel).
Proof.
  unfold FilterChips.toggleFilter. case_bool_decide as Hv.
  - rewrite list_elem_of_filter. split.
    + intros [Hne Hx]. by right.
    + intros [[-> Hn] | [Hne Hx]]; [done | by split].
  - rewrite elem_of_app, list_elem_of_singleton. split.
    + intros [Hx | ->]; [right | by left]. split; [| done]. by intros ->.
    + intros [[-> _] | [_ Hx]]; [by right | by left].
Qed.

Lemma toggleFilter_NoDup sel v : NoDup sel → NoDup (FilterChips.toggleFilter sel v).
Proof.
  intros Hnd. unfold FilterChips.toggleFilter. case_bool_decide as Hv.
  - by apply NoDup_filter.
  - apply NoDup_app. split; [done |]. split; [| apply NoDup_singleton].
    intros x Hx ->%list_elem_of_singleton. done.
Qed.

Lemma filter_out_present_length sel v :
  NoDup sel → v ∈ sel → S (length (filter (λ f, f ≠ v) sel)) = length sel.
Proof.
  induction sel as [|x sel IH]; intros Hnd Hv; [by apply elem_of_nil in Hv |].
  apply NoDup_cons in Hnd as [Hx Hnd].
  destruct (decide (x = v)) as [-> | Hne].
  - rewrite filter_cons_False by (intros H; by apply H).
    rewrite filter_out_absent by done. reflexivity.
  - rewrite filter_cons_True by done. simpl. f_equal. apply IH; [done |].
    apply elem_of_cons in Hv as [-> | Hv]; done.
Qed.

Lemma toggleFilter_length sel v :
  NoDup sel →
  length (FilterChips.toggleFilter sel v)
  = if bool_decide (v ∈ sel) then length sel - 1 else length sel + 1.
Proof.
  intros Hnd. unfold FilterChips.toggleFilter. case_bool_decide as Hv.
  - pose proof (filter_out_present_length sel v Hnd Hv). lia.
  - rewrite length_app. reflexivity.
Qed.

Lemma toggleFilter_commute sel v w :
  v ≠ w →
  FilterChips.toggleFilter (FilterChips.toggleFilter sel v) w
  ≡ₚ FilterChips.toggleFilter (FilterChips.toggleFilter sel w) v.
Proof.
  intros Hne.
  destruct (decide (v ∈ sel)) as [Hv | Hv], (decide (w ∈ sel)) as [Hw | Hw].
  - rewrite (toggleFilter_present sel v Hv), (toggleFilter_present sel w Hw).
    rewrite !toggleFilter_present
      by (apply list_elem_of_filter; split; [congruence | done]).
    rewrite !list_filter_filter. apply reflexive_eq, list_filter_iff. tauto.
  - rewrite (toggleFilter_present sel v Hv), (toggleFilter_absent sel w Hw).
    rewrite toggleFilter_absent by (rewrite list_elem_of_filter; tauto).
    rewrite toggleFilter_present by (apply elem_of_app; by left).
    rewrite filter_app, filter_cons_True by congruence. reflexivity.
  - rewrite (toggleFilter_absent sel v Hv), (toggleFilter_present sel w Hw).
    rewrite toggleFilter_present by (apply elem_of_app; by left).
    rewrite toggleFilter_absent by (rewrite list_elem_of_filter; tauto).
    rewrite filter_app, filter_cons_True by congruence. reflexivity.
  - rewrite (toggleFilter_absent sel v Hv), (toggleFilter_absent sel w Hw).
    rewrite !toggleFilter_absent
      by (rewrite elem_of_app, list_elem_of_singleton; intros [?|?]; congruence).
    rewrite <- !(assoc_L (++)). apply Permutation_app_head, perm_swap.
Qed.
End ToggleMore.

(** X1. A toggle flips the membership of its own tag and of no other tag:
    after it, a tag is selected exactly when it is the toggled tag and was
    not selected, or is another tag and was selected. So a tag that occurs
    several times is removed altogether. A disabled flag selector changes
    nothing. *)
Theorem X1_toggle_flips_only_its_tag :
  ∀ (sel : list jsstring) (v x : jsstring),
    (x ∈ FilterChips.toggleFilter sel v ↔ (x = v ∧ v ∉ sel) ∨ (x ≠ v ∧ x ∈ sel))
    ∧ (x ∈ Feed.toggleFilter v sel ↔ (x = v ∧ v ∉ sel) ∨ (x ≠ v ∧ x ∈ sel))
    ∧ (x ∈ FlagSelector.clicked false sel v
       ↔ (x = v ∧ v ∉ sel) ∨ (x ≠ v ∧ x ∈ sel))
    ∧ FlagSelector.clicked true sel v = sel.
Proof.
  intros sel v x. rewrite feed_toggleFilter_eq, clicked_enabled.
  repeat split; try apply toggleFilter_elem.
Qed.

(** X2. A selection without repeated tags stays without repeated tags
    under every toggle, and its length moves by exactly one: down when
    the tag was selected, up when it was not. *)
Theorem X2_toggle_keeps_selection_duplicate_free :
  ∀ (sel : list jsstring) (v : jsstring) (disabled : bool),
    NoDup sel →
    NoDup (FilterChips.toggleFilter sel v)
    ∧ NoDup (Feed.toggleFilter v sel)
    ∧ NoDup (FlagSelector.clicked disabled sel v)
    ∧ length (FilterChips.toggleFilter sel v)
      = (if bool_decide (v ∈ sel) then length sel - 1 else length sel + 1).
Proof.
  intros sel v disabled Hnd.
  split; [by apply toggleFilter_NoDup |].
  split; [rewrite feed_toggleFilter_eq; by apply toggleFilter_NoDup |].
  split; [| by apply toggleFilter_length].
  destruct disabled; [by rewrite clicked_disabled |].
  rewrite clicked_enabled. by apply toggleFilter_NoDup.
Qed.

Lemma X2_toggle_keeps_selection_duplicate_free_witness :
  let sel := [lit "recipe"; lit "tip"] in
  NoDup sel
  ∧ NoDup (FilterChips.toggleFilter sel (lit "tip"))
  ∧ length (FilterChips.toggleFilter sel (lit "tip")) = 1.
Proof.
  intros sel.
  assert (H : NoDup sel) by (apply (bool_decide_unpack _); vm_compute; exact I).
  split; [exact H |].
  destruct (X2_toggle_keeps_selection_duplicate_free sel (lit "tip") false H)
    as (H1 & _ & _ & H2).
  split; [exact H1 | exact H2].
Defined.

(** X3. Toggles of two different tags commute up to the order of the
    list: toggling them in either order selects the same tags, the same
    number of times. *)
Theorem X3_toggles_of_different_tags_commute :
  ∀ (sel : list jsstring) (v w : jsstring),
    v ≠ w →
    FilterChips.toggleFilter (FilterChips.toggleFilter sel v) w
    ≡ₚ FilterChips.toggleFilter (FilterChips.toggleFilter sel w) v
    ∧ Feed.toggleFilter w (Feed.toggleFilter v sel)
      ≡ₚ Feed.toggleFilter v (Feed.toggleFilter w sel)
    ∧ FlagSelector.clicked false (FlagSelector.clicked false sel v) w
      ≡ₚ FlagSelector.clicked false (FlagSelector.clicked false sel w) v.
Proof.
  intros sel v w Hne.
  rewrite !feed_toggleFilter_eq, !clicked_enabled.
  repeat split; by apply toggleFilter_commute.
Qed.

Lemma X3_toggles_of_different_tags_commute_witness :
  lit "tip" ≠ lit "review"
  ∧ FilterChips.toggleFilter (FilterChips.toggleFilter [lit "tip"] (lit "tip")) (lit "review")
    ≡ₚ FilterChips.toggleFilter (FilterChips.toggleFilter [lit "tip"] (lit "review")) (lit "tip").
Proof.
  assert (H : lit "tip" ≠ lit "review") by (vm_compute; discriminate).
  split; [exact H |].
  exact (proj1 (X3_toggles_of_different_tags_commute [lit "tip"] _ _ H)).
Defined.

Lemma clicked_NoDup disabled (sel : list jsstring) v :
  NoDup sel → NoDup (FlagSelector.clicked disabled sel v).
Proof.
  intros H. destruct disabled; [by rewrite clicked_disabled |].
  rewrite clicked_enabled. by apply toggleFilter_NoDup.
Qed.

Lemma clicked_subseteq disabled (sel : list jsstring) v x :
  x ∈ FlagSelector.clicked disabled sel v → x = v ∨ x ∈ sel.
Proof.
  destruct disabled; [rewrite clicked_disabled; by right |].
  rewrite clicked_enabled, toggleFilter_elem. tauto.
Qed.

Lemma clicks_valid (cs : list (bool * jsstring)) : ∀ sel : list jsstring,
  Forall (λ c, c.2 ∈ FlagSelector.value <$> FlagSelector.AVAILABLE_FLAGS) cs →
  NoDup sel →
  (∀ x, x ∈ sel → x ∈ FlagSelector.value <$> FlagSelector.AVAILABLE_FLAGS) →
  NoDup (FlagSelector.clicks cs sel)
  ∧ ∀ x, x ∈ FlagSelector.clicks cs sel
         → x ∈ FlagSelector.value <$> FlagSelector.AVAILABLE_FLAGS.
Proof.
  induction cs as [|[d v] cs IH]; intros sel Hcs Hnd Hsub; [done |].
  apply Forall_cons in Hcs as [Hv Hcs]. simpl in Hv.
  unfold FlagSelector.clicks. simpl.
  apply IH; [done | by apply clicked_NoDup |].
  intros x [-> | Hx]%clicked_subseteq; auto.
Qed.

(** X4. Whatever buttons of the flag selector are clicked, in whatever
    order and whether the selector is disabled at the time or not, the
    selection built from the empty one has no repeated tag, holds only
    values of [AVAILABLE_FLAGS], and so has at most five tags. *)
Theorem X4_selector_selection_is_valid :
  ∀ (cs : list (bool * jsstring)),
    Forall (λ c, c.2 ∈ FlagSelector.value <$> FlagSelector.AVAILABLE_FLAGS) cs →
    NoDup (FlagSelector.clicks cs [])
    ∧ (∀ x, x ∈ FlagSelector.clicks cs []
            → x ∈ FlagSelector.value <$> FlagSelector.AVAILABLE_FLAGS)
    ∧ length (FlagSelector.clicks cs []) ≤ 5.
Proof.
  intros cs Hcs.
  destruct (clicks_valid cs [] Hcs) as [Hnd Hsub];
    [apply NoDup_nil_2 | by intros x ?%elem_of_nil |].
  split; [exact Hnd |]. split; [exact Hsub |].
  change 5 with (length (FlagSelector.value <$> FlagSelector.AVAILABLE_FLAGS)).
  apply submseteq_length. by apply NoDup_submseteq.
Qed.

Lemma X4_selector_selection_is_valid_witness :
  let cs := [(false, lit "tip"); (false, lit "recipe"); (true, lit "review");
             (false, lit "tip"); (false, lit "beginner")] in
  FlagSelector.clicks cs [] = [lit "recipe"; lit "beginner"]
  ∧ NoDup (FlagSelector.clicks cs [])
  ∧ length (FlagSelector.clicks cs []) ≤ 5.
Proof.
  intros cs.
  assert (H : Forall (λ c, c.2 ∈ FlagSelector.value <$> FlagSelector.AVAILABLE_FLAGS) cs)
    by (apply (bool_decide_unpack _); vm_compute; exact I).
  destruct (X4_selector_selection_is_valid cs H) as (H1 & _ & H2).
  split; [vm_compute; reflexivity |]. split; [exact H1 | exact H2].
Defined.

(** ** FlagDisplay *)

Lemma find_value_None (L : list FlagSelector.Flag) v :
  List.find (λ f, bool_decide (FlagSelector.value f = v)) L = None
  ↔ v ∉ FlagSelector.value <$> L.
Proof.
  induction L as [|f L IH]; simpl.
  - split; [intros _; apply not_elem_of_nil | done].
  - case_bool_decide as Hf.
    + split; [done |]. intros H. exfalso. apply H. rewrite Hf. apply list_elem_of_here.
    + rewrite IH, not_elem_of_cons. split; [by split | by intros [_ ?]].
Qed.

Lemma find_value_Some (L : list FlagSelector.Flag) v f :
  List.find (λ f, bool_decide (FlagSelector.value f = v)) L = Some f →
  f ∈ L ∧ FlagSelector.value f = v.
Proof.
  induction L as [|g L IH]; simpl; [done |].
  case_bool_decide as Hg.
  - intros [= <-]. split; [apply list_elem_of_here | done].
  - intros [H1 H2]%IH. split; [by apply list_elem_of_further | done].
Qed.

Lemma FlagDisplay_some size v (l : list jsstring) :
  FlagDisplay.FlagDisplay (Some (v :: l)) size
  = Some (FlagDisplay.child size <$> (v :: l)).
Proof. reflexivity. Qed.

(** X5. The flag display renders nothing exactly when there are no flags;
    otherwise it renders one child per flag, in order: a chip keyed by
    the flag and labelled from its table entry when the flag is in
    [AVAILABLE_FLAGS], and nothing in its place when it is not. *)
Theorem X5_flag_display_children :
  ∀ (flags : option (list jsstring)) (size : FlagDisplay.Size),
    (FlagDisplay.FlagDisplay flags size = None ↔ flags = None ∨ flags = Some [])
    ∧ ∀ l chips,
        FlagDisplay.FlagDisplay (Some l) size = Some chips →
        length chips = length l
        ∧ ∀ i v, l !! i = Some v →
            (v ∉ FlagSelector.value <$> FlagSelector.AVAILABLE_FLAGS
             → chips !! i = Some None)
            ∧ (v ∈ FlagSelector.value <$> FlagSelector.AVAILABLE_FLAGS
               → ∃ c f, chips !! i = Some (Some c) ∧ FlagDisplay.key c = v
                        ∧ f ∈ FlagSelector.AVAILABLE_FLAGS
                        ∧ FlagSelector.value f = v
                        ∧ FlagDisplay.text c = FlagSelector.label f).
Proof.
  intros flags size. split.
  - destruct flags as [[|v l]|]; simpl; split; try done; auto.
    intros [? | ?]; done.
  - intros l chips H. destruct l as [|v0 l0]; [done |].
    rewrite FlagDisplay_some in H.
    assert (chips = FlagDisplay.child size <$> (v0 :: l0)) as -> by congruence.
    clear H. split; [by rewrite length_fmap |].
    intros i v Hi. rewrite list_lookup_fmap, Hi.
    change (FlagDisplay.child size <$> Some v) with (Some (FlagDisplay.child size v)).
    unfold FlagDisplay.child, FlagDisplay.find_flag. split.
    + intros Hv%find_value_None. by rewrite Hv.
    + intros Hv.
      destruct (List.find _ FlagSelector.AVAILABLE_FLAGS) as [f|] eqn:E.
      * apply find_value_Some in E as [Hf1 Hf2]. eexists _, f. done.
      * by apply find_value_None in E.
Qed.

Lemma X5_flag_display_children_witness :
  ∃ chips,
    FlagDisplay.FlagDisplay (Some [lit "tip"; lit "spicy"]) FlagDisplay.sm = Some chips
    ∧ length chips = 2
    ∧ chips !! 1 = Some None.
Proof.
  destruct (FlagDisplay.FlagDisplay (Some [lit "tip"; lit "spicy"]) FlagDisplay.sm)
    as [chips|] eqn:E; [| vm_compute in E; discriminate E].
  exists chips. split; [reflexivity |].
  destruct (proj2 (X5_flag_display_children (Some [lit "tip"; lit "spicy"]) FlagDisplay.sm)
              _ _ E) as [Hlen Hch].
  split; [exact Hlen |].
  apply (Hch 1 (lit "spicy") eq_refl).
  apply (bool_decide_unpack _). vm_compute. exact I.
Defined.

(** X6. A non-empty selection made with the flag selector is displayed
    in full by the flag display: one chip per selected tag, none left
    out, in the order of the selection and with pairwise different keys. *)
Theorem X6_selector_selection_displays_in_full :
  ∀ (cs : list (bool * jsstring)) (size : FlagDisplay.Size),
    Forall (λ c, c.2 ∈ FlagSelector.value <$> FlagSelector.AVAILABLE_FLAGS) cs →
    FlagSelector.clicks cs [] ≠ [] →
    ∃ chips,
      FlagDisplay.FlagDisplay (Some (FlagSelector.clicks cs [])) size
        = Some (Some <$> chips)
      ∧ FlagDisplay.key <$> chips = FlagSelector.clicks cs []
      ∧ NoDup (FlagDisplay.key <$> chips).
Proof.
  intros cs size Hcs Hne.
  destruct (clicks_valid cs [] Hcs) as [Hnd Hsub];
    [apply NoDup_nil_2 | by intros x ?%elem_of_nil |].
  revert Hne Hnd Hsub. generalize (FlagSelector.clicks cs []). intros sel Hne Hnd Hsub.
  assert (Hall : ∀ l : list jsstring,
             (∀ x, x ∈ l → x ∈ FlagSelector.value <$> FlagSelector.AVAILABLE_FLAGS) →
             ∃ chips, FlagDisplay.child size <$> l = Some <$> chips
                      ∧ FlagDisplay.key <$> chips = l).
  { induction l as [|v l IH]; intros Hl; [by exists [] |].
    destruct IH as (chips & E1 & E2); [intros x Hx; apply Hl; by right |].
    assert (Hv : v ∈ FlagSelector.value <$> FlagSelector.AVAILABLE_FLAGS)
      by (apply Hl; by left).
    destruct (FlagDisplay.find_flag v) as [f|] eqn:Ef;
      [| by apply find_value_None in Ef].
    eexists (_ :: chips). rewrite !fmap_cons, E1, E2.
    unfold FlagDisplay.child. rewrite Ef. done. }
  destruct (Hall sel Hsub) as (chips & E1 & E2).
  exists chips. split; [| split; [done | by rewrite E2]].
  destruct sel as [|v l]; [done |]. by rewrite FlagDisplay_some, E1.
Qed.

Lemma X6_selector_selection_displays_in_full_witness :
  let cs := [(false, lit "tip"); (false, lit "recipe")] in
  ∃ chips,
    FlagDisplay.FlagDisplay (Some (FlagSelector.clicks cs [])) FlagDisplay.md
      = Some (Some <$> chips)
    ∧ FlagDisplay.key <$> chips = [lit "tip"; lit "recipe"].
Proof.
  intros cs.
  assert (H1 : Forall (λ c, c.2 ∈ FlagSelector.value <$> FlagSelector.AVAILABLE_FLAGS) cs)
    by (apply (bool_decide_unpack _); vm_compute; exact I).
  assert (H2 : FlagSelector.clicks cs [] ≠ []) by (vm_compute; discriminate).
  destruct (X6_selector_selection_displays_in_full cs FlagDisplay.md H1 H2)
    as (chips & E1 & E2 & _).
  exists chips. split; [exact E1 | exact E2].
Defined.


(** ** formatTimeAgo *)

Lemma hours_floor (diff : Z) :
  (3600000 * (diff `div` (1000 * 60 * 60)) ≤ diff
   < 3600000 * (diff `div` (1000 * 60 * 60)) + 3600000)%Z.
Proof.
  change (1000 * 60 * 60)%Z with 3600000%Z.
  pose proof (Z.div_mod diff 3600000 ltac:(lia)).
  pose proof (Z.mod_pos_bound diff 3600000 ltac:(lia)). lia.
Qed.

Lemma days_floor (h : Z) : (24 * (h `div` 24) ≤ h < 24 * (h `div` 24) + 24)%Z.
Proof.
  pose proof (Z.div_mod h 24 ltac:(lia)).
  pose proof (Z.mod_pos_bound h 24 ltac:(lia)). lia.
Qed.

(** X7. The time label depends only on the whole hours between the date
    and now. Less than one hour, or a date in the future: "Just now". An
    hour count is shown from 1 to 23 and counts completed hours; a day
    count is shown from 1 to 6 and counts completed days; from seven days
    on, and for a date that does not parse, the locale date is shown. *)
Theorem X7_time_label_ranges :
  ∀ (now t : Z),
    (TimeAgo.timeAgo now (Some t) = TimeAgo.JustNow ↔ (now - t < 3600000)%Z)
    ∧ (∀ h, TimeAgo.timeAgo now (Some t) = TimeAgo.HoursAgo h
            ↔ (1 ≤ h ≤ 23 ∧ h * 3600000 ≤ now - t < (h + 1) * 3600000)%Z)
    ∧ (∀ d, TimeAgo.timeAgo now (Some t) = TimeAgo.DaysAgo d
            ↔ (1 ≤ d ≤ 6 ∧ d * 86400000 ≤ now - t < (d + 1) * 86400000)%Z)
    ∧ (TimeAgo.timeAgo now (Some t) = TimeAgo.LocaleDate ↔ (604800000 ≤ now - t)%Z)
    ∧ TimeAgo.timeAgo now None = TimeAgo.LocaleDate
    ∧ TimeAgo.formatTimeAgo "1/8/2025" 7199999%Z (Some 0%Z) = "1h ago"
    ∧ TimeAgo.formatTimeAgo "1/8/2025" 604799999%Z (Some 0%Z) = "6d ago"
    ∧ TimeAgo.formatTimeAgo "1/8/2025" 604800000%Z (Some 0%Z) = "1/8/2025".
Proof.
  intros now t. unfold TimeAgo.timeAgo.
  pose proof (hours_floor (now - t)) as Hh.
  set (q := ((now - t) `div` (1000 * 60 * 60))%Z) in *.
  pose proof (days_floor q) as Hd.
  split; [| split; [| split; [| split; [| split]]]].
  - repeat case_decide; split; intros; try done; lia.
  - intros h. repeat case_decide; split; intros Heq; try done; try lia.
    + injection Heq as <-. lia.
    + f_equal. lia.
  - intros d. repeat case_decide; split; intros Heq; try done; try lia.
    + injection Heq as <-. lia.
    + f_equal. lia.
  - repeat case_decide; split; intros; try done; lia.
  - reflexivity.
  - repeat split; vm_compute; reflexivity.
Qed.

(** ** useTheme *)

Lemma toggleTheme_theme s :
  UseTheme.theme (UseTheme.toggleTheme s) = "light"
  ∨ UseTheme.theme (UseTheme.toggleTheme s) = "dark".
Proof. unfold UseTheme.toggleTheme. simpl. case_decide; auto. Qed.

Lemma mounted_consistent prefersDark s :
  UseTheme.dark (UseTheme.mounted prefersDark s)
  = bool_decide (UseTheme.theme (UseTheme.mounted prefersDark s) = "dark").
Proof.
  unfold UseTheme.mounted.
  destruct (UseTheme.stored s) as [t|]; [case_decide |]; reflexivity.
Qed.

(** X8. Once the hook has mounted, and after any number of toggles, the
    document carries the class [dark] exactly when the theme is "dark".
    After a toggle the theme is "light" or "dark" and the stored item is
    that theme. *)
Theorem X8_dark_class_follows_theme :
  ∀ (prefersDark : bool) (stored : option string) (n : nat),
    let s := Nat.iter n UseTheme.toggleTheme (UseTheme.load prefersDark stored) in
    UseTheme.dark s = bool_decide (UseTheme.theme s = "dark")
    ∧ (UseTheme.theme (UseTheme.toggleTheme s) = "light"
       ∨ UseTheme.theme (UseTheme.toggleTheme s) = "dark")
    ∧ UseTheme.stored (UseTheme.toggleTheme s)
      = Some (UseTheme.theme (UseTheme.toggleTheme s)).
Proof.
  intros prefersDark stored n s.
  split; [| split; [apply toggleTheme_theme | reflexivity]].
  unfold s. destruct n as [|n]; simpl; [apply mounted_consistent | reflexivity].
Qed.

(** X9. The theme chosen with the toggle survives a reload, whatever the
    system preference then is: loading the page with the item the toggle
    stored gives the same theme and the same class. Toggling twice gives
    back a "light" or "dark" theme; a stored theme that is neither is
    shown without the class and becomes "light" at the first toggle. *)
Theorem X9_theme_survives_reload :
  ∀ (s : UseTheme.State) (prefersDark : bool),
    let chosen := UseTheme.toggleTheme s in
    let reloaded := UseTheme.load prefersDark (UseTheme.stored chosen) in
    UseTheme.theme reloaded = UseTheme.theme chosen
    ∧ UseTheme.dark reloaded = UseTheme.dark chosen
    ∧ UseTheme.stored reloaded = UseTheme.stored chosen
    ∧ (UseTheme.theme s = "light" ∨ UseTheme.theme s = "dark"
       → UseTheme.theme (UseTheme.toggleTheme chosen) = UseTheme.theme s)
    ∧ (UseTheme.theme s ≠ "light" → UseTheme.theme chosen = "light").
Proof.
  intros s prefersDark chosen reloaded. unfold reloaded, chosen.
  unfold UseTheme.load, UseTheme.mounted, UseTheme.toggleTheme, UseTheme.initial.
  simpl. repeat split.
  - repeat case_decide; done.
  - repeat case_decide; done.
  - repeat case_decide; done.
  - intros [-> | ->]; reflexivity.
  - intros Hne. by case_decide.
Qed.

Lemma X9_theme_survives_reload_witness :
  let s := UseTheme.load true (Some "blue") in
  UseTheme.theme s ≠ "light"
  ∧ UseTheme.dark s = false
  ∧ UseTheme.theme (UseTheme.toggleTheme s) = "light".
Proof.
  intros s.
  assert (H : UseTheme.theme s ≠ "light") by (vm_compute; discriminate).
  split; [exact H |]. split; [reflexivity |].
  exact (proj2 (proj2 (proj2 (proj2 (X9_theme_survives_reload s false)))) H).
Defined.

(** ** useOwner *)

Section OwnerMore.
Import Supabase UseOwner Forms.

(** X10. [checkAuth] always asks for the session first and signs in
    anonymously exactly when the session has no user. When the hook is
    still mounted it ends with the loading flag off; when it is not, it
    leaves only the loading flag on and the error cleared. It never
    reports an error and sets a user id in the same run. A sign-in that
    returns neither a user nor an error ends without user id and without
    error. *)
Theorem X10_checkAuth_outcomes :
  ∀ (mounted : bool) (session : SessionReply) (signIn : SignInReply) (o : Owner),
    let o' := (checkAuth mounted session signIn o).1 in
    let calls := (checkAuth mounted session signIn o).2 in
    head calls = Some CallGetSession
    ∧ (CallSignInAnonymously ∈ calls ↔ session = SessionReturned None)
    ∧ (mounted = true → isLoading o' = false)
    ∧ (mounted = false
       → o' = {| userId := userId o; isLoading := true; error := None |})
    ∧ (is_Some (error o') → userId o' = userId o)
    ∧ (checkAuth true (SessionReturned None) (SignInReturned None None) o).1
      = {| userId := userId o; isLoading := false; error := None |}.
Proof.
  intros mounted session signIn o o' calls. unfold o', calls, checkAuth.
  split; [by destruct session as [m | [u|]] |].
  split.
  { destruct session as [m | [u|]]; simpl;
      rewrite ?elem_of_cons, ?elem_of_nil; split; try done;
      try (intros [? | [? | ?]]; done); try (intros [? | ?]; done).
    intros _. right. by left. }
  split.
  { intros ->. destruct session as [m | [u|]]; [done | done |].
    by destruct signIn as [m | [u|] [m|]]. }
  split.
  { intros ->. destruct session as [m | [u|]]; [done | done |].
    by destruct signIn as [m | [u|] [m|]]. }
  split; [| reflexivity].
  intros [m Hm]. revert Hm.
  destruct mounted, session as [m' | [u|]]; simpl; try done;
    destruct signIn as [m' | [u|] [m'|]]; simpl; done.
Qed.

Lemma X10_checkAuth_outcomes_witness :
  let r := checkAuth true (SessionReturned None)
             (SignInReturned None (Some "Anonymous sign-ins are disabled")) initial in
  is_Some (error r.1) ∧ userId r.1 = None ∧ isLoading r.1 = false
  ∧ r.2 = [CallGetSession; CallSignInAnonymously].
Proof.
  intros r.
  assert (H : is_Some (error r.1)) by (eexists; reflexivity).
  pose proof (X10_checkAuth_outcomes true (SessionReturned None)
                (SignInReturned None (Some "Anonymous sign-ins are disabled")) initial)
    as (_ & _ & H1 & _ & H2 & _).
  split; [exact H |]. split; [exact (H2 H) |]. split; [exact (H1 eq_refl) | reflexivity].
Defined.

End OwnerMore.

Section OwnerRetry.
Import Supabase Wire UseOwner Forms.


End OwnerRetry.


(** ** ImageUpload *)

Section UploadMore.
Import ImageUpload.

(** X12. A file starts an upload exactly when its type begins with
    "image/" and its size is at most 5 * 1024 * 1024 bytes, that size
    included. The type is looked at first: a file of another type is
    refused as not an image whatever its size, and an image above the
    limit is refused for its size. *)
Theorem X12_upload_starts_iff_image_within_limit :
  ∀ (stamp random : jsstring) (file : File),
    ((∃ path, handleFileUpload stamp random file = Upload path)
     ↔ lit "image/" `prefix_of` type file ∧ (size file ≤ 5242880)%Z)
    ∧ (¬ lit "image/" `prefix_of` type file
       → handleFileUpload stamp random file = Refused "Please select an image file")
    ∧ (lit "image/" `prefix_of` type file → (5242880 < size file)%Z
       → handleFileUpload stamp random file = Refused "Image size must be less than 5MB")
    ∧ (lit "image/" `prefix_of` type file → (size file ≤ 5242880)%Z
       → handleFileUpload stamp random file = Upload (filePath stamp random file)).
Proof.
  intros stamp random file. unfold handleFileUpload.
  change (5 * 1024 * 1024)%Z with 5242880%Z.
  case_bool_decide as Ht; simpl; [case_decide as Hs |].
  - split; [split; [by intros [? ?] | intros [_ ?]; lia] |].
    split; [done |]. split; [done |]. intros _ ?. lia.
  - split; [split; [intros _; split; [done | lia] | intros _; by eexists] |].
    split; [done |]. split; [intros _ ?; lia | done].
  - split; [split; [by intros [? ?] | by intros [? _]] |].
    split; [done |]. split; intros ?; done.
Qed.

Lemma X12_upload_starts_iff_image_within_limit_witness :
  let ok := {| name := lit "fries.final.png"; type := lit "image/png";
               size := 5242880 |} in
  let big := {| name := lit "fries.png"; type := lit "image/png";
                size := 5242881 |} in
  handleFileUpload (lit "1700000000000") (lit "k3j9x") ok
    = Upload (lit "images/1700000000000-k3j9x.png")
  ∧ handleFileUpload (lit "1700000000000") (lit "k3j9x") big
    = Refused "Image size must be less than 5MB".
Proof.
  intros ok big.
  assert (Ht : lit "image/" `prefix_of` lit "image/png")
    by (apply (bool_decide_unpack _); vm_compute; exact I).
  destruct (X12_upload_starts_iff_image_within_limit
              (lit "1700000000000") (lit "k3j9x") ok) as (_ & _ & _ & Hok).
  destruct (X12_upload_starts_iff_image_within_limit
              (lit "1700000000000") (lit "k3j9x") big) as (_ & _ & Hbig & _).
  split.
  - rewrite (Hok Ht ltac:(simpl; lia)). vm_compute. reflexivity.
  - apply (Hbig Ht). simpl. lia.
Defined.

Lemma iter_tick (n : nat) : Nat.iter n tick 0%Z = ((10 * Z.of_nat n) `min` 90)%Z.
Proof.
  induction n as [|n IH]; [reflexivity |].
  rewrite Nat.iter_succ, IH. unfold tick. case_decide; lia.
Qed.

Lemma iter_ticked (n : nat) (s : State) :
  Nat.iter n ticked s
  = {| isUploading := isUploading s;
       uploadProgress := Nat.iter n tick (uploadProgress s);
       dragActive := dragActive s |}.
Proof.
  induction n as [|n IH]; [by destruct s |].
  rewrite !Nat.iter_succ, IH. reflexivity.
Qed.

(** X13. While an upload runs, the simulated progress after n ticks is
    ten times n, capped at 90: the bar never passes 90 before the storage
    answers. The answer sets it to 100 on success and to 0 on failure,
    and ends the uploading state either way; a failure without message is
    reported as "Failed to upload image". *)
Theorem X13_simulated_progress_caps_at_90 :
  ∀ (s : State) (n : nat) (reply : string + jsstring),
    let running := Nat.iter n ticked (uploading s) in
    uploadProgress running = ((10 * Z.of_nat n) `min` 90)%Z
    ∧ (0 ≤ uploadProgress running ≤ 90)%Z
    ∧ isUploading running = true
    ∧ isUploading (uploaded reply running).2 = false
    ∧ uploadProgress (uploaded reply running).2
      = (if reply is inr _ then 100 else 0)%Z
    ∧ (uploaded (inl "") running).1 = UploadError "Failed to upload image".
Proof.
  intros s n reply running. unfold running.
  rewrite iter_ticked. simpl. rewrite iter_tick.
  split; [reflexivity |]. split; [lia |]. split; [reflexivity |].
  by destruct reply.
Qed.

Lemma split_dot_shape (s : jsstring) :
((46%N ∉ s) ∧ split_dot s = [s])
  ∨ (∃ stem ext, s = stem ++ 46%N :: ext ∧ (46%N ∉ ext)
                 ∧ last (split_dot s) = Some ext ∧ 2 ≤ length (split_dot s)).
Proof.
  induction s as [|c s IH]; [left; split; [apply not_elem_of_nil | done] |].
  simpl. case_decide as Hc.
  - subst c. right. destruct IH as [[Hs E] | (stem & ext & E1 & E2 & E3 & E4)].
    + exists [], s. rewrite E. by repeat split.
    + exists (46%N :: stem), ext. rewrite E1 at 1.
      split; [done |]. split; [done |]. split; [| simpl; lia].
      destruct (split_dot s) as [|p ps]; [done |]. done.
  - destruct IH as [[Hs E] | (stem & ext & E1 & E2 & E3 & E4)].
    + left. rewrite E. split; [| done]. by apply not_elem_of_cons.
    + right. exists (c :: stem), ext. rewrite E1 at 1.
      split; [done |]. split; [done |].
      destruct (split_dot s) as [|p [|p' ps]]; simpl in *; [lia | lia |].
      split; [done | lia].
Qed.

(** X14. The extension taken from a file name never contains a dot. For
    a name with a dot it is what follows the last dot, possibly nothing;
    for a name without a dot it is the whole name. The path in the bucket
    is "images/", the time stamp, a dash, the random part, a dot and that
    extension. *)
Theorem X14_file_extension_is_last_dot_segment :
  ∀ (stamp random nm : jsstring),
    (46%N ∉ fileExt nm)
    ∧ (46%N ∉ nm → fileExt nm = nm)
    ∧ (46%N ∈ nm → ∃ stem, nm = stem ++ 46%N :: fileExt nm)
    ∧ (∀ stem ext, 46%N ∉ ext → fileExt (stem ++ 46%N :: ext) = ext)
    ∧ ∀ t sz, filePath stamp random {| name := nm; type := t; size := sz |}
              = lit "images/" ++ stamp ++ 45%N :: random ++ 46%N :: fileExt nm.
Proof.
  intros stamp random nm.
  assert (Hpath : ∀ t sz,
             filePath stamp random {| name := nm; type := t; size := sz |}
             = lit "images/" ++ stamp ++ 45%N :: random ++ 46%N :: fileExt nm)
    by reflexivity.
  revert Hpath. generalize (filePath stamp random). intros path Hpath.
  unfold fileExt in *.
  assert (Hlast : ∀ stem ext : jsstring,
             46%N ∉ ext → last (split_dot (stem ++ 46%N :: ext)) = Some ext).
  { intros stem ext Hext.
    destruct (split_dot_shape (stem ++ 46%N :: ext))
      as [[Hs _] | (stem' & ext' & E1 & E2 & E3 & _)].
    - exfalso. apply Hs. apply elem_of_app. right. apply list_elem_of_here.
    - rewrite E3. f_equal.
      assert (Hrev : reverse ext ++ 46%N :: reverse stem
                     = reverse ext' ++ 46%N :: reverse stem').
      { apply (f_equal reverse) in E1.
        by rewrite !reverse_app, !reverse_cons, <- !(assoc_L (++)) in E1. }
      clear E1 E3.
      assert (Hr : ∀ (a b : jsstring) x y, 46%N ∉ a → 46%N ∉ b →
                     a ++ 46%N :: x = b ++ 46%N :: y → a = b).
      { induction a as [|c a IHa]; intros [|d b] x y Ha Hb Hab; simpl in Hab.
        - done.
        - injection Hab as <- _. exfalso. apply Hb. apply list_elem_of_here.
        - injection Hab as -> _. exfalso. apply Ha. apply list_elem_of_here.
        - injection Hab as <- Hab. f_equal.
          apply not_elem_of_cons in Ha as [_ Ha].
          apply not_elem_of_cons in Hb as [_ Hb]. by eapply IHa. }
      symmetry. apply (inj reverse).
      eapply Hr; [| | exact Hrev]; by rewrite elem_of_reverse. }
  destruct (split_dot_shape nm) as [[Hs E] | (stem & ext & E1 & E2 & E3 & _)].
  - rewrite E in *. simpl in *. split; [done |]. split; [done |].
    split; [done |]. split; [| exact Hpath].
    intros stem ext Hext. by rewrite Hlast.
  - rewrite E3 in *. simpl in *. split; [done |]. split.
    { intros Hn. exfalso. apply Hn. rewrite E1. apply elem_of_app. right.
      apply list_elem_of_here. }
    split; [intros _; by exists stem |]. split; [| exact Hpath].
    intros stem' ext' Hext. by rewrite Hlast.
Qed.

Lemma X14_file_extension_is_last_dot_segment_witness :
  (46%N ∉ lit "README")
  ∧ fileExt (lit "README") = lit "README"
  ∧ fileExt (lit "fries.final.png") = lit "png"
  ∧ fileExt (lit "fries.") = [].
Proof.
  assert (H : 46%N ∉ lit "README")
    by (apply (bool_decide_unpack _); vm_compute; exact I).
  split; [exact H |].
  destruct (X14_file_extension_is_last_dot_segment [] [] (lit "README"))
    as (_ & H1 & _).
  split; [exact (H1 H) |]. split; vm_compute; reflexivity.
Defined.
End UploadMore.

Section SchemaMore.
Import Js Zod Validations Supabase UseOwner Forms.

(** ** The error map and the schemas, further *)

Lemma errorMap_snoc (issues : list Issue) (i : Issue) :
  errorMap (issues ++ [i])
  = if decide (i.1 = "") then errorMap issues else <[i.1 := i.2]> (errorMap issues).
Proof. unfold errorMap. by rewrite foldl_snoc. Qed.

Lemma errorMap_lookup (issues : list Issue) (k : string) :
  k ≠ "" →
  errorMap issues !! k = last ((filter (λ i : Issue, i.1 = k) issues).*2).
Proof.
  intros Hk. induction issues as [|i issues IH] using rev_ind; [done |].
  rewrite errorMap_snoc, filter_app, fmap_app.
  destruct (decide (i.1 = k)) as [Hi | Hi].
  - rewrite filter_cons_True by done. simpl. rewrite last_snoc.
    rewrite decide_False by congruence. rewrite Hi. apply lookup_insert_eq.
  - rewrite filter_cons_False by done. simpl. rewrite app_nil_r.
    case_decide; [done |]. rewrite lookup_insert_ne by done. exact IH.
Qed.

Lemma errorMap_lookup_empty_key (issues : list Issue) : errorMap issues !! "" = None.
Proof.
  induction issues as [|i issues IH] using rev_ind; [done |].
  rewrite errorMap_snoc. case_decide; [done |]. by rewrite lookup_insert_ne.
Qed.

(** X15. The error map a form shows holds, for each field, the message of
    the last issue reported under that field, and has no entry for a
    field without issue; an issue with an empty key is never shown. *)
Theorem X15_error_map_keeps_last_message :
  ∀ (issues : list Issue) (k : string),
    (k ≠ "" → errorMap issues !! k = last ((filter (λ i : Issue, i.1 = k) issues).*2))
    ∧ (k ≠ "" → (errorMap issues !! k = None ↔ k ∉ issues.*1))
    ∧ errorMap issues !! "" = None.
Proof.
  intros issues k. split; [apply errorMap_lookup |].
  split; [| apply errorMap_lookup_empty_key].
  intros Hk. rewrite errorMap_lookup by done. rewrite last_None. split.
  - intros Hnil%fmap_nil_inv ((k' & m) & -> & Hi)%list_elem_of_fmap.
    by apply (filter_nil_not_elem_of _ _ (k', m) Hnil).
  - intros Hn.
    assert (Hnil : filter (λ i : Issue, i.1 = k) issues = []).
    { apply elem_of_nil_inv. intros i [Hi1 Hi2]%list_elem_of_filter.
      apply Hn. apply list_elem_of_fmap. by exists i. }
    by rewrite Hnil.
Qed.

Lemma X15_error_map_keeps_last_message_witness :
  errorMap [("title", "Title is required");
            ("title", "Title must be at least 3 characters");
            ("link_url", "Invalid input")] !! "title"
  = Some "Title must be at least 3 characters".
Proof.
  assert (H : "title" ≠ "") by discriminate.
  rewrite (proj1 (X15_error_map_keeps_last_message _ "title") H).
  vm_compute. reflexivity.
Defined.

Lemma filter_at_key_same k p :
  filter (λ i : Issue, i.1 = k) (at_key k p) = at_key k p.
Proof.
  unfold at_key. induction (issues_of p) as [|m l IH]; [done |].
  rewrite fmap_cons, filter_cons_True by done. by rewrite IH.
Qed.

Lemma filter_at_key_other k k' p :
  k' ≠ k → filter (λ i : Issue, i.1 = k) (at_key k' p) = [].
Proof.
  intros Hne. unfold at_key. induction (issues_of p) as [|m l IH]; [done |].
  rewrite fmap_cons, filter_cons_False by done. exact IH.
Qed.

Lemma at_key_messages k p : (at_key k p).*2 = issues_of p.
Proof.
  unfold at_key. rewrite <- list_fmap_compose. apply list_fmap_id.
Qed.

(** X16. For a title that is a string, the message shown under the title
    field is "Title must be at least 3 characters" when it has fewer than
    three characters, the empty title included; "Title must be less than
    200 characters" when it has more than 200; none otherwise. "Title is
    required" is never the message shown for a string. *)
Theorem X16_title_message_shown :
  ∀ (isUrl : jsstring → bool) (s : jsstring) (c i l f : JsVal),
    let shown :=
      errorMap (createPost_issues isUrl
                  {| f_title := JStr s; f_content := c; f_image_url := i;
                     f_link_url := l; f_flags := f |}) !! "title" in
    shown = (if decide (length s < 3)
             then Some "Title must be at least 3 characters"
             else if decide (200 < length s)
                  then Some "Title must be less than 200 characters"
                  else None)
    ∧ shown ≠ Some "Title is required".
Proof.
  intros isUrl s c i l f shown.
  assert (E : shown = last (issues_of (title_schema isUrl (JStr s)))).
  { unfold shown. rewrite errorMap_lookup by done.
    unfold createPost_issues. cbn [f_title f_content f_image_url f_link_url f_flags].
    rewrite !filter_app, filter_at_key_same.
    rewrite !filter_at_key_other by done.
    by rewrite !app_nil_r, at_key_messages. }
  rewrite E, title_schema_cases.
  split; repeat case_decide; simpl; try done; lia.
Qed.

Lemma at_key_nil_valid k p : at_key k p = [] ↔ issues_of p = [].
Proof.
  unfold at_key. split; [apply fmap_nil_inv | by intros ->].
Qed.

Lemma z_string_no_issue isUrl checks v :
  issues_of (z_string isUrl checks v) = [] → z_string isUrl checks v = Valid v.
Proof.
  unfold z_string. destruct v as [| | s | l]; try done.
  by destruct (omap _ checks).
Qed.

Lemma title_schema_no_issue isUrl v :
  issues_of (title_schema isUrl v) = [] → title_schema isUrl v = Valid v.
Proof. apply z_string_no_issue. Qed.

Lemma content_schema_no_issue isUrl v :
  issues_of (content_schema isUrl v) = [] → content_schema isUrl v = Valid v.
Proof.
  unfold content_schema, optional. destruct v; try done; apply z_string_no_issue.
Qed.

Lemma url_schema_no_issue isUrl v :
  issues_of (image_url_schema isUrl v) = [] → image_url_schema isUrl v = Valid v.
Proof.
  unfold image_url_schema, or_, optional, z_string, z_literal.
  destruct v as [| | s | l]; try done. simpl.
  destruct (isUrl s); simpl; [done |]. by case_decide.
Qed.

Lemma flags_schema_no_issue v :
  issues_of (flags_schema v) = [] →
  flags_schema v = Valid (if v is JUndefined then JArr [] else v).
Proof. by destruct v. Qed.

Lemma createPostSchema_accepts :
  ∀ (isUrl : jsstring → bool) (o d : PostFields),
    (createPostSchema isUrl o = Success d →
     f_title d = f_title o ∧ f_content d = f_content o
     ∧ f_image_url d = f_image_url o ∧ f_link_url d = f_link_url o
     ∧ f_flags d = (if f_flags o is JUndefined then JArr [] else f_flags o))
    ∧ ((∃ d', createPostSchema isUrl o = Success d')
       ↔ issues_of (title_schema isUrl (f_title o)) = []
         ∧ issues_of (content_schema isUrl (f_content o)) = []
         ∧ issues_of (image_url_schema isUrl (f_image_url o)) = []
         ∧ issues_of (link_url_schema isUrl (f_link_url o)) = []
         ∧ issues_of (flags_schema (f_flags o)) = []).
Proof.
  intros isUrl o d.
  assert (Hnil : createPost_issues isUrl o = []
                 ↔ issues_of (title_schema isUrl (f_title o)) = []
                   ∧ issues_of (content_schema isUrl (f_content o)) = []
                   ∧ issues_of (image_url_schema isUrl (f_image_url o)) = []
                   ∧ issues_of (link_url_schema isUrl (f_link_url o)) = []
                   ∧ issues_of (flags_schema (f_flags o)) = []).
  { unfold createPost_issues. rewrite !app_nil, !at_key_nil_valid. tauto. }
  split.
  - unfold createPostSchema.
    destruct (createPost_issues isUrl o) as [|i l] eqn:E; [| done].
    destruct (proj1 Hnil eq_refl) as (Ht & Hc & Hi & Hl & Hf).
    intros [= <-]. simpl.
    rewrite (title_schema_no_issue _ _ Ht), (content_schema_no_issue _ _ Hc).
    rewrite (url_schema_no_issue _ _ Hi).
    change (link_url_schema isUrl) with (image_url_schema isUrl) in *.
    rewrite (url_schema_no_issue _ _ Hl), (flags_schema_no_issue _ Hf). done.
  - rewrite <- Hnil. unfold createPostSchema.
    destruct (createPost_issues isUrl o) as [|i l]; split; try done.
    + intros _. by eexists.
    + by intros [? ?].
Qed.


(** X17. When the post schema accepts an object it returns the values it
    was given, unchanged, except that absent flags become the empty
    array; and it accepts exactly when none of the five fields has an
    issue. *)
Theorem X17_accepted_object_is_returned_unchanged :
  ∀ (isUrl : jsstring → bool) (o d : PostFields),
    (createPostSchema isUrl o = Success d →
     f_title d = f_title o ∧ f_content d = f_content o
     ∧ f_image_url d = f_image_url o ∧ f_link_url d = f_link_url o
     ∧ f_flags d = (if f_flags o is JUndefined then JArr [] else f_flags o))
    ∧ ((∃ d', createPostSchema isUrl o = Success d')
       ↔ issues_of (title_schema isUrl (f_title o)) = []
         ∧ issues_of (content_schema isUrl (f_content o)) = []
         ∧ issues_of (image_url_schema isUrl (f_image_url o)) = []
         ∧ issues_of (link_url_schema isUrl (f_link_url o)) = []
         ∧ issues_of (flags_schema (f_flags o)) = []).
Proof. exact createPostSchema_accepts. Qed.

Lemma X17_accepted_object_is_returned_unchanged_witness :
  let o := {| f_title := JStr (lit "Crispy fries"); f_content := JUndefined;
              f_image_url := JStr []; f_link_url := JUndefined;
              f_flags := JUndefined |} in
  createPostSchema (λ _, false) o
  = Success {| f_title := JStr (lit "Crispy fries"); f_content := JUndefined;
               f_image_url := JStr []; f_link_url := JUndefined;
               f_flags := JArr [] |}.
Proof.
  intros o.
  destruct (createPostSchema (λ _, false) o) as [d|issues] eqn:E;
    [| vm_compute in E; discriminate E].
  destruct (proj1 (X17_accepted_object_is_returned_unchanged (λ _, false) o d) E)
    as (H1 & H2 & H3 & H4 & H5).
  destruct d. simpl in *. by subst.
Defined.

(** X19. The comment schema accepts a string exactly when it has between
    3 and 500 characters, and rejects every value that is not a string.
    For a string of fewer than three characters the last issue, the one a
    form would show, is "Comment must be at least 3 characters". *)
Theorem X19_comment_schema_bounds :
  ∀ (isUrl : jsstring → bool) (s : jsstring),
    (commentSchema isUrl (JStr s) = [] ↔ 3 ≤ length s ≤ 500)
    ∧ commentSchema isUrl JUndefined ≠ []
    ∧ commentSchema isUrl JNull ≠ []
    ∧ (∀ l, commentSchema isUrl (JArr l) ≠ [])
    ∧ errorMap (commentSchema isUrl (JStr s)) !! "content"
      = (if decide (length s < 3)
         then Some "Comment must be at least 3 characters"
         else if decide (500 < length s)
              then Some "Comment must be less than 500 characters"
              else None).
Proof.
  intros isUrl s.
  assert (E : comment_content_schema isUrl (JStr s) =
              if decide (length s < 1)
              then Dirty ["Comment cannot be empty";
                          "Comment must be at least 3 characters"]
              else if decide (length s < 3)
                   then Dirty ["Comment must be at least 3 characters"]
                   else if decide (500 < length s)
                        then Dirty ["Comment must be less than 500 characters"]
                        else Valid (JStr s)).
  { unfold comment_content_schema, z_string. simpl.
    repeat case_decide; simpl; try reflexivity; lia. }
  unfold commentSchema. rewrite E.
  split; [| split; [done | split; [done | split; [done |]]]].
  - repeat case_decide; simpl; split; intros; try done; lia.
  - repeat case_decide; try lia; vm_compute; reflexivity.
Qed.


(** ** Trimming *)

Lemma truthy_true (s : jsstring) : truthy s = true ↔ s ≠ [].
Proof. by destruct s. Qed.

Lemma trimStart_head s c r : trimStart s = c :: r → is_ws c = false.
Proof.
  induction s as [|x s IH]; simpl; [done |].
  destruct (is_ws x) eqn:E; [exact IH |]. by intros [= <- _].
Qed.

Lemma trimStart_suffix s : ∃ pre, s = pre ++ trimStart s ∧ Forall (λ c, is_ws c = true) pre.
Proof.
  induction s as [|x s (pre & E & Hpre)]; simpl; [by exists [] |].
  destruct (is_ws x) eqn:Ex.
  - exists (x :: pre). split; [by rewrite E at 1 | by constructor].
  - by exists [].
Qed.

Lemma trimStart_nil s : trimStart s = [] ↔ Forall (λ c, is_ws c = true) s.
Proof.
  induction s as [|x s IH]; simpl; [done |].
  destruct (is_ws x) eqn:Ex.
  - rewrite IH. split; [by constructor | by intros [_ ?]%Forall_cons].
  - split; [done |]. intros [? _]%Forall_cons. congruence.
Qed.

Lemma trimStart_fixed s : (∀ c, head s = Some c → is_ws c = false) → trimStart s = s.
Proof.
  destruct s as [|x s]; [done |]. intros H. simpl. by rewrite (H x eq_refl).
Qed.

Lemma trimEnd_last s c : last (trimEnd s) = Some c → is_ws c = false.
Proof.
  unfold trimEnd. rewrite last_reverse.
  destruct (trimStart (reverse s)) as [|x r] eqn:E; [done |].
  intros [= <-]. by eapply trimStart_head.
Qed.

Lemma trimEnd_prefix s : ∃ suf, s = trimEnd s ++ suf ∧ Forall (λ c, is_ws c = true) suf.
Proof.
  unfold trimEnd. destruct (trimStart_suffix (reverse s)) as (pre & E & Hpre).
  exists (reverse pre). split; [| by apply Forall_reverse].
  rewrite <- reverse_app, <- E. by rewrite reverse_involutive.
Qed.

Lemma trimEnd_fixed s : (∀ c, last s = Some c → is_ws c = false) → trimEnd s = s.
Proof.
  intros H. unfold trimEnd. rewrite trimStart_fixed; [apply reverse_involutive |].
  intros c. rewrite head_reverse. apply H.
Qed.

Lemma trim_head s c : head (trim s) = Some c → is_ws c = false.
Proof.
  unfold trim. destruct (trimEnd_prefix (trimStart s)) as (suf & E & _).
  destruct (trimEnd (trimStart s)) as [|x r]; [done |].
  intros [= <-]. by eapply trimStart_head.
Qed.

Lemma trim_last s c : last (trim s) = Some c → is_ws c = false.
Proof. apply trimEnd_last. Qed.

Lemma trim_idempotent s : trim (trim s) = trim s.
Proof.
  unfold trim at 1. rewrite (trimStart_fixed (trim s)) by apply trim_head.
  apply trimEnd_fixed, trim_last.
Qed.

Lemma trim_nil s : trim s = [] ↔ Forall (λ c, is_ws c = true) s.
Proof.
  rewrite <- trimStart_nil. unfold trim. split.
  - intros E. destruct (trimEnd_prefix (trimStart s)) as (suf & E1 & Hsuf).
    rewrite E in E1. simpl in E1.
    destruct (trimStart s) as [|x r] eqn:Es; [done |].
    apply trimStart_head in Es. rewrite <- E1 in Hsuf.
    apply Forall_cons in Hsuf as [? _]. congruence.
  - by intros ->.
Qed.

(** ** Submissions, further *)

Lemma or_null_or_undefined (s : jsstring) :
  or_null (or_undefined s) = if truthy s then JStr s else JNull.
Proof. unfold or_undefined, or_null. destruct (truthy s) eqn:E; [by rewrite E | done]. Qed.

Lemma url_input_issues isUrl (s : jsstring) :
  issues_of (image_url_schema isUrl (or_null (or_undefined s))) = []
  ↔ s ≠ [] ∧ isUrl s = true.
Proof.
  rewrite or_null_or_undefined. destruct s as [|c s]; simpl.
  - split; [done | by intros [? _]].
  - unfold image_url_schema, or_, optional, z_string, z_literal. simpl.
    destruct (isUrl (c :: s)); simpl; split; try done. by intros [_ ?].
Qed.

Lemma form_issues isUrl (f : Form) :
  createPost_issues isUrl (parsed_object (postData f)) = []
  ↔ 3 ≤ length (trim (title f)) ≤ 200 ∧ length (trim (content f)) ≤ 2000
    ∧ (trim (imageUrl f) ≠ [] ∧ isUrl (trim (imageUrl f)) = true)
    ∧ (trim (linkUrl f) ≠ [] ∧ isUrl (trim (linkUrl f)) = true).
Proof.
  unfold createPost_issues, parsed_object, postData.
  cbn [f_title f_content f_image_url f_link_url f_flags
       pd_title pd_content pd_image_url pd_link_url pd_flags].
  rewrite !app_nil, !at_key_nil_valid.
  change (link_url_schema isUrl) with (image_url_schema isUrl).
  rewrite !url_input_issues, title_schema_cases, content_schema_cases.
  change (issues_of (flags_schema (or_empty_array (Some (selectedFlags f))))) with (@nil string).
  repeat case_decide; simpl; split; intros; destruct_and?; try done;
    repeat split; try done; lia.
Qed.

Lemma form_parse isUrl (f : Form) :
  match createPostSchema isUrl (parsed_object (postData f)) with
  | Success d =>
      (3 ≤ length (trim (title f)) ≤ 200 ∧ length (trim (content f)) ≤ 2000
       ∧ (trim (imageUrl f) ≠ [] ∧ isUrl (trim (imageUrl f)) = true)
       ∧ (trim (linkUrl f) ≠ [] ∧ isUrl (trim (linkUrl f)) = true))
      ∧ d = {| f_title := JStr (trim (title f));
               f_content := JStr (trim (content f));
               f_image_url := JStr (trim (imageUrl f));
               f_link_url := JStr (trim (linkUrl f));
               f_flags := JArr (selectedFlags f) |}
  | Failure _ =>
      ¬ (3 ≤ length (trim (title f)) ≤ 200 ∧ length (trim (content f)) ≤ 2000
         ∧ (trim (imageUrl f) ≠ [] ∧ isUrl (trim (imageUrl f)) = true)
         ∧ (trim (linkUrl f) ≠ [] ∧ isUrl (trim (linkUrl f)) = true))
  end.
Proof.
  pose proof (form_issues isUrl f) as Hiff.
  destruct (createPostSchema isUrl (parsed_object (postData f))) as [d|issues] eqn:E.
  - assert (Hnil : createPost_issues isUrl (parsed_object (postData f)) = []).
    { unfold createPostSchema in E.
      by destruct (createPost_issues isUrl (parsed_object (postData f))). }
    pose proof (proj1 Hiff Hnil) as Hok. split; [exact Hok |].
    destruct (proj1 (createPostSchema_accepts isUrl _ d) E) as (H1 & H2 & H3 & H4 & H5).
    destruct Hok as (_ & _ & [Hi _] & [Hl _]).
    destruct d as [dt dc di dl df]. simpl in *. subst.
    rewrite !or_null_or_undefined.
    apply truthy_true in Hi, Hl. by rewrite Hi, Hl.
  - intros Hok. apply Hiff in Hok. unfold createPostSchema in E.
    by rewrite Hok in E.
Qed.

(** X18. A create or edit submission reaches the platform exactly when,
    after trimming, the title has 3 to 200 characters, the content at
    most 2000, and the image URL and the link URL are both non-empty and
    well-formed. Then the insert or update carries the trimmed strings
    and the selected flags, and the insert carries the user id only when
    it is truthy. Otherwise the remote side is left as it was. *)
Theorem X18_submission_reaches_platform_iff :
  ∀ (isUrl : jsstring → bool) (platform : Platform) (u : option jsstring)
    (post_id : jsstring) (f : Form) (r : Remote),
    let ok :=
      3 ≤ length (trim (title f)) ≤ 200 ∧ length (trim (content f)) ≤ 2000
      ∧ (trim (imageUrl f) ≠ [] ∧ isUrl (trim (imageUrl f)) = true)
      ∧ (trim (linkUrl f) ≠ [] ∧ isUrl (trim (linkUrl f)) = true) in
    let payload :=
      {| f_title := JStr (trim (title f)); f_content := JStr (trim (content f));
         f_image_url := JStr (trim (imageUrl f));
         f_link_url := JStr (trim (linkUrl f));
         f_flags := JArr (selectedFlags f) |} in
    (ok →
     CreatePost.mutationFn isUrl platform u (postData f) r
       = insert_post platform payload (if truthy_opt u then u else None) r
     ∧ EditPost.submit isUrl platform post_id f r
       = update_post platform post_id payload r
     ∧ calls (CreatePost.mutationFn isUrl platform u (postData f) r).2
       = calls r ++ [InsertPost payload (if truthy_opt u then u else None)]
     ∧ calls (EditPost.submit isUrl platform post_id f r).2
       = calls r ++ [UpdatePost post_id payload])
    ∧ (¬ ok →
       (CreatePost.mutationFn isUrl platform u (postData f) r).2 = r
       ∧ (EditPost.submit isUrl platform post_id f r).2 = r).
Proof.
  intros isUrl platform u post_id f r ok payload.
  pose proof (form_parse isUrl f) as Hp.
  unfold EditPost.submit, EditPost.handleSubmit, EditPost.mutationFn,
    CreatePost.mutationFn.
  destruct (createPostSchema isUrl (parsed_object (postData f))) as [d|issues].
  - destruct Hp as [Hok ->]. fold payload. split; [| done].
    intros _. split; [done |]. split; [done |].
    unfold insert_post, update_post.
    destruct (on_insert _ _ _ _) as [m | [row table]],
             (on_update _ _ _ _) as [m' | table']; done.
  - split; [done | by intros _].
Qed.

Lemma X18_submission_reaches_platform_iff_witness :
  let isUrl : jsstring → bool := λ s, bool_decide (lit "https://" `prefix_of` s) in
  let platform := {| on_insert := λ _ _ _, inl "denied";
                     on_update := λ _ _ _, inl "denied" |} in
  let f := {| title := lit "  Crispy fries "; content := lit "Shake twice.";
              imageUrl := lit "https://a.b/c.png "; linkUrl := lit "https://a.b";
              selectedFlags := [lit "tip"] |} in
  let r := {| posts := []; calls := [] |} in
  calls (CreatePost.mutationFn isUrl platform (Some (lit "u1")) (postData f) r).2
  = [InsertPost {| f_title := JStr (lit "Crispy fries");
                   f_content := JStr (lit "Shake twice.");
                   f_image_url := JStr (lit "https://a.b/c.png");
                   f_link_url := JStr (lit "https://a.b");
                   f_flags := JArr [lit "tip"] |} (Some (lit "u1"))].
Proof.
  intros isUrl platform f r.
  assert (Hok : 3 ≤ length (trim (title f)) ≤ 200 ∧ length (trim (content f)) ≤ 2000
                ∧ (trim (imageUrl f) ≠ [] ∧ isUrl (trim (imageUrl f)) = true)
                ∧ (trim (linkUrl f) ≠ [] ∧ isUrl (trim (linkUrl f)) = true)).
  { vm_compute. repeat split; try lia; try discriminate. }
  destruct (proj1 (X18_submission_reaches_platform_iff isUrl platform
                     (Some (lit "u1")) (lit "p1") f r) Hok) as (_ & _ & H & _).
  rewrite H. vm_compute. reflexivity.
Defined.

(** X20. What a submit handler hands to the mutation is trimmed: title
    and content neither start nor end with whitespace and trimming them
    again changes nothing; a title of whitespace only is the empty title;
    an image URL or link URL of whitespace only is handed over as absent,
    and one that is handed over is not empty. *)
Theorem X20_submitted_data_is_trimmed :
  ∀ (f : Form),
    let d := postData f in
    trim (pd_title d) = pd_title d ∧ trim (pd_content d) = pd_content d
    ∧ (∀ c, head (pd_title d) = Some c ∨ last (pd_title d) = Some c
            ∨ head (pd_content d) = Some c ∨ last (pd_content d) = Some c
            → is_ws c = false)
    ∧ (pd_title d = [] ↔ Forall (λ c, is_ws c = true) (title f))
    ∧ (pd_image_url d = None ↔ Forall (λ c, is_ws c = true) (imageUrl f))
    ∧ (pd_link_url d = None ↔ Forall (λ c, is_ws c = true) (linkUrl f))
    ∧ (∀ u, pd_image_url d = Some u ∨ pd_link_url d = Some u
            → u ≠ [] ∧ trim u = u).
Proof.
  intros f d. unfold d, postData. simpl.
  split; [apply trim_idempotent |]. split; [apply trim_idempotent |].
  split.
  { intros c [H | [H | [H | H]]];
      first [by eapply trim_head | by eapply trim_last]. }
  split; [apply trim_nil |].
  assert (Hu : ∀ s : jsstring,
             (or_undefined (trim s) = None ↔ Forall (λ c, is_ws c = true) s)
             ∧ ∀ u, or_undefined (trim s) = Some u → u ≠ [] ∧ trim u = u).
  { intros s. rewrite <- trim_nil. unfold or_undefined.
    destruct (trim s) as [|c t] eqn:E; simpl; [done |].
    split; [done |]. intros u [= <-]. split; [done |].
    rewrite <- E. apply trim_idempotent. }
  split; [apply Hu |]. split; [apply Hu |].
  intros u [H | H]; eapply Hu, H.
Qed.

(** X21. A post without an image URL or without a link URL cannot be
    saved from the edit form as it is opened: the form is filled with
    the empty string for the missing URL, the submission fails validation
    and the platform is not called. *)
Theorem X21_edit_of_post_without_urls_fails :
  ∀ (isUrl : jsstring → bool) (platform : Platform) (p : Post) (r : Remote),
    image_url p = None ∨ link_url p = None →
    ∃ errors,
      EditPost.submit isUrl platform (Supabase.id p) (EditPost.prefill p) r
      = (Threw (ValidationError errors), r)
      ∧ (image_url p = None → errors !! "image_url" = Some "Invalid input")
      ∧ (link_url p = None → errors !! "link_url" = Some "Invalid input").
Proof.
  intros isUrl platform p r Hnone.
  pose proof (form_parse isUrl (EditPost.prefill p)) as Hp.
  unfold EditPost.submit, EditPost.handleSubmit, EditPost.mutationFn.
  destruct (createPostSchema isUrl (parsed_object (postData (EditPost.prefill p))))
    as [d|issues] eqn:E.
  - exfalso. destruct Hp as [(_ & _ & [Hi _] & [Hl _]) _].
    unfold EditPost.prefill in Hi, Hl. simpl in Hi, Hl.
    destruct Hnone as [Hn | Hn]; rewrite Hn in *; done.
  - exists (errorMap issues). split; [done |].
    assert (Hissues : issues
              = createPost_issues isUrl (parsed_object (postData (EditPost.prefill p)))).
    { unfold createPostSchema in E.
      destruct (createPost_issues isUrl _); [done | congruence]. }
    rewrite Hissues, !errorMap_lookup by done.
    unfold createPost_issues.
    cbn [parsed_object f_title f_content f_image_url f_link_url f_flags].
    rewrite !filter_app, !filter_at_key_same.
    rewrite !filter_at_key_other by done.
    rewrite !app_nil_r, !app_nil_l, !at_key_messages.
    unfold EditPost.prefill, postData. simpl.
    split; intros ->; reflexivity.
Qed.

Lemma X21_edit_of_post_without_urls_fails_witness :
  let platform := {| on_insert := λ _ _ _, inl "denied";
                     on_update := λ _ _ _, inl "denied" |} in
  let r := {| posts := [Samples.sample_post]; calls := [] |} in
  ∃ errors,
    EditPost.submit (λ _, true) platform (lit "p1")
      (EditPost.prefill Samples.sample_post) r
    = (Threw (ValidationError errors), r).
Proof.
  intros platform r.
  destruct (X21_edit_of_post_without_urls_fails (λ _, true) platform
              Samples.sample_post r (or_introl eq_refl)) as (errors & H & _).
  exists errors. exact H.
Defined.
End SchemaMore.

Section PageMore.
Import Js Supabase Wire ReactQuery PostPage.

(** ** The post page machine, further *)

Lemma step_sends s e s' out q :
  step s e = Some (s', out) → q ∈ out →
  match q with
  | InsertComment text user post_id =>
      text ≠ [] ∧ trim text = text ∧ truthy user = true ∧ post_id = id s
  | RpcIncrementUpvotes post_id =>
      ∃ p, post (view s) = Some p ∧ Supabase.id p = post_id
  | SelectPost post_id | SelectComments post_id => post_id = id s
  | DeletePost post_id => post_id = id s ∧ e = HandleDelete true
  | SignInAnonymously =>
      e = Auth (UseOwner.SessionReplied (UseOwner.SessionReturned None))
  | InsertPost _ _ | UpdatePost _ _ | GetSession => False
  end.
Proof.
  intros H Hq. destruct (user_action e) eqn:Hu.
  - apply step_event in H as (_ & s1 & H & _).
    destruct e as [| | | c | text | | | | | |]; try discriminate Hu; simpl in H.
    + apply (f_equal (fmap (M:=option) snd)) in H. simpl in H. injection H as <-.
      destruct (handleUpvote_sends s) as [E | (p & Hp & E)]; rewrite E in Hq.
      * by apply elem_of_nil in Hq.
      * apply list_elem_of_singleton in Hq as ->. by exists p.
    + apply (f_equal (fmap (M:=option) snd)) in H. simpl in H. injection H as <-.
      rewrite handleCommentSubmit_out in Hq.
      destruct (truthy (trim (newComment s))) eqn:Et; simpl in Hq;
        [| by apply elem_of_nil in Hq].
      destruct (negb _); [| by apply elem_of_nil in Hq].
      destruct (userId s) as [u|]; [| by apply elem_of_nil in Hq].
      destruct (truthy u) eqn:Eu; [| by apply elem_of_nil in Hq].
      apply list_elem_of_singleton in Hq as ->.
      split; [by apply truthy_true |]. split; [apply trim_idempotent | done].
    + apply (f_equal (fmap (M:=option) snd)) in H. simpl in H. injection H as <-.
      rewrite handleDelete_out in Hq. destruct c; [| by apply elem_of_nil in Hq].
      by apply list_elem_of_singleton in Hq as ->.
    + injection H as _ <-. by apply elem_of_nil in Hq.
  - by destruct (network_event_sends _ _ _ _ _ Hu H Hq) as [-> | [-> | [-> ->]]].
Qed.

Lemma fetched_from acc e p :
  fetched acc e = Some p → acc = Some p ∨ e = PostReplied true (inr p).
Proof.
  destruct e as [| | | | | | [|] [m|p'] | | | |]; simpl; auto.
  intros [= ->]. by right.
Qed.

Lemma run_sends events : ∀ s s' out q,
  run s events = Some (s', out) → q ∈ out →
  match q with
  | InsertComment text user post_id =>
      text ≠ [] ∧ trim text = text ∧ truthy user = true ∧ post_id = id s
  | RpcIncrementUpvotes post_id =>
      ∃ p, (post (view s) = Some p ∨ data (postQ s) = Some p
            ∨ PostReplied true (inr p) ∈ events)
           ∧ Supabase.id p = post_id
  | SelectPost post_id | SelectComments post_id => post_id = id s
  | DeletePost post_id => post_id = id s ∧ HandleDelete true ∈ events
  | SignInAnonymously =>
      Auth (UseOwner.SessionReplied (UseOwner.SessionReturned None)) ∈ events
  | InsertPost _ _ | UpdatePost _ _ | GetSession => False
  end.
Proof.
  induction events as [|e rest IH]; intros s s' out q H Hq; simpl in H.
  - injection H as _ <-. by apply elem_of_nil in Hq.
  - destruct (step s e) as [[s1 out1]|] eqn:E1; [| done]. simpl in H.
    destruct (run s1 rest) as [[s2 out2]|] eqn:E2; [| done]. simpl in H.
    injection H as _ <-. apply elem_of_app in Hq as [Hq | Hq].
    + pose proof (step_sends _ _ _ _ _ E1 Hq) as Hs.
      destruct q; try done.
      * destruct Hs as [-> ->]. split; [done | apply list_elem_of_here].
      * destruct Hs as (p & Hp & <-). exists p. auto.
      * subst e. apply list_elem_of_here.
    + pose proof (IH _ _ _ _ E2 Hq) as Hs.
      pose proof (step_post_data _ _ _ _ E1) as [Hd Hid]. rewrite Hid in Hs.
      destruct q; try done.
      * destruct Hs as [-> Hin]. split; [done | by apply list_elem_of_further].
      * destruct Hs as (p & Hp & <-). exists p. split; [| done].
        assert (Hdata : data (postQ s1) = Some p
                        → data (postQ s) = Some p ∨ PostReplied true (inr p) ∈ e :: rest).
        { rewrite Hd. intros [? | ->]%fetched_from; [by left |].
          right. apply list_elem_of_here. }
        destruct Hp as [Hp | [Hp | Hp]].
        -- destruct (step_view_post _ _ _ _ E1) as [Hv | Hv]; rewrite Hv in Hp;
             [by left |]. right. by apply Hdata.
        -- right. by apply Hdata.
        -- right. right. by apply list_elem_of_further.
      * by apply list_elem_of_further.
Qed.
End PageMore.

(** X24. Every request the post page sends, at its first render or
    after it, is of one of seven kinds and well formed. The session is
    asked for at the first render and never again. A select is for the
    page's own id. A comment insert carries a non-empty, trimmed text, a
    truthy user id and the page's post id. An upvote call carries the id
    of a post the post query has taken. A delete is for the page's own id
    and follows a confirmed call of the delete handler. The anonymous
    sign-in follows a session without a user. The page never writes a
    post. *)
Theorem X24_post_page_requests_are_well_formed :
  ∀ (i : Js.jsstring) (events : list PostPage.Event)
    (s : PostPage.State) (out : list Supabase.Request) (q : Supabase.Request),
    PostPage.run (PostPage.mount i) events = Some (s, out) →
    q ∈ PostPage.mount_requests i ++ out →
    match q with
    | Supabase.InsertComment text user post_id =>
        text ≠ [] ∧ Js.trim text = text ∧ Js.truthy user = true ∧ post_id = i
    | Supabase.RpcIncrementUpvotes post_id =>
        ∃ p, PostPage.PostReplied true (inr p) ∈ events ∧ Supabase.id p = post_id
    | Supabase.SelectPost post_id | Supabase.SelectComments post_id => post_id = i
    | Supabase.DeletePost post_id =>
        post_id = i ∧ PostPage.HandleDelete true ∈ events
    | Supabase.SignInAnonymously =>
        PostPage.Auth (UseOwner.SessionReplied (UseOwner.SessionReturned None))
        ∈ events
    | Supabase.GetSession => Supabase.GetSession ∉ out
    | Supabase.InsertPost _ _ | Supabase.UpdatePost _ _ => False
    end.
Proof.
  intros i events s out q Hrun Hq.
  pose proof (run_sends events _ _ _ Supabase.GetSession Hrun) as Hsession.
  simpl in Hsession.
  apply elem_of_app in Hq as [Hq | Hq].
  - unfold PostPage.mount_requests in Hq.
    apply elem_of_cons in Hq as [-> | Hq]; [exact Hsession |].
    destruct (Js.truthy i); [| by apply elem_of_nil in Hq].
    apply elem_of_cons in Hq as [-> | Hq]; [reflexivity |].
    by apply list_elem_of_singleton in Hq as ->.
  - pose proof (run_sends events _ _ _ _ Hrun Hq) as H.
    destruct q as [| | pid | pid | pid | text user pid | pid | |]; try done.
    destruct H as (p & [Hp | [Hp | Hp]] & Hid); [done | done | by exists p].
Qed.

Lemma X24_post_page_requests_are_well_formed_witness :
  ∃ s out,
    PostPage.run (PostPage.mount (Js.lit "p1"))
      [PostPage.Auth (UseOwner.SessionReplied
                        (UseOwner.SessionReturned (Some (Js.lit "u1"))));
       PostPage.PostReplied true (inr Samples.sample_post);
       PostPage.SetNewComment (Js.lit "  nice  "); PostPage.HandleCommentSubmit]
    = Some (s, out)
    ∧ PostPage.mount_requests (Js.lit "p1")
      = [Supabase.GetSession; Supabase.SelectPost (Js.lit "p1");
         Supabase.SelectComments (Js.lit "p1")]
    ∧ out = [Supabase.InsertComment (Js.lit "nice") (Js.lit "u1") (Js.lit "p1")]
    ∧ Js.trim (Js.lit "nice") = Js.lit "nice".
Proof.
  destruct (PostPage.run (PostPage.mount (Js.lit "p1"))
      [PostPage.Auth (UseOwner.SessionReplied
                        (UseOwner.SessionReturned (Some (Js.lit "u1"))));
       PostPage.PostReplied true (inr Samples.sample_post);
       PostPage.SetNewComment (Js.lit "  nice  "); PostPage.HandleCommentSubmit])
    as [[s out]|] eqn:E; [| vm_compute in E; discriminate E].
  exists s, out. split; [reflexivity |]. split; [reflexivity |].
  assert (Hout : out = [Supabase.InsertComment (Js.lit "nice") (Js.lit "u1") (Js.lit "p1")]).
  { vm_compute in E. by injection E as _ <-. }
  split; [exact Hout |].
  assert (Hq : Supabase.InsertComment (Js.lit "nice") (Js.lit "u1") (Js.lit "p1")
               ∈ PostPage.mount_requests (Js.lit "p1") ++ out).
  { apply elem_of_app. right. rewrite Hout. apply list_elem_of_here. }
  by destruct (X24_post_page_requests_are_well_formed _ _ _ _ _ E Hq) as (_ & H & _).
Defined.

Lemma X20_submitted_data_is_trimmed_witness :
  let f := {| Forms.title := Js.lit "  Crispy fries "; Forms.content := [];
              Forms.imageUrl := Js.lit "   "; Forms.linkUrl := Js.lit "https://a.b";
              Forms.selectedFlags := [] |} in
  Forall (λ c, Js.is_ws c = true) (Forms.imageUrl f)
  ∧ Forms.pd_image_url (Forms.postData f) = None
  ∧ Forms.pd_title (Forms.postData f) = Js.lit "Crispy fries".
Proof.
  intros f.
  assert (H : Forall (λ c, Js.is_ws c = true) (Forms.imageUrl f))
    by (apply (bool_decide_unpack _); vm_compute; exact I).
  split; [exact H |].
  destruct (X20_submitted_data_is_trimmed f) as (_ & _ & _ & _ & Hi & _).
  split; [exact (proj2 Hi H) | vm_compute; reflexivity].
Defined.

